(** * Unicode code point subsets of xmlschema (codepoints.py)

    A shallow embedding of [xmlschema/codepoints.py]: the character group
    parser, the coalescing iterator [iter_code_points], the [UnicodeSubset]
    container with its [add], [discard], [complement] and subtraction
    operators, its iteration, membership, size and comparison, the set
    operators in place, the text rendering of a subset and the builder of
    the Unicode category table, followed by the properties proved about
    them.

    Conventions of the embedding.
    - A Python integer is a [Z]; a unicode string is the list of its code
      points ([list Z]).
    - An element of [UnicodeSubset._code_points] is an [atom]: a bare
      integer ([Single]) or a tuple of two integers ([Range]).  The value
      given to [add] and [discard] is an [atom] as well: an integer or a
      tuple.  A two element list given as a value is turned into a tuple by
      the source before it is stored; it differs from the tuple in the
      exception of an invalid value only, and has its own entry points
      [add_list] and [discard_list].  [iter_code_points] reads a tuple and
      a list alike and yields tuples.
    - A method that mutates [self._code_points] is a function from the list
      before the call to the list after the call, paired with the exception
      that left the call, if any.
    - A generator is the list of the items it yields, paired with the
      exception that ended it, if any. *)

From Stdlib Require Import String Ascii.
From Stdlib Require Import ZArith Bool List Lia.
From Stdlib Require Import Permutation.
Import ListNotations.
Open Scope Z_scope.


(** ** Data model *)

Inductive atom : Type :=
| Single (cp : Z)
| Range (start_cp end_cp : Z).

Definition lo (a : atom) : Z :=
  match a with Single cp => cp | Range s _ => s end.

Definition hi (a : atom) : Z :=
  match a with Single cp => cp | Range _ e => e end.

Definition atom_eqb (a b : atom) : bool :=
  match a, b with
  | Single x, Single y => x =? y
  | Range s e, Range s' e' => (s =? s') && (e =? e')
  | _, _ => false
  end.

(** The texts of the exceptions raised by the module, and the one of the
    [%] operator that the module runs into.  A message built with the [%]
    operator keeps the values it is formatted with. *)
Inductive message : Type :=
| NotCodePoint (value : atom)
| NotCodePointRange (value : atom)
| NotAllArgumentsConverted
| CodePointsUnordered
| BadCharacter (char : Z) (position : Z)
| BadCharacterRange (char end_char : Z) (position : Z) (s : list Z).

Definition message_format (m : message) : string :=
  match m with
  | NotCodePoint _ => "not a Unicode code point: %r"
  | NotCodePointRange _ => "not a Unicode code point range: %r"
  | NotAllArgumentsConverted =>
      "not all arguments converted during string formatting"
  | CodePointsUnordered => "code points unordered"
  | BadCharacter _ _ => "bad character %r at position %d"
  | BadCharacterRange _ _ _ _ => "bad character range %r-%r at position %d: %r"
  end.

Inductive exn : Type :=
| XMLSchemaValueError (m : message)
| XMLSchemaRegexError (m : message)
| TypeError (m : message)
| KeyError (key : string).

(** A call that returns a value or raises. *)
Inductive result (A : Type) : Type :=
| Return (x : A)
| Raise (e : exn).

Arguments Return {A} x.
Arguments Raise {A} e.

(** Items yielded by a generator, and the exception that ended it. *)
Definition generated (A : Type) : Type := (list A * option exn)%type.

Definition yield {A : Type} (x : A) (g : generated A) : generated A :=
  (x :: fst g, snd g).

Definition yield_all {A : Type} (xs : list A) (g : generated A) : generated A :=
  (xs ++ fst g, snd g).

(** The code points covered by a list of atoms. *)
Definition inside (a : atom) (x : Z) : Prop := lo a <= x <= hi a.

Definition covers (l : list atom) (x : Z) : Prop :=
  exists a, In a l /\ inside a x.

Definition insideb (a : atom) (x : Z) : bool := (lo a <=? x) && (x <=? hi a).

Definition coversb (l : list atom) (x : Z) : bool := existsb (fun a => insideb a x) l.

(** The ordering invariant of the data model: consecutive atoms A, B with
    [hi A + 1 < lo B]. *)
Fixpoint ordered (l : list atom) : Prop :=
  match l with
  | [] => True
  | a :: r =>
      match r with [] => True | b :: _ => hi a + 1 < lo b end /\ ordered r
  end.

(** The weaker ordering in which consecutive atoms may touch. *)
Fixpoint ascending (l : list atom) : Prop :=
  match l with
  | [] => True
  | a :: r =>
      match r with [] => True | b :: _ => hi a < lo b end /\ ascending r
  end.

(** A bare integer stands for one code point, a couple for more than one. *)
Definition proper (a : atom) : Prop :=
  match a with Single _ => True | Range s e => s < e end.

Definition nonempty (a : atom) : Prop := lo a <= hi a.

(** ** Characters and strings *)

(** The code points of a literal of the source. *)
Definition ord (c : ascii) : Z := Z.of_N (N_of_ascii c).

Definition code_points_of (s : string) : list Z := map ord (list_ascii_of_string s).

Definition len (s : list Z) : Z := Z.of_nat (length s).

(** [c in chars] for a string [c] of one character. *)
Definition in_chars (c : Z) (chars : list Z) : bool := existsb (Z.eqb c) chars.

Arguments in_chars : simpl never.
Arguments len : simpl never.

(** [range(a, b)] *)
Definition py_range (a b : Z) : list Z :=
  map (fun k => a + Z.of_nat k) (seq 0 (Z.to_nat (b - a))).

Definition CHARACTER_GROUP_ESCAPED : list Z :=
  Eval vm_compute in code_points_of "-|.^?*+{}()[]".

Definition UCS4_MAXUNICODE : Z := 1114111.

(** ** code_point_repr *)

(** ['\%s' % unicode_chr(cp)] when [cp] is one of the escaped characters,
    [unicode_chr(cp)] otherwise; 92 is the backslash. *)
Definition escaped_char (cp : Z) : list Z :=
  if in_chars cp CHARACTER_GROUP_ESCAPED then [92; cp] else [cp].

Definition code_point_repr (cp : atom) : list Z :=
  match cp with
  | Single c => escaped_char c
  | Range cp0 cp1 =>
      let start_char := escaped_char cp0 in
      let end_char := escaped_char cp1 in
      if cp1 >? cp0 + 1 then start_char ++ [45] ++ end_char
      else start_char ++ end_char
  end.

(** ** parse_character_group *)

Definition metacharacters : list Z := Eval vm_compute in code_points_of "|.^?*+{}()".
Definition brackets : list Z := Eval vm_compute in code_points_of "[]".

(** The body of [for i in string_iter] for the positions after the first.
    [rest] is [s[i:]], so that [next(string_iter)] takes the head of what
    follows and [s[i + 1]] is the character after it; [char] and [escaped]
    are the variables of the source.  45 is the hyphen.  The hyphen branch
    calls [next] only when [i] is not the last index: the two [[]] cases
    there are not reached when [i + len rest = len s]. *)
Fixpoint parse_loop (s : list Z) (expand_ranges : bool) (i : Z)
    (rest : list Z) (escaped : bool) (char : Z) {struct rest}
    : generated atom :=
  match rest with
  | [] => if escaped then ([Single 92], None) else ([], None)
  | c :: rest1 =>
      if c =? 45 then
        if escaped || (i =? len s - 1) then
          yield (Single c) (parse_loop s expand_ranges (i + 1) rest1 false c)
        else
          match rest1 with
          | [] => ([], None)
          | c1 :: rest2 =>
              let i1 := i + 1 in
              let next_escaped :=
                match rest2 with
                | [] => false
                | c2 :: _ => in_chars c2 CHARACTER_GROUP_ESCAPED
                end in
              if (c1 =? 92) && (i1 <? len s - 1) && next_escaped then
                match rest2 with
                | [] => ([], None)
                | end_char :: rest3 =>
                    let i2 := i1 + 1 in
                    if char >? end_char then
                      ([], Some (XMLSchemaRegexError
                                   (BadCharacterRange char end_char (i2 - 2) s)))
                    else if expand_ranges then
                      yield_all (map Single (py_range (char + 1) (end_char + 1)))
                        (parse_loop s expand_ranges (i2 + 1) rest3 escaped char)
                    else
                      yield (Range char end_char)
                        (parse_loop s expand_ranges (i2 + 1) rest3 escaped char)
                end
              else
                let end_char := c1 in
                if char >? end_char then
                  ([], Some (XMLSchemaRegexError
                               (BadCharacterRange char end_char (i1 - 2) s)))
                else if expand_ranges then
                  yield_all (map Single (py_range (char + 1) (end_char + 1)))
                    (parse_loop s expand_ranges (i1 + 1) rest2 escaped char)
                else
                  yield (Range char end_char)
                    (parse_loop s expand_ranges (i1 + 1) rest2 escaped char)
          end
      else if in_chars c metacharacters then
        yield (Single c) (parse_loop s expand_ranges (i + 1) rest1 false c)
      else if in_chars c brackets then
        if negb escaped && (len s >? 1) then
          ([], Some (XMLSchemaRegexError (BadCharacter c i)))
        else
          yield (Single c) (parse_loop s expand_ranges (i + 1) rest1 false c)
      else if c =? 92 then
        if escaped then
          yield (Single 92) (parse_loop s expand_ranges (i + 1) rest1 false 92)
        else parse_loop s expand_ranges (i + 1) rest1 true char
      else if escaped then
        yield (Single 92)
          (yield (Single c) (parse_loop s expand_ranges (i + 1) rest1 false c))
      else
        yield (Single c) (parse_loop s expand_ranges (i + 1) rest1 false c)
  end.

(** The first position ([i == 0]) and then the loop. *)
Definition parse_character_group (s : list Z) (expand_ranges : bool)
    : generated atom :=
  match s with
  | [] => ([], None)
  | char :: rest =>
      let last_index := len s - 1 in
      if char =? 92 then parse_loop s expand_ranges 1 rest true char
      else if in_chars char brackets && (len s >? 1) then
        ([], Some (XMLSchemaRegexError (BadCharacter char 0)))
      else if expand_ranges then
        yield (Single char) (parse_loop s expand_ranges 1 rest false char)
      else if (last_index <=? 1)
              || negb (match rest with c1 :: _ => c1 =? 45 | [] => false end)
      then yield (Single char) (parse_loop s expand_ranges 1 rest false char)
      else parse_loop s expand_ranges 1 rest false char
  end.

(** ** iter_code_points *)

(** [sorted(items, key=key, reverse=reverse)]: the sort is stable, also when
    reversed, so an item is put before the first item that is not strictly
    before it. *)
Fixpoint sorted_insert (key : atom -> Z) (reverse : bool) (x : atom)
    (l : list atom) : list atom :=
  match l with
  | [] => [x]
  | y :: l' =>
      if (if reverse then key x <? key y else key y <? key x)
      then y :: sorted_insert key reverse x l'
      else x :: l
  end.

Definition sorted (key : atom -> Z) (reverse : bool) (items : list atom)
    : list atom :=
  fold_right (sorted_insert key reverse) [] items.

(** The item yielded for the pending couple. *)
Definition pending_item (prev_start_cp prev_end_cp : Z) : atom :=
  if prev_end_cp >? prev_start_cp then Range prev_start_cp prev_end_cp
  else Single prev_start_cp.

(** The loop of [iter_code_points]; [prev] is [None] as long as
    [prev_start_cp] and [prev_end_cp] are, which is when the comparison
    raises the [TypeError] that the source catches. *)
Fixpoint iter_loop (reverse : bool) (prev : option (Z * Z))
    (items : list atom) : list atom :=
  match items with
  | [] =>
      match prev with
      | None => []
      | Some (prev_start_cp, prev_end_cp) =>
          [pending_item prev_start_cp prev_end_cp]
      end
  | cp :: rest =>
      let start_cp := lo cp in
      let end_cp := hi cp in
      match prev with
      | None => iter_loop reverse (Some (start_cp, end_cp)) rest
      | Some (prev_start_cp, prev_end_cp) =>
          if reverse then
            if prev_start_cp - 1 <=? end_cp then
              iter_loop reverse
                (Some (Z.min prev_start_cp start_cp, prev_end_cp)) rest
            else
              pending_item prev_start_cp prev_end_cp
                :: iter_loop reverse (Some (start_cp, end_cp)) rest
          else if prev_end_cp + 1 >=? start_cp then
            iter_loop reverse
              (Some (prev_start_cp, Z.max prev_end_cp end_cp)) rest
          else
            pending_item prev_start_cp prev_end_cp
              :: iter_loop reverse (Some (start_cp, end_cp)) rest
      end
  end.

Definition iter_code_points (items : list atom) (reverse : bool) : list atom :=
  iter_loop reverse None
    (if reverse then sorted hi true items else sorted lo false items).

(** ** The rendered text, atom by atom *)

(** The backslash that the parser holds back while [escaped] is set. *)
Definition pending (escaped : bool) : list atom :=
  if escaped then [Single 92] else [].

(** What [code_point_repr] writes after the start character. *)
Definition tail_repr (a : atom) : list Z :=
  match a with
  | Single _ => []
  | Range s e => if e >? s + 1 then [45] ++ escaped_char e else escaped_char e
  end.

(** No couple starts at the backslash, the one character that is a range
    delimiter for the parser and that [code_point_repr] does not escape. *)
Definition no_backslash_start (a : atom) : Prop :=
  match a with Single _ => True | Range s _ => s <> 92 end.

(** The tokens of the parser for [tail_repr], and whether it ends with a
    backslash held back. *)
Definition tail_tokens (a : atom) : list atom :=
  match a with
  | Single _ => []
  | Range s e =>
      if e >? s + 1 then [Range s e] else if e =? 92 then [] else [Single e]
  end.

Definition tail_escaped (a : atom) : bool :=
  match a with
  | Single _ => false
  | Range s e => if e >? s + 1 then false else e =? 92
  end.

(** ** Iteration and membership *)

(** [range(a, b, -1)] *)
Definition py_range_down (a b : Z) : list Z :=
  map (fun k => a - Z.of_nat k) (seq 0 (Z.to_nat (a - b))).

(** [__iter__] *)
Definition __iter__ (code_points : list atom) : list Z :=
  flat_map
    (fun item =>
       match item with
       | Single cp => [cp]
       | Range item0 item1 => py_range item0 (item1 + 1)
       end)
    code_points.

(** [__reversed__] *)
Definition __reversed__ (code_points : list atom) : list Z :=
  flat_map
    (fun item =>
       match item with
       | Single cp => [cp]
       | Range item0 item1 => py_range_down item1 (item0 - 1)
       end)
    (rev code_points).

(** [__contains__], for an integer [code_point]. *)
Fixpoint __contains__ (code_points : list atom) (code_point : Z) : bool :=
  match code_points with
  | [] => false
  | cp :: rest =>
      match cp with
      | Range cp0 cp1 =>
          if cp0 >? code_point then false
          else if cp1 <? code_point then __contains__ rest code_point
          else true
      | Single c =>
          if c >? code_point then false
          else if c =? code_point then true
          else __contains__ rest code_point
      end
  end.

(** The integers of a list increase strictly. *)
Fixpoint increasing (l : list Z) : Prop :=
  match l with
  | [] => True
  | x :: r => match r with [] => True | y :: _ => x < y end /\ increasing r
  end.

(** ** Size, emptying and comparison *)

(** [__len__]: the count of the code points that [__iter__] yields. *)
Definition __len__ (code_points : list atom) : Z :=
  fold_left (fun k _ => k + 1) (__iter__ code_points) 0.

(** [clear]: [del self._code_points[:]] *)
Definition clear (code_points : list atom) : list atom := [].

(** [==] of two Python lists of integers and couples. *)
Fixpoint list_eq (l1 l2 : list atom) : bool :=
  match l1, l2 with
  | [], [] => true
  | a :: r1, b :: r2 => atom_eqb a b && list_eq r1 r2
  | _, _ => false
  end.

(** [__eq__] for another [UnicodeSubset], whose [_code_points] is
    [other]. *)
Definition __eq__ (self other : list atom) : bool := list_eq self other.

(** ** Plain characters *)

(** A character that is no hyphen, no backslash and no square bracket. *)
Definition plain_char (c : Z) : Prop :=
  c <> 45 /\ c <> 92 /\ in_chars c brackets = false.

(** ** Expanded and unexpanded tokens *)

Definition is_single (a : atom) : Prop :=
  match a with Single _ => True | Range _ _ => False end.

(** The tokens [expanded] of the parser with [expand_ranges] and the tokens
    [couples] without it, from the same state: the same exception, only
    integers when expanded, and the same code points but for the start
    character [char] of a range, which only the couple repeats. *)
Definition same_tokens (expanded couples : generated atom)
    (escaped : bool) (char : Z) : Prop :=
  snd expanded = snd couples /\
  Forall is_single (fst expanded) /\
  (forall x, covers (fst expanded) x -> covers (fst couples) x) /\
  (forall x, covers (fst couples) x ->
             covers (fst expanded) x \/ (escaped = false /\ x = char)).

(** ** Predicates on lists of atoms *)

(** [value] is disjoint from [a] and not adjacent to it. *)
Definition apart (value a : atom) : Prop :=
  hi value + 1 < lo a \/ hi a + 1 < lo value.

(** The starts of consecutive atoms increase. *)
Fixpoint increasing_starts (l : list atom) : Prop :=
  match l with
  | [] => True
  | a :: r =>
      match r with [] => True | b :: _ => lo a < lo b end /\ increasing_starts r
  end.

(** Consecutive atoms in descending order, with a gap between them. *)
Fixpoint descending (l : list atom) : Prop :=
  match l with
  | [] => True
  | a :: r =>
      match r with [] => True | b :: _ => hi b + 1 < lo a end /\ descending r
  end.

(** The order that [sorted] leaves: every item is before the items that
    follow it, for [key] and the direction of the sort. *)
Fixpoint key_sorted (key : atom -> Z) (reverse : bool) (l : list atom) : Prop :=
  match l with
  | [] => True
  | x :: r =>
      Forall (fun y => if reverse then key y <= key x else key x <= key y) r
      /\ key_sorted key reverse r
  end.

(** ** UnicodeSubset: add and discard *)

Section Subsets.

(** [sys.maxunicode] of the interpreter. *)
Variable maxunicode : Z.

Definition valid_value (value : atom) : Prop :=
  match value with
  | Single v => 0 <= v <= maxunicode
  | Range s e => 0 <= s /\ s <= e /\ e <= maxunicode
  end.

(** The argument check at the head of [add] and of [discard], for an
    integer or a tuple.  The message of an invalid couple is built by
    ["not a Unicode code point range: %r" % value] before the exception is:
    with a tuple on its right the [%] operator takes the two elements as
    its arguments, finds one [%r] for them and raises [TypeError], so that
    [XMLSchemaValueError] is never built. *)
Definition check_value (value : atom) : option exn :=
  match value with
  | Single v =>
      if negb ((0 <=? v) && (v <=? maxunicode))
      then Some (XMLSchemaValueError (NotCodePoint value))
      else None
  | Range start_value end_value =>
      if negb ((0 <=? start_value) && (start_value <=? end_value)
               && (end_value <=? maxunicode))
      then Some (TypeError NotAllArgumentsConverted)
      else None
  end.

(** The same check for a couple given as the list
    [[start_value, end_value]]: the list is the one argument of [%r] and
    the message is built. *)
Definition check_list_value (start_value end_value : Z) : option exn :=
  if negb ((0 <=? start_value) && (start_value <=? end_value)
           && (end_value <=? maxunicode))
  then Some (XMLSchemaValueError
               (NotCodePointRange (Range start_value end_value)))
  else None.

(** The [for pos, cp in enumerate(code_points)] loop of [add].  Every branch
    but [continue] ends the loop, so the atoms before [pos] are kept and
    [code_points[pos + 1]] is the head of the remaining list; the empty list
    is the [else] clause of the loop. *)
Fixpoint add_loop (start_value end_value : Z) (value : atom)
    (code_points : list atom) : list atom :=
  match code_points with
  | [] => [value]
  | cp :: rest =>
      let start_cp := lo cp in
      let end_cp := hi cp in
      let higher_limit :=
        match rest with
        | [] => maxunicode + 1
        | next :: _ => lo next
        end in
      if start_value <? start_cp then
        if (start_value =? start_cp - 1) || (end_value >=? start_cp - 1) then
          Range start_value (Z.max (Z.min end_value (higher_limit - 1)) end_cp)
            :: rest
        else value :: cp :: rest
      else if start_value >? end_cp + 1 then
        cp :: add_loop start_value end_value value rest
      else if end_cp >? start_cp then
        Range start_cp (Z.max (Z.min end_value (higher_limit - 1)) end_cp)
          :: rest
      else if end_value >? start_cp then
        Range start_cp (Z.min end_value (higher_limit - 1)) :: rest
      else cp :: rest
  end.

Definition add (code_points : list atom) (value : atom)
    : list atom * option exn :=
  match check_value value with
  | Some e => (code_points, Some e)
  | None => (add_loop (lo value) (hi value) value code_points, None)
  end.

(** The [for pos in reversed(range(len(code_points)))] loop of [discard].
    The positions are visited from the last one down; a deletion at [pos] or
    an insertion at [pos + 1] leaves the lower positions as they were, so
    the atom read at [pos] is the original one.  The boolean tells whether
    the loop was left by [break]. *)
Fixpoint discard_loop (start_value end_value : Z) (code_points : list atom)
    : list atom * bool :=
  match code_points with
  | [] => ([], false)
  | cp :: rest =>
      let (rest', stopped) := discard_loop start_value end_value rest in
      if stopped then (cp :: rest', true)
      else
        let start_cp := lo cp in
        let end_cp := hi cp in
        if start_value >? end_cp then (cp :: rest', true)
        else if end_value >=? end_cp then
          if start_value <=? start_cp then (rest', false)
          else if start_value - start_cp >? 1 then
            (Range start_cp (start_value - 1) :: rest', false)
          else (Single start_cp :: rest', false)
        else if end_value >=? start_cp then
          if start_value <=? start_cp then
            if end_cp - end_value >? 1 then
              (Range (end_value + 1) end_cp :: rest', false)
            else (Single end_cp :: rest', false)
          else
            let upper :=
              if end_cp - end_value >? 1 then Range (end_value + 1) end_cp
              else Single end_cp in
            let lower :=
              if start_value - start_cp >? 1
              then Range start_cp (start_value - 1)
              else Single start_cp in
            (lower :: upper :: rest', false)
        else (cp :: rest', false)
  end.

Definition discard (code_points : list atom) (value : atom)
    : list atom * option exn :=
  match check_value value with
  | Some e => (code_points, Some e)
  | None => (fst (discard_loop (lo value) (hi value) code_points), None)
  end.

(** [add] and [discard] with the list [[start_value, end_value]] as the
    value: after the check the source reads the two elements, and stores
    [tuple(value)] where it stores the value. *)
Definition add_list (code_points : list atom) (start_value end_value : Z)
    : list atom * option exn :=
  match check_list_value start_value end_value with
  | Some e => (code_points, Some e)
  | None =>
      (add_loop start_value end_value (Range start_value end_value)
         code_points, None)
  end.

Definition discard_list (code_points : list atom) (start_value end_value : Z)
    : list atom * option exn :=
  match check_list_value start_value end_value with
  | Some e => (code_points, Some e)
  | None => (fst (discard_loop start_value end_value code_points), None)
  end.

(** A sequence of calls on one subset; it stops at the first exception. *)
Inductive call : Type :=
| CallAdd (value : atom)
| CallDiscard (value : atom).

Definition run_call (code_points : list atom) (c : call)
    : list atom * option exn :=
  match c with
  | CallAdd v => add code_points v
  | CallDiscard v => discard code_points v
  end.

Fixpoint run_calls (code_points : list atom) (cs : list call)
    : list atom * option exn :=
  match cs with
  | [] => (code_points, None)
  | c :: cs' =>
      match run_call code_points c with
      | (code_points', None) => run_calls code_points' cs'
      | (code_points', Some e) => (code_points', Some e)
      end
  end.

(** ** UnicodeSubset: complement, construction, rendering, subtraction *)

(** The statements after the loop of [complement]. *)
Definition complement_end (last : Z) : generated atom :=
  if last =? maxunicode then ([Single maxunicode], None)
  else if last <? maxunicode then ([Range last maxunicode], None)
  else ([], None).

Fixpoint complement_loop (last : Z) (code_points : list atom)
    : generated atom :=
  match code_points with
  | [] => complement_end last
  | cp :: rest =>
      if last >? maxunicode then complement_end last
      else
        let start_cp := lo cp in
        let end_cp := hi cp in
        let diff := start_cp - last in
        if diff >? 2 then
          yield (Range last (start_cp - 1)) (complement_loop (end_cp + 1) rest)
        else if diff =? 2 then
          yield (Single last)
            (yield (Single (last + 1)) (complement_loop (end_cp + 1) rest))
        else if diff =? 1 then
          yield (Single last) (complement_loop (end_cp + 1) rest)
        else if negb (diff =? 0) then
          ([], Some (XMLSchemaValueError CodePointsUnordered))
        else complement_loop (end_cp + 1) rest
  end.

Definition complement (code_points : list atom) : generated atom :=
  complement_loop 0 code_points.

(** [for cp in items: self.add(cp)] *)
Fixpoint add_each (code_points : list atom) (items : list atom)
    : list atom * option exn :=
  match items with
  | [] => (code_points, None)
  | cp :: rest =>
      match add code_points cp with
      | (code_points', None) => add_each code_points' rest
      | (code_points', Some e) => (code_points', Some e)
      end
  end.

(** [for cp in items: self.discard(cp)] *)
Fixpoint discard_each (code_points : list atom) (items : list atom)
    : list atom * option exn :=
  match items with
  | [] => (code_points, None)
  | cp :: rest =>
      match discard code_points cp with
      | (code_points', None) => discard_each code_points' rest
      | (code_points', Some e) => (code_points', Some e)
      end
  end.

(** What [update] and the constructor are given: a string, or another
    iterable of code points and couples (a list, or a generator such as
    [complement()]). *)
Inductive values : Type :=
| Text (s : list Z)
| Items (g : generated atom).

(** [update] with one argument.  [iter_code_points] sorts its argument
    before it yields anything, so an exception of the iterated generator
    leaves before the first [add]. *)
Definition update (code_points : list atom) (v : values)
    : list atom * option exn :=
  match
    match v with
    | Text s => parse_character_group s false
    | Items g => g
    end
  with
  | (_, Some e) => (code_points, Some e)
  | (items, None) => add_each code_points (iter_code_points items true)
  end.

(** [UnicodeSubset(v)] for an argument that is not a [UnicodeSubset]; the
    value is the [_code_points] of the new object. *)
Definition UnicodeSubset (v : values) : result (list atom) :=
  match update [] v with
  | (code_points, None) => Return code_points
  | (_, Some e) => Raise e
  end.

(** [copy] is [UnicodeSubset(self._code_points)]. *)
Definition copy (code_points : list atom) : result (list atom) :=
  UnicodeSubset (Items (code_points, None)).

(** [__unicode__] *)
Definition unicode (code_points : list atom) : list Z :=
  concat (map code_point_repr code_points).

(** The other operand of a binary operator: a [UnicodeSubset], another
    iterable of code points and couples whose type defines no operator of
    its own (a list, a tuple), or an object that is not iterable. *)
Inductive operand : Type :=
| Subset (code_points : list atom)
| Iterable (items : list atom)
| NotIterable.

Inductive returned : Type :=
| Object (code_points : list atom)
| NotImplemented.

(** [__isub__], on the object whose [_code_points] is [self]. *)
Definition isub (self : list atom) (other : operand) : result returned :=
  match other with
  | NotIterable => Return NotImplemented
  | Subset other_code_points =>
      match discard_each self (rev other_code_points) with
      | (self', None) => Return (Object self')
      | (_, Some e) => Raise e
      end
  | Iterable items =>
      match discard_each self (iter_code_points items true) with
      | (self', None) => Return (Object self')
      | (_, Some e) => Raise e
      end
  end.

(** [__sub__] *)
Definition sub (self : list atom) (other : operand) : result returned :=
  match copy self with
  | Return obj => isub obj other
  | Raise e => Raise e
  end.

(** [__rsub__ = __sub__] *)
Definition rsub : list atom -> operand -> result returned := sub.

(** The evaluation of [left - right] when [left] is an iterable whose type
    defines no [__sub__] and [right] is a [UnicodeSubset]: Python calls the
    reflected method of the right operand with the left one. *)
Definition reflected_minus (left : list atom) (right : list atom)
    : result returned :=
  rsub right (Iterable left).

(** ** UnicodeSubset: union, intersection and difference in place *)

(** The value given to a call is valid. *)
Definition call_valid (c : call) : Prop :=
  match c with
  | CallAdd v => valid_value v
  | CallDiscard v => valid_value v
  end.

(** [difference_update] with one argument: the mirror of [update]. *)
Definition difference_update (code_points : list atom) (v : values)
    : list atom * option exn :=
  match
    match v with
    | Text s => parse_character_group s false
    | Items g => g
    end
  with
  | (_, Some e) => (code_points, Some e)
  | (items, None) =>
      discard_each code_points (iter_code_points items true)
  end.

(** [__ior__], on the object whose [_code_points] is [self]. *)
Definition __ior__ (self : list atom) (other : operand) : result returned :=
  match other with
  | NotIterable => Return NotImplemented
  | Subset other_code_points =>
      match add_each self (rev other_code_points) with
      | (self', None) => Return (Object self')
      | (_, Some e) => Raise e
      end
  | Iterable items =>
      match add_each self (iter_code_points items true) with
      | (self', None) => Return (Object self')
      | (_, Some e) => Raise e
      end
  end.

(** An operand that can be iterated. *)
Inductive iterable : Type :=
| IterableSubset (code_points : list atom)
| IterableItems (items : list atom).

Definition operand_of (other : iterable) : operand :=
  match other with
  | IterableSubset code_points => Subset code_points
  | IterableItems items => Iterable items
  end.

(** [__iand__] for an operand that can be iterated:
    [for value in (self - other): self.discard(value)].  The difference is
    an object of its own, iterated by [__iter__] while [self] is changed.
    [__sub__] returns [NotImplemented] only for an operand that is not
    iterable, so the last case is not reached. *)
Definition __iand__ (self : list atom) (other : iterable) : result returned :=
  match sub self (operand_of other) with
  | Raise e => Raise e
  | Return (Object difference) =>
      match discard_each self (map Single (__iter__ difference)) with
      | (self', None) => Return (Object self')
      | (_, Some e) => Raise e
      end
  | Return NotImplemented => Return NotImplemented
  end.

(** ** UnicodeSubset: symmetric difference in place *)

(** The right operand of [^=]: the object itself ([other is self]) or
    another object. *)
Inductive ixor_operand : Type :=
| SameObject
| Another (other : operand).

(** [for value in other: if value in self: self.discard(value) else:
    self.add(value)], for the integers that iterating [other] yields.
    [other] is an object of its own, so that the changes of [self] do not
    reach the iteration. *)
Fixpoint toggle_each (self : list atom) (yielded : list Z)
    : list atom * option exn :=
  match yielded with
  | [] => (self, None)
  | value :: rest =>
      match
        if __contains__ self value then discard self (Single value)
        else add self (Single value)
      with
      | (self', None) => toggle_each self' rest
      | (self', Some e) => (self', Some e)
      end
  end.

(** [__ixor__], on the object whose [_code_points] is [self]. *)
Definition __ixor__ (self : list atom) (other : ixor_operand)
    : result returned :=
  match other with
  | SameObject => Return (Object (clear self))
  | Another NotIterable => Return NotImplemented
  | Another (Subset other_code_points) =>
      match toggle_each self (__iter__ other_code_points) with
      | (self', None) => Return (Object self')
      | (_, Some e) => Raise e
      end
  | Another (Iterable items) =>
      match UnicodeSubset (Items (items, None)) with
      | Raise e => Raise e
      | Return other_code_points =>
          match toggle_each self (__iter__ other_code_points) with
          | (self', None) => Return (Object self')
          | (_, Some e) => Raise e
          end
      end
  end.

(** ** Unicode categories *)

Definition table : Type := list (string * list atom).

Fixpoint lookup (k : string) (t : table) : option (list atom) :=
  match t with
  | [] => None
  | (k', v) :: t' => if String.eqb k k' then Some v else lookup k t'
  end.

Fixpoint store (k : string) (v : list atom) (t : table) : table :=
  match t with
  | [] => [(k, v)]
  | (k', v') :: t' =>
      if String.eqb k k' then (k, v) :: t' else (k', v') :: store k v t'
  end.

Definition has_key (k : string) (t : table) : Prop := lookup k t <> None.

(** The list under a key, empty when the key is missing. *)
Definition table_get (k : string) (t : table) : list atom :=
  match lookup k t with Some v => v | None => [] end.

(** Every list of the table holds valid values. *)
Definition table_valid (t : table) : Prop :=
  Forall (fun kv => Forall valid_value (snd kv)) t.

(** A [dict], or a [defaultdict(list)] when [default_list] is set. *)
Record dict : Type := { default_list : bool; entries : table }.

(** [d[k]]: a missing key raises [KeyError] in a [dict] and is entered with
    an empty list in a [defaultdict(list)]. *)
Definition getitem (d : dict) (k : string) : dict * result (list atom) :=
  match lookup k (entries d) with
  | Some v => (d, Return v)
  | None =>
      if default_list d
      then ({| default_list := true; entries := store k [] (entries d) |},
            Return [])
      else (d, Raise (KeyError k))
  end.

Definition setitem (d : dict) (k : string) (v : list atom) : dict :=
  {| default_list := default_list d; entries := store k v (entries d) |}.

(** [categories[k].append(a)] on the [defaultdict(list)]. *)
Definition append_item (t : table) (k : string) (a : atom) : table :=
  match lookup k t with
  | Some v => store k (v ++ [a]) t
  | None => store k [a] t
  end.

(** One less than the lower bound of the atom that follows, [maxunicode]
    when none does: the bound of a merge in [add]. *)
Definition clamp_bound (after : list atom) : Z :=
  match after with
  | [] => maxunicode
  | next :: _ => lo next - 1
  end.

Section Categories.

(** [unicodedata.category(unicode_chr(cp))] *)
Variable category : Z -> string.

Definition append_code_points (categories : table) (last_category : string)
    (start_cp cp : Z) : table :=
  let diff := cp - start_cp in
  if diff =? 1 then append_item categories last_category (Single start_cp)
  else if diff =? 2 then
    append_item
      (append_item categories last_category (Single start_cp))
      last_category (Single (start_cp + 1))
  else append_item categories last_category (Range start_cp (cp - 1)).

(** The loop of [get_unicodedata_categories] over the code points still to
    visit; the state is [categories], [last_category] and [start_cp]. *)
Fixpoint scan_loop (cps : list Z) (categories : table)
    (last_category : string) (start_cp : Z) : table * string * Z :=
  match cps with
  | [] => (categories, last_category, start_cp)
  | cp :: rest =>
      if negb (String.eqb (category cp) last_category) then
        scan_loop rest
          (append_code_points categories last_category start_cp cp)
          (category cp) cp
      else scan_loop rest categories last_category start_cp
  end.

Definition get_unicodedata_categories : table :=
  let cps := py_range 0 (maxunicode + 1) in
  match scan_loop cps [] "Cc" 0 with
  | (categories, last_category, start_cp) =>
      let cp := last cps 0 + 1 in
      append_code_points categories last_category start_cp cp
  end.

(** What [open] and [json.load] do in [build_unicode_categories]: one of the
    three exceptions of the [except] clause, or a decoded mapping from names
    to lists of code points and two element lists. *)
Inductive json_load : Type :=
| LoadIOError
| LoadSystemError
| LoadValueError
| Loaded (categories : table).

(** [categories[k1] + categories[k2] + ...], the keys read from the left. *)
Fixpoint concatenation (d : dict) (keys : list string) (acc : list atom)
    : dict * result (list atom) :=
  match keys with
  | [] => (d, Return acc)
  | k :: keys' =>
      match getitem d k with
      | (d', Return v) => concatenation d' keys' (acc ++ v)
      | (d', Raise e) => (d', Raise e)
      end
  end.

Definition general_categories : list (string * list string) :=
  [ ("C", ["Cc"; "Cf"; "Cs"; "Co"; "Cn"]);
    ("L", ["Lu"; "Ll"; "Lt"; "Lm"; "Lo"]);
    ("M", ["Mn"; "Mc"; "Me"]);
    ("N", ["Nd"; "Nl"; "No"]);
    ("P", ["Pc"; "Pd"; "Ps"; "Pe"; "Pi"; "Pf"; "Po"]);
    ("S", ["Sm"; "Sc"; "Sk"; "So"]);
    ("Z", ["Zs"; "Zl"; "Zp"]) ]%string.

(** The names of the two letter categories and of the general ones. *)
Definition category_names : list string :=
  flat_map (fun g => fst g :: snd g) general_categories.

(** The seven assignments [categories[name] = ...]. *)
Fixpoint add_general_categories (d : dict)
    (general : list (string * list string)) : result dict :=
  match general with
  | [] => Return d
  | (name, keys) :: general' =>
      match concatenation d keys [] with
      | (d', Return v) => add_general_categories (setitem d' name v) general'
      | (_, Raise e) => Raise e
      end
  end.

(** [{k: UnicodeSubset(v) for k, v in categories.items()}] *)
Fixpoint build_subsets (t : table) : result table :=
  match t with
  | [] => Return []
  | (k, v) :: t' =>
      match UnicodeSubset (Items (v, None)) with
      | Raise e => Raise e
      | Return code_points =>
          match build_subsets t' with
          | Raise e => Raise e
          | Return t'' => Return ((k, code_points) :: t'')
          end
      end
  end.

Definition build_unicode_categories (file : json_load) : result table :=
  let categories :=
    if maxunicode <? UCS4_MAXUNICODE then
      {| default_list := true; entries := get_unicodedata_categories |}
    else
      match file with
      | Loaded t => {| default_list := false; entries := t |}
      | LoadIOError | LoadSystemError | LoadValueError =>
          {| default_list := true; entries := get_unicodedata_categories |}
      end in
  match add_general_categories categories general_categories with
  | Raise e => Raise e
  | Return d => build_subsets (entries d)
  end.

End Categories.

(** ** The coalescing rule of complement, as the specification words it *)

(** What is emitted for the gap between [last] and the start of the next
    atom. *)
Definition gap_items (last start_cp : Z) : list atom :=
  let diff := start_cp - last in
  if diff >? 2 then [Range last (start_cp - 1)]
  else if diff =? 2 then [Single last; Single (last + 1)]
  else if diff =? 1 then [Single last]
  else [].

(** The open end after the last atom. *)
Definition open_end (last : Z) : list atom :=
  if last =? maxunicode then [Single maxunicode]
  else if last <? maxunicode then [Range last maxunicode]
  else [].

(** The walk over every atom of the list: the gap before each atom, a value
    error for a negative [diff], the open end after the last atom. *)
Fixpoint walk_as_stated (last : Z) (code_points : list atom)
    : generated atom :=
  match code_points with
  | [] => (open_end last, None)
  | cp :: rest =>
      if lo cp - last <? 0 then
        ([], Some (XMLSchemaValueError CodePointsUnordered))
      else yield_all (gap_items last (lo cp)) (walk_as_stated (hi cp + 1) rest)
  end.

(** The atoms that the loop of [complement] reaches with
    [last <= maxunicode]. *)
Fixpoint reached (last : Z) (code_points : list atom) : list atom :=
  match code_points with
  | [] => []
  | cp :: rest =>
      if last >? maxunicode then [] else cp :: reached (hi cp + 1) rest
  end.

(** [last] after the atoms [before], from [last]. *)
Definition last_after (last : Z) (before : list atom) : Z :=
  fold_left (fun _ cp => hi cp + 1) before last.

(** The involution as the specification states it: the items yielded by the
    complement of the subset built from the complement are the atoms of the
    subset. *)
Definition involution_as_stated (code_points : list atom) : Prop :=
  exists once,
    UnicodeSubset (Items (complement code_points)) = Return once /\
    complement once = (code_points, None).

End Subsets.

(** * Properties *)

(** ** Proof tactics *)

(** Case analysis on the integer comparisons of the goal. *)
Ltac zcases :=
  repeat match goal with
  | |- context [Z.gtb ?a ?b] => rewrite (Z.gtb_ltb a b)
  | |- context [Z.geb ?a ?b] => rewrite (Z.geb_leb a b)
  | |- context [Z.ltb ?a ?b] => destruct (Z.ltb_spec a b)
  | |- context [Z.leb ?a ?b] => destruct (Z.leb_spec a b)
  | |- context [Z.eqb ?a ?b] => destruct (Z.eqb_spec a b)
  end.

(** Splits the conjunctions written in the goal, and nothing else. *)
Ltac splits := repeat match goal with |- _ /\ _ => split end.

(** ** Ordered lists *)

Lemma ordered_tail a l : ordered (a :: l) -> ordered l.
Proof. simpl. tauto. Qed.

Lemma ordered_ascending l : ordered l -> ascending l.
Proof.
  induction l as [|a [|b r] IH]; simpl; auto.
  intros [H1 H2]. split; [lia | apply IH; exact H2].
Qed.

(** In an ordered list every atom after the first starts more than one code
    point after the end of the first. *)
Lemma ordered_above a l :
  Forall nonempty l -> ordered (a :: l) ->
  Forall (fun b => hi a + 1 < lo b) l.
Proof.
  revert a. induction l as [|b r IH]; intros a Hne Hord; constructor.
  - simpl in Hord. tauto.
  - inversion Hne; subst. destruct Hord as [Hab Hr].
    assert (Hb : Forall (fun c => hi b + 1 < lo c) r) by (apply IH; assumption).
    eapply Forall_impl; [|exact Hb]. simpl. unfold nonempty in *. intros c Hc. lia.
Qed.

Lemma ordered_cons a r :
  ordered r -> Forall (fun b => hi a + 1 < lo b) r -> ordered (a :: r).
Proof.
  intros Ho Ha. simpl. split; [|exact Ho].
  destruct r as [|b r]; [exact I|]. inversion Ha; subst. assumption.
Qed.

(** ** Covered code points *)

Lemma covers_nil x : ~ covers [] x.
Proof. intros (a & [] & _). Qed.

Lemma covers_cons a l x : covers (a :: l) x <-> inside a x \/ covers l x.
Proof.
  unfold covers. split.
  - intros (b & [Hb | Hb] & Hx); [subst; auto | right; eauto].
  - intros [Hx | (b & Hb & Hx)]; [exists a | exists b]; simpl; auto.
Qed.

Lemma covers_app l1 l2 x : covers (l1 ++ l2) x <-> covers l1 x \/ covers l2 x.
Proof.
  induction l1 as [|a l1 IH]; simpl.
  - split; [auto | intros [H | H]; [destruct (covers_nil x H) | exact H]].
  - rewrite !covers_cons, IH. tauto.
Qed.

Lemma covers_same_items l1 l2 x :
  (forall a, In a l1 <-> In a l2) -> covers l1 x <-> covers l2 x.
Proof.
  intros H. unfold covers.
  split; intros (a & Ha & Hx); exists a; split; auto; apply H; exact Ha.
Qed.

Lemma covers_rev l x : covers (rev l) x <-> covers l x.
Proof. apply covers_same_items. intros a. symmetry. apply in_rev. Qed.

Lemma coversb_spec l x : coversb l x = true <-> covers l x.
Proof.
  unfold coversb, covers, insideb, inside. rewrite existsb_exists.
  split; intros (a & Ha & Hx); exists a; split; auto.
  - apply andb_true_iff in Hx. rewrite !Z.leb_le in Hx. exact Hx.
  - apply andb_true_iff. rewrite !Z.leb_le. exact Hx.
Qed.

Lemma covers_dec l x : covers l x \/ ~ covers l x.
Proof.
  destruct (coversb l x) eqn:E.
  - left. apply coversb_spec. exact E.
  - right. intros H. apply coversb_spec in H. congruence.
Qed.

(** ** The stable sort *)

Lemma sorted_insert_In key reverse x l a :
  In a (sorted_insert key reverse x l) <-> a = x \/ In a l.
Proof.
  induction l as [|y l IH]; simpl.
  - intuition congruence.
  - destruct (if reverse then key x <? key y else key y <? key x); simpl.
    + rewrite IH. intuition congruence.
    + intuition congruence.
Qed.

Lemma sorted_In key reverse l a : In a (sorted key reverse l) <-> In a l.
Proof.
  induction l as [|x l IH]; simpl; [tauto|].
  rewrite sorted_insert_In, IH. intuition congruence.
Qed.

Lemma sorted_insert_key_sorted key reverse x l :
  key_sorted key reverse l -> key_sorted key reverse (sorted_insert key reverse x l).
Proof.
  induction l as [|y l IH]; simpl; intros Hs.
  - auto.
  - destruct Hs as [Hy Hl].
    destruct reverse.
    + destruct (Z.ltb_spec (key x) (key y)); simpl.
      * split; [|apply IH; exact Hl].
        rewrite Forall_forall in *. intros z Hz.
        apply sorted_insert_In in Hz. destruct Hz as [-> | Hz]; [lia | auto].
      * split; [|split; assumption].
        constructor; [lia|]. eapply Forall_impl; [|exact Hy]. simpl. intros; lia.
    + destruct (Z.ltb_spec (key y) (key x)); simpl.
      * split; [|apply IH; exact Hl].
        rewrite Forall_forall in *. intros z Hz.
        apply sorted_insert_In in Hz. destruct Hz as [-> | Hz]; [lia | auto].
      * split; [|split; assumption].
        constructor; [lia|]. eapply Forall_impl; [|exact Hy]. simpl. intros; lia.
Qed.

Lemma sorted_key_sorted key reverse l : key_sorted key reverse (sorted key reverse l).
Proof.
  induction l as [|x l IH]; simpl; [exact I|].
  apply sorted_insert_key_sorted. exact IH.
Qed.

Lemma sorted_Forall (P : atom -> Prop) key reverse l :
  Forall P l -> Forall P (sorted key reverse l).
Proof.
  rewrite !Forall_forall. intros H a Ha. apply H. apply sorted_In in Ha. exact Ha.
Qed.

(** ** The coalescing loop of iter_code_points *)

Lemma pending_item_lo ps pe : lo (pending_item ps pe) = ps.
Proof. unfold pending_item. destruct (pe >? ps); reflexivity. Qed.

Lemma pending_item_hi ps pe : ps <= pe -> hi (pending_item ps pe) = pe.
Proof.
  intros H. unfold pending_item. rewrite Z.gtb_ltb.
  destruct (Z.ltb_spec ps pe); simpl; lia.
Qed.

Lemma pending_item_proper ps pe : proper (pending_item ps pe).
Proof.
  unfold pending_item. rewrite Z.gtb_ltb.
  destruct (Z.ltb_spec ps pe); simpl; auto.
Qed.

Lemma pending_item_inside ps pe x :
  ps <= pe -> inside (pending_item ps pe) x <-> ps <= x <= pe.
Proof.
  intros H. unfold inside. rewrite pending_item_lo, pending_item_hi by assumption.
  tauto.
Qed.

Lemma iter_loop_forward : forall items ps pe,
  ps <= pe -> Forall nonempty items -> key_sorted lo false items ->
  Forall (fun a => ps <= lo a) items ->
  exists first r,
    iter_loop false (Some (ps, pe)) items = first :: r /\
    lo first = ps /\
    ordered (first :: r) /\
    increasing_starts (first :: r) /\
    Forall proper (first :: r) /\
    Forall nonempty (first :: r) /\
    forall x, covers (first :: r) x <-> (ps <= x <= pe \/ covers items x).
Proof.
  induction items as [|cp rest IH]; intros ps pe Hp Hne Hs Hlb.
  - exists (pending_item ps pe), []. simpl. splits; auto.
    + apply pending_item_lo.
    + constructor; [apply pending_item_proper | constructor].
    + constructor; [|constructor]. unfold nonempty.
      rewrite pending_item_lo, pending_item_hi; lia.
    + intros x. rewrite covers_cons, pending_item_inside by assumption.
      pose proof (covers_nil x). tauto.
  - inversion Hne as [|? ? Hcp Hrest]; subst.
    inversion Hlb as [|? ? Hlcp Hlrest]; subst.
    destruct Hs as [Hcprest Hsrest]. unfold nonempty in Hcp.
    simpl iter_loop. rewrite Z.geb_leb.
    destruct (Z.leb_spec (lo cp) (pe + 1)) as [Hm | Hm].
    + destruct (IH ps (Z.max pe (hi cp))) as (first & r & Eq & Hlo & Ho & Hi & Hpr & Hn & Hc);
        auto; try lia.
      exists first, r. splits; auto.
      intros x. rewrite Hc, covers_cons. unfold inside. intuition lia.
    + destruct (IH (lo cp) (hi cp)) as (first & r & Eq & Hlo & Ho & Hi & Hpr & Hn & Hc);
        auto.
      exists (pending_item ps pe), (first :: r). rewrite Eq.
      splits; auto.
      * apply pending_item_lo.
      * split; [|exact Ho]. rewrite pending_item_hi by assumption. lia.
      * split; [|exact Hi]. rewrite pending_item_lo. lia.
      * constructor; [apply pending_item_proper | assumption].
      * constructor; [|assumption]. unfold nonempty.
        rewrite pending_item_lo, pending_item_hi; lia.
      * intros x. rewrite covers_cons, pending_item_inside by assumption.
        rewrite Hc, covers_cons. unfold inside. intuition lia.
Qed.

(** C9. For items with [lo <= hi], [iter_code_points] with [reverse=False]
    yields atoms that cover exactly the code points of the items, whose
    starts increase strictly, with a gap of at least one code point between
    consecutive atoms ([hi A + 1 < lo B]); a single code point is yielded as
    a bare integer and a wider atom as a couple. *)
Theorem iter_code_points_forward : forall items,
  Forall nonempty items ->
  (forall x, covers (iter_code_points items false) x <-> covers items x) /\
  increasing_starts (iter_code_points items false) /\
  ordered (iter_code_points items false) /\
  Forall proper (iter_code_points items false) /\
  Forall nonempty (iter_code_points items false).
Proof.
  intros items Hne. unfold iter_code_points.
  pose proof (sorted_key_sorted lo false items) as Hs.
  pose proof (sorted_Forall nonempty lo false items Hne) as Hn.
  assert (Hc : forall x, covers (sorted lo false items) x <-> covers items x).
  { intros x. apply covers_same_items. intros a. apply sorted_In. }
  destruct (sorted lo false items) as [|cp rest].
  - simpl. splits; auto.
  - inversion Hn as [|? ? Hcp Hrest]; subst. destruct Hs as [Hfirst Hs].
    simpl iter_loop.
    destruct (iter_loop_forward rest (lo cp) (hi cp))
      as (first & r & Eq & Hlo & Ho & Hi & Hpr & Hnn & Hcov); auto.
    rewrite Eq. splits; auto.
    intros x. rewrite Hcov, <- Hc, covers_cons. unfold inside. tauto.
Qed.

Lemma descending_rev_ordered : forall out acc,
  descending out -> ordered acc ->
  match out, acc with o :: _, a :: _ => hi o + 1 < lo a | _, _ => True end ->
  ordered (rev out ++ acc).
Proof.
  induction out as [|o out IH]; intros acc Hd Ho Hacc; simpl; [exact Ho|].
  rewrite <- app_assoc. simpl. apply IH.
  - destruct Hd; assumption.
  - simpl. split; [destruct acc; auto | exact Ho].
  - destruct out; [exact I|]. destruct Hd as [Hd _]. exact Hd.
Qed.

(** ** Ordered lists of proper atoms are determined by what they cover *)

Lemma proper_nonempty a : proper a -> nonempty a.
Proof. destruct a; unfold nonempty; simpl; lia. Qed.

Lemma ascending_covers_above a l x :
  Forall nonempty l -> ascending (a :: l) -> covers l x -> hi a < x.
Proof.
  revert a. induction l as [|b r IH]; intros a Hne Hasc Hx.
  - destruct (covers_nil x Hx).
  - inversion Hne as [|? ? Hb Hr]; subst. unfold nonempty in Hb.
    destruct Hasc as [Hab Hasc].
    apply covers_cons in Hx. destruct Hx as [Hx | Hx].
    + unfold inside in Hx. lia.
    + pose proof (IH b Hr Hasc Hx). lia.
Qed.

Lemma ordered_covers_above a l x :
  Forall nonempty l -> ordered (a :: l) -> covers l x -> hi a + 1 < x.
Proof.
  intros Hne Hord Hx.
  pose proof (ordered_above a l Hne Hord) as Hab.
  destruct Hx as (b & Hb & Hx). rewrite Forall_forall in Hab.
  specialize (Hab b Hb). unfold inside in Hx. lia.
Qed.

Lemma canonical_unique : forall l1 l2,
  ordered l1 -> ordered l2 -> Forall proper l1 -> Forall proper l2 ->
  (forall x, covers l1 x <-> covers l2 x) -> l1 = l2.
Proof.
  induction l1 as [|a l1 IH]; intros [|b l2] Ho1 Ho2 Hp1 Hp2 Hc.
  - reflexivity.
  - inversion Hp2 as [|? ? Hb _]; subst. apply proper_nonempty in Hb.
    exfalso. apply (covers_nil (lo b)). apply Hc. apply covers_cons. left.
    unfold inside, nonempty in *. lia.
  - inversion Hp1 as [|? ? Ha _]; subst. apply proper_nonempty in Ha.
    exfalso. apply (covers_nil (lo a)). apply Hc. apply covers_cons. left.
    unfold inside, nonempty in *. lia.
  - inversion Hp1 as [|? ? Ha Hl1]; subst. inversion Hp2 as [|? ? Hb Hl2]; subst.
    pose proof (proper_nonempty a Ha) as Na. pose proof (proper_nonempty b Hb) as Nb.
    unfold nonempty in Na, Nb.
    assert (A1 : forall x, covers l1 x -> hi a + 1 < x).
    { intros x. apply ordered_covers_above; auto.
      eapply Forall_impl; [|exact Hl1]. exact proper_nonempty. }
    assert (A2 : forall x, covers l2 x -> hi b + 1 < x).
    { intros x. apply ordered_covers_above; auto.
      eapply Forall_impl; [|exact Hl2]. exact proper_nonempty. }
    assert (Hc' : forall x, (inside a x \/ covers l1 x) <-> (inside b x \/ covers l2 x)).
    { intros x. rewrite <- !covers_cons. apply Hc. }
    unfold inside in Hc'.
    assert (L1 : lo b <= lo a).
    { destruct (proj1 (Hc' (lo a))) as [H | H]; [left; lia | lia | apply A2 in H; lia]. }
    assert (L2 : lo a <= lo b).
    { destruct (proj2 (Hc' (lo b))) as [H | H]; [left; lia | lia | apply A1 in H; lia]. }
    assert (U1 : hi b <= hi a).
    { destruct (Z.le_gt_cases (hi b) (hi a)) as [H | H]; [exact H|].
      destruct (proj2 (Hc' (hi a + 1))) as [H' | H']; [left; lia | lia | apply A1 in H'; lia]. }
    assert (U2 : hi a <= hi b).
    { destruct (Z.le_gt_cases (hi a) (hi b)) as [H | H]; [exact H|].
      destruct (proj1 (Hc' (hi b + 1))) as [H' | H']; [left; lia | lia | apply A2 in H'; lia]. }
    assert (Eab : a = b).
    { destruct a, b; simpl in *; try lia; f_equal; lia. }
    subst b. f_equal. apply IH; auto.
    + exact (ordered_tail _ _ Ho1).
    + exact (ordered_tail _ _ Ho2).
    + intros x. split; intros Hx.
      * pose proof (A1 x Hx). destruct (proj1 (Hc' x)) as [H' | H']; auto. lia.
      * pose proof (A2 x Hx). destruct (proj2 (Hc' x)) as [H' | H']; auto. lia.
Qed.

(** ** The parser on a rendered text *)

Lemma len_nonneg l : 0 <= len l.
Proof. unfold len. lia. Qed.

Lemma len_cons x l : len (x :: l) = 1 + len l.
Proof. unfold len. simpl length. lia. Qed.

Lemma len_app a b : len (a ++ b) = len a + len b.
Proof. unfold len. rewrite length_app. lia. Qed.

Lemma in_chars_In c l : in_chars c l = true <-> In c l.
Proof.
  unfold in_chars. rewrite existsb_exists. split.
  - intros (x & Hx & E). apply Z.eqb_eq in E. subst. exact Hx.
  - intros H. exists c. split; [exact H | apply Z.eqb_refl].
Qed.

Lemma escaped_cases c :
  in_chars c CHARACTER_GROUP_ESCAPED = true ->
  c = 45 \/ in_chars c metacharacters = true \/ in_chars c brackets = true.
Proof.
  rewrite !in_chars_In. simpl. intuition.
Qed.

Lemma not_escaped c :
  in_chars c CHARACTER_GROUP_ESCAPED = false ->
  (c =? 45) = false /\ in_chars c metacharacters = false /\ in_chars c brackets = false.
Proof.
  intros H.
  assert (N : ~ In c CHARACTER_GROUP_ESCAPED).
  { intros HI. apply in_chars_In in HI. congruence. }
  splits.
  - apply Z.eqb_neq. intros ->. apply N. simpl. auto.
  - destruct (in_chars c metacharacters) eqn:E; [|reflexivity].
    apply in_chars_In in E. exfalso. apply N. simpl in *. intuition.
  - destruct (in_chars c brackets) eqn:E; [|reflexivity].
    apply in_chars_In in E. exfalso. apply N. simpl in *. intuition.
Qed.

Lemma parse_loop_backslash s i t char :
  parse_loop s false i (92 :: t) false char = parse_loop s false (i + 1) t true char.
Proof. reflexivity. Qed.

Lemma parse_loop_backslash_escaped s i t char :
  parse_loop s false i (92 :: t) true char
  = yield (Single 92) (parse_loop s false (i + 1) t false 92).
Proof. reflexivity. Qed.

Lemma parse_loop_plain s i c t esc char :
  in_chars c CHARACTER_GROUP_ESCAPED = false -> c <> 92 ->
  parse_loop s false i (c :: t) esc char
  = yield_all ((if esc then [Single 92] else []) ++ [Single c])
      (parse_loop s false (i + 1) t false c).
Proof.
  intros H N. destruct (not_escaped c H) as (H1 & H2 & H3).
  simpl parse_loop. rewrite H1, H2, H3.
  destruct (Z.eqb_spec c 92); [contradiction|].
  destruct esc; reflexivity.
Qed.

Lemma parse_loop_special_escaped s i c t char :
  in_chars c CHARACTER_GROUP_ESCAPED = true ->
  parse_loop s false i (c :: t) true char
  = yield (Single c) (parse_loop s false (i + 1) t false c).
Proof.
  intros H. apply in_chars_In in H. simpl in H.
  repeat (destruct H as [<- | H]; [reflexivity|]). destruct H.
Qed.

Lemma parse_loop_metacharacter s i c t esc char :
  in_chars c metacharacters = true ->
  parse_loop s false i (c :: t) esc char
  = yield (Single c) (parse_loop s false (i + 1) t false c).
Proof.
  intros H. apply in_chars_In in H. simpl in H.
  repeat (destruct H as [<- | H]; [reflexivity|]). destruct H.
Qed.

(** The hyphen of a range and its end character. *)
Lemma parse_loop_range s i c h t :
  c <= h ->
  i + 1 + len (escaped_char h) + len t = len s ->
  match t with [] => True | c2 :: _ => in_chars c2 CHARACTER_GROUP_ESCAPED = false end ->
  parse_loop s false i (45 :: escaped_char h ++ t) false c
  = yield (Range c h)
      (parse_loop s false (i + 1 + len (escaped_char h)) t false c).
Proof.
  intros Hch Hlen Ht. pose proof (len_nonneg t) as Hn. unfold escaped_char in *.
  destruct (in_chars h CHARACTER_GROUP_ESCAPED) eqn:E.
  - change (len [92; h]) with 2 in *.
    simpl app. simpl parse_loop. rewrite E.
    destruct (Z.eqb_spec i (len s - 1)); [lia|].
    destruct (Z.ltb_spec (i + 1) (len s - 1)); [|lia].
    simpl. rewrite Z.gtb_ltb. destruct (Z.ltb_spec h c); [lia|].
    replace (i + 1 + 1 + 1) with (i + 1 + 2) by lia. reflexivity.
  - change (len [h]) with 1 in *.
    simpl app. simpl parse_loop.
    destruct (Z.eqb_spec i (len s - 1)); [lia|].
    assert (G : (h =? 92) && (i + 1 <? len s - 1)
                && match t with [] => false | c2 :: _ => in_chars c2 CHARACTER_GROUP_ESCAPED end = false).
    { destruct t as [|c2 t].
      - rewrite andb_false_r. reflexivity.
      - rewrite Ht. rewrite andb_false_r. reflexivity. }
    rewrite G. rewrite Z.gtb_ltb. destruct (Z.ltb_spec h c); [lia|].
    reflexivity.
Qed.

Lemma code_point_repr_tail a :
  code_point_repr a = escaped_char (lo a) ++ tail_repr a.
Proof.
  destruct a as [c | s e]; simpl.
  - rewrite app_nil_r. reflexivity.
  - destruct (e >? s + 1); reflexivity.
Qed.

Lemma escaped_char_head c t :
  match escaped_char c ++ t with
  | [] => True
  | c2 :: _ => in_chars c2 CHARACTER_GROUP_ESCAPED = false
  end.
Proof.
  unfold escaped_char. destruct (in_chars c CHARACTER_GROUP_ESCAPED) eqn:E; simpl.
  - reflexivity.
  - exact E.
Qed.

Lemma unicode_head l :
  match unicode l with
  | [] => True
  | c2 :: _ => in_chars c2 CHARACTER_GROUP_ESCAPED = false
  end.
Proof.
  destruct l as [|a l]; [exact I|].
  unfold unicode. simpl. rewrite code_point_repr_tail, <- !app_assoc.
  apply escaped_char_head.
Qed.

Lemma yield_all_app {A} (xs ys : list A) g :
  yield_all xs (yield_all ys g) = yield_all (xs ++ ys) g.
Proof. unfold yield_all. simpl. rewrite app_assoc. reflexivity. Qed.

Lemma yield_all_nil {A} (g : generated A) : yield_all [] g = g.
Proof. destruct g. reflexivity. Qed.

Lemma parse_loop_emit s i c t esc char :
  c <> 92 -> (esc = true -> 93 < c) ->
  parse_loop s false i (escaped_char c ++ t) esc char
  = yield_all (pending esc ++ [Single c])
      (parse_loop s false (i + len (escaped_char c)) t false c).
Proof.
  intros N Hesc. unfold escaped_char.
  destruct (in_chars c CHARACTER_GROUP_ESCAPED) eqn:E.
  - change (len [92; c]) with 2. simpl app. destruct esc.
    + rewrite parse_loop_backslash_escaped, parse_loop_metacharacter.
      * replace (i + 1 + 1) with (i + 2) by lia. reflexivity.
      * specialize (Hesc eq_refl).
        destruct (escaped_cases c E) as [-> | [H | H]]; [lia | exact H |].
        apply in_chars_In in H. simpl in H. lia.
    + rewrite parse_loop_backslash, parse_loop_special_escaped by exact E.
      replace (i + 1 + 1) with (i + 2) by lia. reflexivity.
  - change (len [c]) with 1. simpl app. rewrite parse_loop_plain by assumption.
    destruct esc; reflexivity.
Qed.

Lemma escaped_char_len c : 1 <= len (escaped_char c) <= 2.
Proof.
  unfold escaped_char. destruct (in_chars c CHARACTER_GROUP_ESCAPED).
  - change (len [92; c]) with 2. lia.
  - change (len [c]) with 1. lia.
Qed.

Lemma escaped_char_not_hyphen c t :
  match escaped_char c ++ t with c1 :: _ => c1 =? 45 | [] => false end = false.
Proof.
  pose proof (escaped_char_head c t) as H.
  destruct (escaped_char c ++ t) as [|c1 r]; [reflexivity|].
  apply Z.eqb_neq. intros ->. discriminate.
Qed.

(** The first position. *)
Lemma parse_first s c t :
  c <> 92 -> s = escaped_char c ++ t ->
  exists toks,
    parse_character_group s false
    = yield_all toks (parse_loop s false (len (escaped_char c)) t false c) /\
    (toks = [Single c] \/ (toks = [] /\ exists t', t = 45 :: t')).
Proof.
  intros N ->. unfold escaped_char.
  destruct (in_chars c CHARACTER_GROUP_ESCAPED) eqn:E.
  - exists [Single c]. split; [|auto]. change (len [92; c]) with 2.
    simpl app. unfold parse_character_group.
    change (92 =? 92) with true. cbv iota.
    rewrite parse_loop_special_escaped by exact E. reflexivity.
  - change (len [c]) with 1. simpl app. unfold parse_character_group.
    destruct (Z.eqb_spec c 92); [contradiction|].
    destruct (not_escaped c E) as (_ & _ & H3). rewrite H3. simpl andb. cbv iota.
    destruct ((len (c :: t) - 1 <=? 1)
              || negb match t with c1 :: _ => c1 =? 45 | [] => false end) eqn:G.
    + exists [Single c]. auto.
    + exists []. split; [rewrite yield_all_nil; reflexivity | right; split; auto].
      apply orb_false_iff in G. destruct G as [_ G].
      destruct t as [|c1 t']; [discriminate|].
      apply negb_false_iff, Z.eqb_eq in G. subst. eauto.
Qed.

Lemma parse_loop_tail s i a t :
  proper a ->
  i + len (tail_repr a) + len t = len s ->
  match t with [] => True | c2 :: _ => in_chars c2 CHARACTER_GROUP_ESCAPED = false end ->
  exists char',
    parse_loop s false i (tail_repr a ++ t) false (lo a)
    = yield_all (tail_tokens a)
        (parse_loop s false (i + len (tail_repr a)) t (tail_escaped a) char').
Proof.
  intros Hp Hlen Ht. destruct a as [c | b e]; simpl in *.
  - exists c. change (len []) with 0. replace (i + 0) with i by lia.
    rewrite yield_all_nil. reflexivity.
  - rewrite Z.gtb_ltb in *. destruct (Z.ltb_spec (b + 1) e) as [W | W].
    + exists b. rewrite len_cons in *.
      change ((45 :: escaped_char e) ++ t) with (45 :: escaped_char e ++ t).
      rewrite parse_loop_range; auto; try lia.
      replace (i + (1 + len (escaped_char e))) with (i + 1 + len (escaped_char e)) by lia.
      reflexivity.
    + destruct (Z.eqb_spec e 92) as [-> | Ne].
      * exists b. change (escaped_char 92) with [92]. change (len [92]) with 1.
        simpl app. rewrite parse_loop_backslash, yield_all_nil. reflexivity.
      * exists e. rewrite parse_loop_emit; auto. discriminate.
Qed.

Lemma tail_tokens_covers a x :
  proper a ->
  inside a x <->
  (x = lo a \/ covers (tail_tokens a) x \/ (tail_escaped a = true /\ x = 92)).
Proof.
  intros Hp. pose proof (covers_nil x) as Hnil.
  destruct a as [c | b e]; unfold inside; simpl in *.
  - intuition (try lia; try discriminate).
  - rewrite Z.gtb_ltb. destruct (Z.ltb_spec (b + 1) e) as [W | W].
    + rewrite covers_cons. unfold inside. simpl. intuition (try lia; try discriminate).
    + destruct (Z.eqb_spec e 92) as [-> | Ne].
      * intuition (try lia).
      * rewrite covers_cons. unfold inside. simpl. intuition (try lia; try discriminate).
Qed.

Lemma tail_hyphen_covers a t t' x :
  proper a ->
  match t with [] => True | c2 :: _ => in_chars c2 CHARACTER_GROUP_ESCAPED = false end ->
  tail_repr a ++ t = 45 :: t' ->
  covers (tail_tokens a) x <-> inside a x.
Proof.
  intros Hp Ht E. destruct a as [c | b e]; simpl in *.
  - subst t. discriminate.
  - rewrite Z.gtb_ltb in *. destruct (Z.ltb_spec (b + 1) e) as [W | W].
    + rewrite covers_cons. pose proof (covers_nil x). tauto.
    + pose proof (escaped_char_head e t) as H. rewrite E in H. discriminate.
Qed.

Lemma tail_escaped_hi a : proper a -> tail_escaped a = true -> hi a = 92.
Proof.
  destruct a as [c | b e]; simpl; [discriminate|].
  destruct (e >? b + 1); [discriminate|]. intros _ H. apply Z.eqb_eq in H. exact H.
Qed.

(** * Properties of UnicodeSubset *)

Section Properties.

Variable maxunicode : Z.

Local Abbreviation valid_value := (valid_value maxunicode).
Local Abbreviation check_value := (check_value maxunicode).
Local Abbreviation add_loop := (add_loop maxunicode).
Local Abbreviation add := (add maxunicode).
Local Abbreviation discard := (discard maxunicode).
Local Abbreviation clamp_bound := (clamp_bound maxunicode).
Local Abbreviation run_calls := (run_calls maxunicode).
Local Abbreviation complement_end := (complement_end maxunicode).
Local Abbreviation complement_loop := (complement_loop maxunicode).
Local Abbreviation complement := (complement maxunicode).
Local Abbreviation add_each := (add_each maxunicode).
Local Abbreviation discard_each := (discard_each maxunicode).
Local Abbreviation update := (update maxunicode).
Local Abbreviation UnicodeSubset := (UnicodeSubset maxunicode).
Local Abbreviation copy := (copy maxunicode).
Local Abbreviation isub := (isub maxunicode).
Local Abbreviation sub := (sub maxunicode).
Local Abbreviation rsub := (rsub maxunicode).
Local Abbreviation reflected_minus := (reflected_minus maxunicode).
Local Abbreviation open_end := (open_end maxunicode).
Local Abbreviation walk_as_stated := (walk_as_stated maxunicode).
Local Abbreviation reached := (reached maxunicode).
Local Abbreviation involution_as_stated := (involution_as_stated maxunicode).

(** ** Valid values *)

Lemma valid_nonempty v : valid_value v -> nonempty v.
Proof. destruct v; unfold nonempty; simpl; lia. Qed.

Lemma valid_bounds v : valid_value v -> 0 <= lo v /\ lo v <= hi v /\ hi v <= maxunicode.
Proof. destruct v; simpl; lia. Qed.

Lemma Forall_valid_nonempty l : Forall valid_value l -> Forall nonempty l.
Proof. apply Forall_impl. exact valid_nonempty. Qed.

(** ** Validation of the argument of add and discard *)

Lemma check_value_valid v : valid_value v -> check_value v = None.
Proof.
  destruct v; simpl; intros H; zcases; simpl; try reflexivity; lia.
Qed.

Lemma check_value_invalid v :
  ~ valid_value v ->
  check_value v
  = Some match v with
         | Single _ => XMLSchemaValueError (NotCodePoint v)
         | Range _ _ => TypeError NotAllArgumentsConverted
         end.
Proof.
  destruct v; simpl; intros H; zcases; simpl; try reflexivity;
    exfalso; apply H; lia.
Qed.

Lemma check_list_value_valid s e :
  valid_value (Range s e) -> check_list_value maxunicode s e = None.
Proof.
  unfold check_list_value. simpl. intros H. zcases; simpl; try reflexivity; lia.
Qed.

Lemma check_list_value_invalid s e :
  ~ valid_value (Range s e) ->
  check_list_value maxunicode s e
  = Some (XMLSchemaValueError (NotCodePointRange (Range s e))).
Proof.
  unfold check_list_value. simpl. intros H. zcases; simpl; try reflexivity;
    exfalso; apply H; lia.
Qed.

Lemma valid_value_dec v : valid_value v \/ ~ valid_value v.
Proof. destruct v; simpl; lia. Qed.

Lemma add_valid l v : valid_value v -> add l v = (add_loop (lo v) (hi v) v l, None).
Proof. intros H. unfold add. rewrite (check_value_valid v H). reflexivity. Qed.

Lemma discard_valid l v :
  valid_value v -> discard l v = (fst (discard_loop (lo v) (hi v) l), None).
Proof. intros H. unfold discard. rewrite (check_value_valid v H). reflexivity. Qed.

(** A couple given as a list: a valid one is handled as the tuple is, an
    invalid one raises the value error and leaves the list of atoms as it
    was. *)
Lemma add_discard_list_raise_value_error : forall code_points s e,
  (valid_value (Range s e) /\
   add_list maxunicode code_points s e = add code_points (Range s e) /\
   discard_list maxunicode code_points s e = discard code_points (Range s e))
  \/
  (~ valid_value (Range s e) /\
   add_list maxunicode code_points s e
   = (code_points,
      Some (XMLSchemaValueError (NotCodePointRange (Range s e)))) /\
   discard_list maxunicode code_points s e
   = (code_points,
      Some (XMLSchemaValueError (NotCodePointRange (Range s e))))).
Proof.
  intros l s e. destruct (valid_value_dec (Range s e)) as [Hv | Hv].
  - left. split; [assumption|].
    rewrite add_valid, discard_valid by assumption.
    unfold add_list, discard_list.
    rewrite check_list_value_valid by assumption. auto.
  - right. split; [assumption|].
    unfold add_list, discard_list.
    rewrite check_list_value_invalid by assumption. auto.
Qed.

(** C8.  [add] and [discard] raise exactly for an argument that is not a
    code point or a couple of [0, maxunicode] with [lo <= hi]; the list of
    atoms is then the one before the call, and a valid argument raises
    nothing.  The exception of an invalid integer is the value error; the
    exception of an invalid tuple is the [TypeError] of the [%] operator
    that formats the message, which is no value error. *)
Theorem add_discard_invalid_tuple_raises_type_error :
  forall code_points value,
  (valid_value value /\
   snd (add code_points value) = None /\
   snd (discard code_points value) = None)
  \/
  (~ valid_value value /\
   add code_points value
   = (code_points,
      Some match value with
           | Single _ => XMLSchemaValueError (NotCodePoint value)
           | Range _ _ => TypeError NotAllArgumentsConverted
           end) /\
   discard code_points value
   = (code_points,
      Some match value with
           | Single _ => XMLSchemaValueError (NotCodePoint value)
           | Range _ _ => TypeError NotAllArgumentsConverted
           end)).
Proof.
  intros l v. destruct (valid_value_dec v) as [Hv | Hv].
  - left. rewrite add_valid, discard_valid by assumption. auto.
  - right. split; [assumption|].
    unfold add, discard. rewrite (check_value_invalid v Hv). auto.
Qed.

(** ** The merge of add *)

Lemma add_loop_cases : forall l v,
  Forall valid_value l -> ordered l -> nonempty v ->
  (exists before after,
      l = before ++ after /\
      add_loop (lo v) (hi v) v l = before ++ v :: after /\
      Forall (fun a => hi a + 1 < lo v) before /\
      Forall (fun a => hi v + 1 < lo a) after /\
      ordered (add_loop (lo v) (hi v) v l))
  \/
  (exists before cp merged after,
      l = before ++ cp :: after /\
      add_loop (lo v) (hi v) v l = before ++ merged :: after /\
      Forall (fun a => hi a + 1 < lo v) before /\
      ~ apart v cp /\
      lo merged = Z.min (lo v) (lo cp) /\
      hi merged = Z.max (hi cp) (Z.min (hi v) (clamp_bound after))).
Proof.
  induction l as [|cp rest IH]; intros v Hval Hord Hv.
  - left. exists [], []. simpl. repeat split; auto.
  - inversion Hval as [|? ? Hcp Hrest]; subst.
    pose proof (valid_bounds cp Hcp) as Bcp.
    pose proof (ordered_above cp rest (Forall_valid_nonempty _ Hrest) Hord) as Habove.
    assert (Hclamp : hi cp <= clamp_bound rest).
    { destruct rest as [|nx r]; simpl; [lia|]. simpl in Hord. lia. }
    assert (Hhl : match rest with [] => maxunicode + 1 | next :: _ => lo next end
                  = clamp_bound rest + 1).
    { destruct rest; simpl; lia. }
    unfold nonempty in Hv.
    simpl add_loop. rewrite Hhl.
    destruct (lo v <? lo cp) eqn:E1.
    + apply Z.ltb_lt in E1.
      destruct ((lo v =? lo cp - 1) || (hi v >=? lo cp - 1)) eqn:E2.
      * right. exists [], cp, (Range (lo v)
            (Z.max (Z.min (hi v) (clamp_bound rest + 1 - 1)) (hi cp))), rest.
        simpl. repeat split; auto.
        -- unfold apart. apply orb_true_iff in E2.
           rewrite Z.eqb_eq, Z.geb_le in E2. lia.
        -- lia.
        -- lia.
      * left. apply orb_false_iff in E2. destruct E2 as [E2 E3].
        rewrite Z.geb_leb in E3. apply Z.leb_gt in E3.
        exists [], (cp :: rest). simpl. repeat split; auto.
        -- constructor; [lia|]. eapply Forall_impl; [|exact Habove].
           simpl. intros; lia.
        -- lia.
        -- destruct rest; simpl in *; tauto.
        -- exact (ordered_tail _ _ Hord).
    + apply Z.ltb_ge in E1.
      destruct (lo v >? hi cp + 1) eqn:E2.
      * rewrite Z.gtb_ltb in E2. apply Z.ltb_lt in E2.
        destruct (IH v Hrest (ordered_tail _ _ Hord) Hv)
          as [(before & after & Hl & Hadd & Hb & Ha & Ho)
             | (before & cp' & merged & after & Hl & Hadd & Hb & Hap & Hlo & Hhi)].
        -- left. exists (cp :: before), after. rewrite Hadd. subst rest.
           simpl. repeat split; auto.
           ++ destruct before as [|b0 before]; simpl.
              ** lia.
              ** inversion Habove; subst. assumption.
           ++ rewrite <- Hadd. exact Ho.
        -- right. exists (cp :: before), cp', merged, after. rewrite Hadd.
           subst rest. simpl. repeat split; auto.
      * rewrite Z.gtb_ltb in E2. apply Z.ltb_ge in E2.
        right. destruct (hi cp >? lo cp) eqn:E3.
        -- exists [], cp, (Range (lo cp)
              (Z.max (Z.min (hi v) (clamp_bound rest + 1 - 1)) (hi cp))), rest.
           simpl. repeat split; auto; unfold apart; lia.
        -- rewrite Z.gtb_ltb in E3. apply Z.ltb_ge in E3.
           destruct (hi v >? lo cp) eqn:E4.
           ++ rewrite Z.gtb_ltb in E4. apply Z.ltb_lt in E4.
              exists [], cp, (Range (lo cp) (Z.min (hi v) (clamp_bound rest + 1 - 1))), rest.
              simpl. repeat split; auto; unfold apart; lia.
           ++ rewrite Z.gtb_ltb in E4. apply Z.ltb_ge in E4.
              exists [], cp, cp, rest.
              simpl. repeat split; auto; unfold apart; lia.
Qed.

(** C2. On an ordered list of valid atoms, [add] of a valid value that
    touches an atom replaces that one atom by a merged atom whose upper end
    is clamped to [clamp_bound] of the atoms that follow, and keeps every
    other atom, before and after, as it was; a value apart from every atom
    is inserted between the atoms below it and the atoms above it, and the
    list stays ordered. *)
Theorem add_clamps_merge_or_inserts_sorted : forall code_points value,
  Forall valid_value code_points -> ordered code_points -> valid_value value ->
  snd (add code_points value) = None /\
  ((exists a, In a code_points /\ ~ apart value a) ->
   exists before cp merged after,
     code_points = before ++ cp :: after /\
     fst (add code_points value) = before ++ merged :: after /\
     ~ apart value cp /\
     lo merged = Z.min (lo value) (lo cp) /\
     hi merged = Z.max (hi cp) (Z.min (hi value) (clamp_bound after)) /\
     hi merged <= clamp_bound after) /\
  (Forall (apart value) code_points ->
   exists before after,
     code_points = before ++ after /\
     fst (add code_points value) = before ++ value :: after /\
     Forall (fun a => hi a + 1 < lo value) before /\
     Forall (fun a => hi value + 1 < lo a) after /\
     ordered (fst (add code_points value))).
Proof.
  intros l v Hl Hord Hv. rewrite (add_valid l v Hv). simpl.
  split; [reflexivity|].
  destruct (add_loop_cases l v Hl Hord (valid_nonempty v Hv))
    as [(before & after & El & Eadd & Hb & Ha & Ho)
       | (before & cp & merged & after & El & Eadd & Hb & Hap & Hlo & Hhi)].
  - split.
    + intros (a & Hin & Hnot). exfalso. apply Hnot. subst l.
      apply in_app_or in Hin. destruct Hin as [Hin | Hin].
      * right. rewrite Forall_forall in Hb. exact (Hb a Hin).
      * left. rewrite Forall_forall in Ha. exact (Ha a Hin).
    + intros _. exists before, after. auto.
  - split.
    + intros _. exists before, cp, merged, after. repeat split; auto.
      rewrite Hhi. subst l.
      assert (Hcp : valid_value cp).
      { rewrite Forall_forall in Hl. apply Hl. apply in_or_app. right. left. reflexivity. }
      assert (Hc : hi cp <= clamp_bound after).
      { apply valid_bounds in Hcp.
        clear - Hord Hcp. induction before as [|b before IH]; simpl in Hord.
        - destruct after; simpl in *; lia.
        - apply IH. tauto. }
      lia.
    + intros Hall. exfalso. apply Hap. rewrite Forall_forall in Hall.
      apply Hall. subst l. apply in_or_app. right. left. reflexivity.
Qed.

(** ** Construction of a subset from items *)

Lemma pending_item_valid ps pe :
  0 <= ps -> ps <= pe -> pe <= maxunicode -> valid_value (pending_item ps pe).
Proof.
  intros H0 H1 H2. unfold pending_item. rewrite Z.gtb_ltb.
  destruct (Z.ltb_spec ps pe); simpl; lia.
Qed.

Lemma iter_loop_reverse : forall items ps pe,
  0 <= ps -> ps <= pe -> pe <= maxunicode ->
  Forall valid_value items -> key_sorted hi true items ->
  Forall (fun a => hi a <= pe) items ->
  exists first r,
    iter_loop true (Some (ps, pe)) items = first :: r /\
    hi first = pe /\
    descending (first :: r) /\
    Forall proper (first :: r) /\
    Forall valid_value (first :: r) /\
    forall x, covers (first :: r) x <-> (ps <= x <= pe \/ covers items x).
Proof.
  induction items as [|cp rest IH]; intros ps pe H0 Hp HM Hval Hs Hub.
  - exists (pending_item ps pe), []. simpl. splits; auto.
    + apply pending_item_hi. assumption.
    + constructor; [apply pending_item_proper | constructor].
    + constructor; [apply pending_item_valid; assumption | constructor].
    + intros x. rewrite covers_cons, pending_item_inside by assumption.
      pose proof (covers_nil x). tauto.
  - inversion Hval as [|? ? Hcp Hrest]; subst.
    inversion Hub as [|? ? Hucp Hurest]; subst.
    destruct Hs as [Hcprest Hsrest]. apply valid_bounds in Hcp.
    simpl iter_loop.
    destruct (Z.leb_spec (ps - 1) (hi cp)) as [Hm | Hm].
    + destruct (IH (Z.min ps (lo cp)) pe)
        as (first & r & Eq & Hhi & Hd & Hpr & Hv & Hc); auto; try lia.
      exists first, r. splits; auto.
      intros x. rewrite Hc, covers_cons. unfold inside. intuition lia.
    + destruct (IH (lo cp) (hi cp))
        as (first & r & Eq & Hhi & Hd & Hpr & Hv & Hc); auto; try lia.
      exists (pending_item ps pe), (first :: r). rewrite Eq.
      splits; auto.
      * apply pending_item_hi. assumption.
      * split; [|exact Hd]. rewrite pending_item_lo. lia.
      * constructor; [apply pending_item_proper | assumption].
      * constructor; [apply pending_item_valid; assumption | assumption].
      * intros x. rewrite covers_cons, pending_item_inside by assumption.
        rewrite Hc, covers_cons. unfold inside. intuition lia.
Qed.

(** An atom below the first one, and not adjacent to it, goes in front. *)
Lemma add_loop_front v acc :
  nonempty v ->
  match acc with [] => True | a :: _ => hi v + 1 < lo a end ->
  add_loop (lo v) (hi v) v acc = v :: acc.
Proof.
  unfold nonempty. intros Hv Hacc. destruct acc as [|a acc]; simpl; [reflexivity|].
  zcases; simpl; try reflexivity; lia.
Qed.

Lemma add_each_descending : forall out acc,
  Forall valid_value out -> descending out ->
  match out, acc with o :: _, a :: _ => hi o + 1 < lo a | _, _ => True end ->
  add_each acc out = (rev out ++ acc, None).
Proof.
  induction out as [|o out IH]; intros acc Hv Hd Hacc; simpl; [reflexivity|].
  inversion Hv as [|? ? Ho Hout]; subst.
  rewrite (add_valid acc o Ho), add_loop_front.
  - rewrite IH.
    + rewrite <- app_assoc. reflexivity.
    + assumption.
    + destruct Hd; assumption.
    + destruct out; [exact I|]. destruct Hd as [Hd _]. exact Hd.
  - apply valid_nonempty. exact Ho.
  - destruct acc; auto.
Qed.

(** [UnicodeSubset(items)] for valid items: the atoms are ordered, proper and
    valid, and cover the code points of the items. *)
Lemma UnicodeSubset_items items :
  Forall valid_value items ->
  exists l,
    UnicodeSubset (Items (items, None)) = Return l /\
    ordered l /\ Forall proper l /\ Forall valid_value l /\
    forall x, covers l x <-> covers items x.
Proof.
  intros Hv. unfold UnicodeSubset, update, iter_code_points.
  pose proof (sorted_key_sorted hi true items) as Hs.
  pose proof (sorted_Forall valid_value hi true items Hv) as Hvs.
  assert (Hc : forall x, covers (sorted hi true items) x <-> covers items x).
  { intros x. apply covers_same_items. intros a. apply sorted_In. }
  destruct (sorted hi true items) as [|cp rest].
  - exists []. simpl. splits; auto.
  - inversion Hvs as [|? ? Hcp Hrest]; subst. destruct Hs as [Hfirst Hs].
    pose proof (valid_bounds cp Hcp) as Bcp.
    simpl iter_loop.
    destruct (iter_loop_reverse rest (lo cp) (hi cp))
      as (first & r & Eq & Hhi & Hd & Hpr & Hval & Hcov); auto; try lia.
    rewrite Eq, add_each_descending; auto.
    exists (rev (first :: r) ++ []). splits; auto.
    + apply descending_rev_ordered; simpl; auto.
    + rewrite app_nil_r. apply Forall_rev. exact Hpr.
    + rewrite app_nil_r. apply Forall_rev. exact Hval.
    + intros x. rewrite app_nil_r, covers_rev, Hcov, <- Hc, covers_cons.
      unfold inside. tauto.
Qed.

(** [UnicodeSubset] of an ordered list of valid proper atoms is that list: a
    copy has the atoms of the original. *)
Lemma copy_canonical l :
  Forall valid_value l -> ordered l -> Forall proper l -> copy l = Return l.
Proof.
  intros Hv Ho Hp. unfold copy.
  destruct (UnicodeSubset_items l Hv) as (l' & Eq & Ho' & Hp' & _ & Hc).
  rewrite Eq. f_equal. apply canonical_unique; auto.
Qed.

(** ** complement *)

Lemma complement_end_covers last :
  0 <= last ->
  exists out,
    complement_end last = (out, None) /\ Forall valid_value out /\
    forall x, covers out x <-> last <= x <= maxunicode.
Proof.
  intros H0. unfold complement_end.
  destruct (Z.eqb_spec last maxunicode) as [E | E].
  - exists [Single maxunicode]. splits; auto.
    + constructor; [simpl; lia | constructor].
    + intros x. rewrite covers_cons. unfold inside. simpl.
      pose proof (covers_nil x). intuition lia.
  - destruct (Z.ltb_spec last maxunicode) as [L | L].
    + exists [Range last maxunicode]. splits; auto.
      * constructor; [simpl; lia | constructor].
      * intros x. rewrite covers_cons. unfold inside. simpl.
        pose proof (covers_nil x). intuition lia.
    + exists []. splits; auto.
      intros x. pose proof (covers_nil x). intuition lia.
Qed.

Lemma complement_loop_covers : forall l last,
  0 <= last -> Forall valid_value l -> ascending l ->
  match l with [] => True | a :: _ => last <= lo a end ->
  exists out,
    complement_loop last l = (out, None) /\ Forall valid_value out /\
    forall x, covers out x <-> (last <= x <= maxunicode /\ ~ covers l x).
Proof.
  induction l as [|a rest IH]; intros last H0 Hv Hasc Hlast.
  - destruct (complement_end_covers last H0) as (out & Eq & Hvo & Hc).
    exists out. simpl. splits; auto.
    intros x. rewrite Hc. pose proof (covers_nil x). tauto.
  - inversion Hv as [|? ? Ha Hrest]; subst.
    pose proof (valid_bounds a Ha) as Ba.
    assert (Habove : forall x, covers rest x -> hi a < x).
    { intros x. apply ascending_covers_above; auto.
      apply Forall_valid_nonempty. exact Hrest. }
    simpl complement_loop. rewrite Z.gtb_ltb.
    destruct (Z.ltb_spec maxunicode last) as [Hbreak | Hgo]; [lia|].
    destruct (IH (hi a + 1)) as (out & Eq & Hvo & Hc); auto; try lia.
    { destruct Hasc; assumption. }
    { destruct rest as [|b rest]; [exact I|]. destruct Hasc as [Hab _]. lia. }
    rewrite Eq. unfold yield. simpl. rewrite Z.gtb_ltb.
    destruct (Z.ltb_spec 2 (lo a - last)) as [D3 | D3].
    { exists (Range last (lo a - 1) :: out). splits; auto.
      - constructor; [simpl; lia | assumption].
      - intros x. rewrite !covers_cons, Hc. unfold inside. simpl.
        specialize (Habove x).
        destruct (Z.lt_ge_cases x (lo a)); intuition lia. }
    destruct (Z.eqb_spec (lo a - last) 2) as [D2 | D2].
    { exists (Single last :: Single (last + 1) :: out). splits; auto.
      - constructor; [simpl; lia | constructor; [simpl; lia | assumption]].
      - intros x. rewrite !covers_cons, Hc. unfold inside. simpl.
        specialize (Habove x).
        destruct (Z.lt_ge_cases x (lo a)); intuition lia. }
    destruct (Z.eqb_spec (lo a - last) 1) as [D1 | D1].
    { exists (Single last :: out). splits; auto.
      - constructor; [simpl; lia | assumption].
      - intros x. rewrite !covers_cons, Hc. unfold inside. simpl.
        specialize (Habove x).
        destruct (Z.lt_ge_cases x (lo a)); intuition lia. }
    destruct (Z.eqb_spec (lo a - last) 0) as [D0 | D0]; [|lia].
    simpl. exists out. splits; auto.
    intros x. rewrite !covers_cons, Hc. unfold inside.
    specialize (Habove x).
        destruct (Z.lt_ge_cases x (lo a)); intuition lia.
Qed.

Lemma complement_covers l :
  Forall valid_value l -> ascending l ->
  exists out,
    complement l = (out, None) /\ Forall valid_value out /\
    forall x, covers out x <-> (0 <= x <= maxunicode /\ ~ covers l x).
Proof.
  intros Hv Hasc. apply complement_loop_covers; auto; try lia.
  destruct l as [|a l]; [exact I|]. inversion Hv; subst.
  pose proof (valid_bounds a). intuition lia.
Qed.

Lemma covers_valid l x : Forall valid_value l -> covers l x -> 0 <= x <= maxunicode.
Proof.
  intros Hv (a & Ha & Hx). rewrite Forall_forall in Hv.
  pose proof (valid_bounds a (Hv a Ha)). unfold inside in Hx. lia.
Qed.

(** C3, amended.  For a subset whose atoms are valid, ordered and proper
    (a couple only for [lo < hi]), the subset built from its complement,
    complemented again and built into a subset again, has exactly the atoms
    of the original. *)
Theorem complement_involution : forall code_points,
  Forall valid_value code_points -> ordered code_points ->
  Forall proper code_points ->
  exists once,
    UnicodeSubset (Items (complement code_points)) = Return once /\
    UnicodeSubset (Items (complement once)) = Return code_points.
Proof.
  intros l Hv Ho Hp.
  destruct (complement_covers l Hv (ordered_ascending l Ho)) as (g1 & E1 & V1 & C1).
  destruct (UnicodeSubset_items g1 V1) as (once & E2 & O2 & P2 & V2 & C2).
  destruct (complement_covers once V2 (ordered_ascending once O2)) as (g2 & E3 & V3 & C3).
  destruct (UnicodeSubset_items g2 V3) as (twice & E4 & O4 & P4 & V4 & C4).
  exists once. rewrite E1, E2. split; [reflexivity|].
  rewrite E3, E4. f_equal. apply canonical_unique; auto.
  intros x. rewrite C4, C3, C2, C1.
  pose proof (covers_valid l x Hv). destruct (covers_dec l x); tauto.
Qed.

(** ** The walk of complement *)

Lemma complement_end_open_end last : complement_end last = (open_end last, None).
Proof.
  unfold complement_end, open_end.
  destruct (last =? maxunicode); [reflexivity|].
  destruct (last <? maxunicode); reflexivity.
Qed.

Lemma complement_loop_walk : forall l last,
  complement_loop last l = walk_as_stated last (reached last l).
Proof.
  induction l as [|cp rest IH]; intros last; simpl.
  - apply complement_end_open_end.
  - destruct (last >? maxunicode); simpl.
    + apply complement_end_open_end.
    + rewrite IH. unfold gap_items, yield_all, yield. rewrite !Z.gtb_ltb.
      destruct (Z.ltb_spec (lo cp - last) 0) as [N | N].
      * destruct (Z.ltb_spec 2 (lo cp - last)); [lia|].
        destruct (Z.eqb_spec (lo cp - last) 2); [lia|].
        destruct (Z.eqb_spec (lo cp - last) 1); [lia|].
        destruct (Z.eqb_spec (lo cp - last) 0); [lia|]. reflexivity.
      * destruct (Z.ltb_spec 2 (lo cp - last)); [reflexivity|].
        destruct (Z.eqb_spec (lo cp - last) 2); [reflexivity|].
        destruct (Z.eqb_spec (lo cp - last) 1); [reflexivity|].
        destruct (Z.eqb_spec (lo cp - last) 0); [|lia].
        simpl. destruct (walk_as_stated (hi cp + 1) (reached (hi cp + 1) rest)).
        reflexivity.
Qed.

Lemma walk_raises_iff : forall l last,
  snd (walk_as_stated last l) = Some (XMLSchemaValueError CodePointsUnordered)
  <->
  exists before cp after,
    l = before ++ cp :: after /\ lo cp - last_after last before < 0.
Proof.
  induction l as [|a rest IH]; intros last; simpl.
  - split; [discriminate|].
    intros (before & cp & after & E & _). destruct before; discriminate.
  - destruct (Z.ltb_spec (lo a - last) 0) as [N | N]; simpl.
    + split; [|reflexivity]. intros _. exists [], a, rest. simpl. auto.
    + rewrite IH. split.
      * intros (before & cp & after & E & D).
        exists (a :: before), cp, after. subst rest. simpl. auto.
      * intros (before & cp & after & E & D).
        destruct before as [|b before]; simpl in *.
        -- injection E as -> _. lia.
        -- injection E as -> ->. exists before, cp, after. auto.
Qed.

Lemma walk_raises_only_unordered : forall l last,
  snd (walk_as_stated last l) = None \/
  snd (walk_as_stated last l) = Some (XMLSchemaValueError CodePointsUnordered).
Proof.
  induction l as [|a rest IH]; intros last; simpl; auto.
  destruct (lo a - last <? 0); simpl; auto.
Qed.

(** C4, amended.  [complement] follows the coalescing rule on the atoms that
    it reaches with [last <= maxunicode], and looks at no atom after [last]
    has passed [maxunicode]: for each reached atom it emits the gap items for
    [diff = start - last], it raises the value error "code points unordered"
    exactly when [diff < 0] at a reached atom, and after the walk it emits
    the open end. *)
Theorem complement_walks_reached_atoms : forall code_points,
  complement code_points = walk_as_stated 0 (reached 0 code_points) /\
  (snd (complement code_points)
     = Some (XMLSchemaValueError CodePointsUnordered)
   <->
   exists before cp after,
     reached 0 code_points = before ++ cp :: after /\
     lo cp - last_after 0 before < 0) /\
  (snd (complement code_points) = None \/
   snd (complement code_points)
     = Some (XMLSchemaValueError CodePointsUnordered)) /\
  message_format CodePointsUnordered = "code points unordered"%string.
Proof.
  intros l. unfold complement. rewrite complement_loop_walk.
  splits.
  - reflexivity.
  - apply walk_raises_iff.
  - apply walk_raises_only_unordered.
  - reflexivity.
Qed.

(** ** Round trip through the rendered text *)

Lemma tail_tokens_valid a :
  valid_value a -> Forall valid_value (tail_tokens a).
Proof.
  intros Hv. destruct a as [c | b e]; simpl in *; [constructor|].
  destruct (e >? b + 1); [|destruct (e =? 92)];
    repeat (apply Forall_cons || apply Forall_nil); simpl; lia.
Qed.

Lemma pending_valid esc :
  (esc = true -> 92 <= maxunicode) -> Forall valid_value (pending esc).
Proof.
  intros H. destruct esc; simpl; [|constructor].
  constructor; [|constructor]. simpl. specialize (H eq_refl). lia.
Qed.

(** One atom of the rendered text, after the first position. *)
Lemma parse_loop_atom s i a t esc char :
  valid_value a -> proper a -> no_backslash_start a ->
  (esc = true -> 93 < lo a /\ 92 <= maxunicode) ->
  i + len (code_point_repr a) + len t = len s ->
  match t with [] => True | c2 :: _ => in_chars c2 CHARACTER_GROUP_ESCAPED = false end ->
  exists toks esc' char',
    parse_loop s false i (code_point_repr a ++ t) esc char
    = yield_all toks
        (parse_loop s false (i + len (code_point_repr a)) t esc' char') /\
    (esc' = true -> hi a = 92) /\
    Forall valid_value toks /\
    forall x, (covers toks x \/ (esc' = true /\ x = 92))
              <-> ((esc = true /\ x = 92) \/ inside a x).
Proof.
  intros Hv Hp Hb Hesc Hlen Ht.
  destruct (Z.eq_dec (lo a) 92) as [E92 | N92].
  - destruct a as [c | b e]; simpl in Hb, E92; [subst c | contradiction].
    destruct esc; [destruct Hesc as [H _]; [reflexivity | simpl in H; lia]|].
    exists [], true, char. change (code_point_repr (Single 92)) with [92].
    change (len [92]) with 1. simpl app.
    rewrite parse_loop_backslash, yield_all_nil. splits; auto.
    intros x. pose proof (covers_nil x). unfold inside. simpl. intuition (try lia; try discriminate).
  - rewrite code_point_repr_tail in *. rewrite len_app in *. rewrite <- app_assoc.
    rewrite parse_loop_emit by (auto; intros H; apply Hesc; exact H).
    destruct (parse_loop_tail s (i + len (escaped_char (lo a))) a t Hp) as (char' & Eq);
      auto; try lia.
    rewrite Eq, yield_all_app.
    exists ((pending esc ++ [Single (lo a)]) ++ tail_tokens a), (tail_escaped a), char'.
    replace (i + len (escaped_char (lo a)) + len (tail_repr a))
      with (i + (len (escaped_char (lo a)) + len (tail_repr a))) by lia.
    splits; auto.
    + apply tail_escaped_hi. exact Hp.
    + apply Forall_app. split; [apply Forall_app; split|].
      * apply pending_valid. intros H. apply Hesc. exact H.
      * constructor; [|constructor]. pose proof (valid_bounds a Hv). simpl. lia.
      * apply tail_tokens_valid. exact Hv.
    + intros x. rewrite !covers_app, covers_cons.
      rewrite (tail_tokens_covers a x Hp).
      pose proof (covers_nil x). unfold inside at 1. simpl lo. simpl hi.
      destruct esc; simpl pending.
      * rewrite covers_cons. unfold inside at 1. simpl. intuition (try lia; try discriminate).
      * intuition (try lia; try discriminate).
Qed.

Lemma unicode_cons a l : unicode (a :: l) = code_point_repr a ++ unicode l.
Proof. reflexivity. Qed.

Lemma parse_loop_unicode : forall l s i esc char,
  Forall valid_value l -> ordered l -> Forall proper l ->
  Forall no_backslash_start l ->
  (esc = true ->
   92 <= maxunicode /\ match l with [] => True | a :: _ => 93 < lo a end) ->
  i + len (unicode l) = len s ->
  exists toks,
    parse_loop s false i (unicode l) esc char = (toks, None) /\
    Forall valid_value toks /\
    forall x, covers toks x <-> ((esc = true /\ x = 92) \/ covers l x).
Proof.
  induction l as [|a rest IH]; intros s i esc char Hv Ho Hp Hb Hesc Hlen.
  - exists (pending esc). change (unicode []) with (@nil Z). simpl parse_loop.
    splits.
    + destruct esc; reflexivity.
    + apply pending_valid. intros H. apply Hesc. exact H.
    + intros x. pose proof (covers_nil x). destruct esc; simpl pending.
      * rewrite covers_cons. unfold inside. simpl. intuition lia.
      * intuition discriminate.
  - inversion Hv as [|? ? Hva Hvr]; subst. inversion Hp as [|? ? Hpa Hpr]; subst.
    inversion Hb as [|? ? Hba Hbr]; subst.
    rewrite unicode_cons in *. rewrite len_app in Hlen.
    destruct (parse_loop_atom s i a (unicode rest) esc char Hva Hpa Hba)
      as (toks & esc' & char' & Eq & Hhi & Hvt & Hc).
    { intros H. destruct (Hesc H). auto. }
    { lia. }
    { apply unicode_head. }
    destruct (IH s (i + len (code_point_repr a)) esc' char')
      as (toks' & Eq' & Hvt' & Hc'); auto.
    { exact (ordered_tail _ _ Ho). }
    { intros H. specialize (Hhi H). pose proof (valid_bounds a Hva).
      split; [lia|]. destruct rest as [|b rest]; [exact I|].
      destruct Ho as [Hab _]. lia. }
    { lia. }
    exists (toks ++ toks'). rewrite Eq, Eq'. splits.
    + reflexivity.
    + apply Forall_app. auto.
    + intros x. rewrite covers_app, Hc', covers_cons.
      specialize (Hc x). tauto.
Qed.

(** C6, amended.  The text of a subset whose atoms are valid, ordered and
    proper, and none of whose couples starts at the backslash, parses back
    without an error, and the subset built from the tokens has the same
    atoms. *)
Theorem unicode_round_trip : forall code_points,
  Forall valid_value code_points -> ordered code_points ->
  Forall proper code_points -> Forall no_backslash_start code_points ->
  UnicodeSubset (Text (unicode code_points)) = Return code_points.
Proof.
  intros l Hv Ho Hp Hb.
  assert (Hparse : exists toks,
             parse_character_group (unicode l) false = (toks, None) /\
             Forall valid_value toks /\
             forall x, covers toks x <-> covers l x).
  { destruct l as [|a rest].
    - exists []. splits; [reflexivity | constructor | intros x; tauto].
    - inversion Hv as [|? ? Hva Hvr]; subst. inversion Hp as [|? ? Hpa Hpr]; subst.
      inversion Hb as [|? ? Hba Hbr]; subst.
      pose proof (valid_bounds a Hva) as Ba.
      assert (Hnext : hi a = 92 -> match rest with [] => True | b :: _ => 93 < lo b end).
      { intros H. destruct rest as [|b rest]; [exact I|]. destruct Ho as [Hab _]. lia. }
      rewrite unicode_cons.
      destruct (Z.eq_dec (lo a) 92) as [E92 | N92].
      + destruct a as [c | b e]; simpl in Hba, E92; [subst c | contradiction].
        change (code_point_repr (Single 92)) with [92]. simpl app.
        destruct (parse_loop_unicode rest (92 :: unicode rest) 1 true 92)
          as (toks & Eq & Hvt & Hc); auto.
        { exact (ordered_tail _ _ Ho). }
        { intros _. simpl in Ba. split; [lia | apply Hnext; reflexivity]. }
        { rewrite len_cons. lia. }
        exists toks. splits; auto.
        intros x. rewrite Hc, covers_cons. unfold inside. simpl. intuition lia.
      + rewrite code_point_repr_tail, <- app_assoc.
        set (s := escaped_char (lo a) ++ tail_repr a ++ unicode rest).
        destruct (parse_first s (lo a) (tail_repr a ++ unicode rest) N92 eq_refl)
          as (toks0 & Eq0 & Htoks0).
        assert (Hlen : len s = len (escaped_char (lo a)) + len (tail_repr a)
                               + len (unicode rest)).
        { unfold s. rewrite !len_app. lia. }
        destruct (parse_loop_tail s (len (escaped_char (lo a))) a (unicode rest) Hpa)
          as (char' & Eq1); [lia | apply unicode_head |].
        destruct (parse_loop_unicode rest s
                    (len (escaped_char (lo a)) + len (tail_repr a))
                    (tail_escaped a) char')
          as (toks & Eq & Hvt & Hc); auto.
        { exact (ordered_tail _ _ Ho). }
        { intros H. pose proof (tail_escaped_hi a Hpa H) as H92.
          split; [lia | exact (Hnext H92)]. }
        exists (toks0 ++ tail_tokens a ++ toks).
        rewrite Eq0, Eq1, Eq. splits.
        * unfold yield_all. simpl. reflexivity.
        * apply Forall_app. split; [|apply Forall_app; split; auto].
          -- destruct Htoks0 as [-> | [-> _]]; [|constructor].
             constructor; [simpl; lia | constructor].
          -- apply tail_tokens_valid. exact Hva.
        * intros x. rewrite !covers_app, Hc, covers_cons.
          pose proof (tail_tokens_covers a x Hpa) as Ht.
          pose proof (covers_nil x) as Hnil.
          destruct Htoks0 as [-> | [-> (t' & Et)]].
          -- rewrite covers_cons. unfold inside at 1. simpl lo. simpl hi.
             destruct (Z.eq_dec x (lo a)); intuition lia.
          -- pose proof (tail_hyphen_covers a (unicode rest) t' x Hpa
                           (unicode_head rest) Et) as Hh.
             tauto. }
  destruct Hparse as (toks & Eq & Hvt & Hc).
  destruct (UnicodeSubset_items toks Hvt) as (l' & Eq' & Ho' & Hp' & _ & Hc').
  unfold UnicodeSubset, update in *. rewrite Eq. simpl in Eq'. rewrite Eq'.
  f_equal. apply canonical_unique; auto.
  intros x. rewrite Hc', Hc. tauto.
Qed.

End Properties.

(** * Subtraction *)

Section Subtraction.

Variable maxunicode : Z.

Lemma discard_loop_spec : forall l sv ev,
  Forall (valid_value maxunicode) l -> ordered l -> sv <= ev ->
  exists l' stopped,
    discard_loop sv ev l = (l', stopped) /\
    Forall (valid_value maxunicode) l' /\
    ordered l' /\
    (forall z, Forall (fun b => z < lo b) l -> Forall (fun b => z < lo b) l') /\
    (stopped = true -> exists b, In b l /\ hi b < sv) /\
    forall x, covers l' x <-> (covers l x /\ ~ (sv <= x <= ev)).
Proof.
  induction l as [|cp rest IH]; intros sv ev Hv Ho Hse.
  - exists [], false. simpl. splits; auto.
    + discriminate.
    + intros x. pose proof (covers_nil x). tauto.
  - inversion Hv as [|? ? Hcp Hrest]; subst.
    pose proof (valid_bounds maxunicode cp Hcp) as Bcp.
    pose proof (ordered_above cp rest (Forall_valid_nonempty maxunicode _ Hrest) Ho) as Habove.
    destruct (IH sv ev Hrest (ordered_tail _ _ Ho) Hse)
      as (rest' & stopped & Eq & Hv' & Ho' & Hlb & Hstop & Hc).
    pose proof (Hlb (hi cp + 1) Habove) as Habove'.
    assert (Hrest_above : forall x, covers rest x -> hi cp + 1 < x).
    { intros x. apply ordered_covers_above; auto.
      apply (Forall_valid_nonempty maxunicode). exact Hrest. }
    cbn [discard_loop]. rewrite Eq.
    destruct stopped.
    + exists (cp :: rest'), true. splits; auto.
      * apply ordered_cons; assumption.
      * intros z Hz. inversion Hz; subst. constructor; auto.
      * intros _. destruct (Hstop eq_refl) as (b & Hb & Hlt).
        exists b. split; [right; exact Hb | exact Hlt].
      * intros x. rewrite !covers_cons, Hc. unfold inside.
        destruct (Hstop eq_refl) as (b & Hb & Hlt).
        rewrite Forall_forall in Habove. specialize (Habove b Hb).
        rewrite Forall_forall in Hrest.
        pose proof (valid_bounds maxunicode b (Hrest b Hb)).
        intuition lia.
    + rewrite !Z.gtb_ltb, !Z.geb_leb.
      destruct (Z.ltb_spec (hi cp) sv) as [C1 | C1].
      { exists (cp :: rest'), true. splits; auto.
        - apply ordered_cons; assumption.
        - intros z Hz. inversion Hz; subst. constructor; auto.
        - intros _. exists cp. split; [left; reflexivity | exact C1].
        - intros x. rewrite !covers_cons, Hc. unfold inside. intuition lia. }
      destruct (Z.leb_spec (hi cp) ev) as [C2 | C2].
      { destruct (Z.leb_spec sv (lo cp)) as [C3 | C3].
        - exists rest', false. splits; auto.
          + intros z Hz. inversion Hz; subst. auto.
          + discriminate.
          + intros x. rewrite !covers_cons, Hc. unfold inside. intuition lia.
        - destruct (Z.ltb_spec 1 (sv - lo cp)) as [C4 | C4].
          + exists (Range (lo cp) (sv - 1) :: rest'), false. splits; auto.
            * constructor; [simpl; lia | assumption].
            * apply ordered_cons; [assumption|].
              eapply Forall_impl; [|exact Habove']. simpl. intros; lia.
            * intros z Hz. inversion Hz; subst. constructor; auto.
            * discriminate.
            * intros x. rewrite !covers_cons, Hc. unfold inside. simpl.
              specialize (Hrest_above x). intuition lia.
          + exists (Single (lo cp) :: rest'), false. splits; auto.
            * constructor; [simpl; lia | assumption].
            * apply ordered_cons; [assumption|].
              eapply Forall_impl; [|exact Habove']. simpl. intros; lia.
            * intros z Hz. inversion Hz; subst. constructor; auto.
            * discriminate.
            * intros x. rewrite !covers_cons, Hc. unfold inside. simpl.
              specialize (Hrest_above x). intuition lia. }
      destruct (Z.leb_spec (lo cp) ev) as [C5 | C5].
      { destruct (Z.leb_spec sv (lo cp)) as [C3 | C3].
        - destruct (Z.ltb_spec 1 (hi cp - ev)) as [C6 | C6].
          + exists (Range (ev + 1) (hi cp) :: rest'), false. splits; auto.
            * constructor; [simpl; lia | assumption].
            * apply ordered_cons; [assumption|].
              eapply Forall_impl; [|exact Habove']. simpl. intros; lia.
            * intros z Hz. inversion Hz; subst. constructor; auto. simpl. lia.
            * discriminate.
            * intros x. rewrite !covers_cons, Hc. unfold inside. simpl.
              specialize (Hrest_above x). intuition lia.
          + exists (Single (hi cp) :: rest'), false. splits; auto.
            * constructor; [simpl; lia | assumption].
            * apply ordered_cons; [assumption|].
              eapply Forall_impl; [|exact Habove']. simpl. intros; lia.
            * intros z Hz. inversion Hz; subst. constructor; auto. simpl. lia.
            * discriminate.
            * intros x. rewrite !covers_cons, Hc. unfold inside. simpl.
              specialize (Hrest_above x). intuition lia.
        - set (upper := if 1 <? hi cp - ev then Range (ev + 1) (hi cp) else Single (hi cp)).
          set (lower := if 1 <? sv - lo cp then Range (lo cp) (sv - 1) else Single (lo cp)).
          assert (Hu : lo upper = ev + 1 /\ hi upper = hi cp).
          { unfold upper. destruct (Z.ltb_spec 1 (hi cp - ev)); simpl; lia. }
          assert (Hl : lo lower = lo cp /\ hi lower = sv - 1).
          { unfold lower. destruct (Z.ltb_spec 1 (sv - lo cp)); simpl; lia. }
          assert (Vu : valid_value maxunicode upper).
          { unfold upper. destruct (Z.ltb_spec 1 (hi cp - ev)); simpl; lia. }
          assert (Vl : valid_value maxunicode lower).
          { unfold lower. destruct (Z.ltb_spec 1 (sv - lo cp)); simpl; lia. }
          exists (lower :: upper :: rest'), false. splits; auto.
          + apply ordered_cons; [apply ordered_cons; [assumption|]|].
            * eapply Forall_impl; [|exact Habove']. simpl. intros; lia.
            * constructor; [lia|].
              eapply Forall_impl; [|exact Habove']. simpl. intros; lia.
          + intros z Hz. inversion Hz; subst. constructor; [lia|].
            constructor; [lia | auto].
          + discriminate.
          + intros x. rewrite !covers_cons, Hc. unfold inside.
            specialize (Hrest_above x). intuition lia. }
      exists (cp :: rest'), false. splits; auto.
      * apply ordered_cons; assumption.
      * intros z Hz. inversion Hz; subst. constructor; auto.
      * discriminate.
      * intros x. rewrite !covers_cons, Hc. unfold inside. intuition lia.
Qed.

Lemma iter_code_points_reverse items :
  Forall (valid_value maxunicode) items ->
  Forall (valid_value maxunicode) (iter_code_points items true) /\
  forall x, covers (iter_code_points items true) x <-> covers items x.
Proof.
  intros Hv. unfold iter_code_points.
  pose proof (sorted_key_sorted hi true items) as Hs.
  pose proof (sorted_Forall (valid_value maxunicode) hi true items Hv) as Hvs.
  assert (Hc : forall x, covers (sorted hi true items) x <-> covers items x).
  { intros x. apply covers_same_items. intros a. apply sorted_In. }
  destruct (sorted hi true items) as [|cp rest].
  - simpl. split; [constructor | exact Hc].
  - inversion Hvs as [|? ? Hcp Hrest]; subst. destruct Hs as [Hfirst Hs].
    pose proof (valid_bounds maxunicode cp Hcp) as Bcp.
    cbn [iter_loop].
    destruct (iter_loop_reverse maxunicode rest (lo cp) (hi cp))
      as (first & r & Eq & _ & _ & _ & Hval & Hcov); auto; try lia.
    rewrite Eq. split; [exact Hval|].
    intros x. rewrite Hcov, <- Hc, covers_cons. unfold inside. tauto.
Qed.

Lemma discard_each_spec : forall items l,
  Forall (valid_value maxunicode) items ->
  Forall (valid_value maxunicode) l -> ordered l ->
  exists l',
    discard_each maxunicode l items = (l', None) /\
    Forall (valid_value maxunicode) l' /\ ordered l' /\
    forall x, covers l' x <-> (covers l x /\ ~ covers items x).
Proof.
  induction items as [|v items IH]; intros l Hi Hl Ho.
  - exists l. simpl. splits; auto.
    intros x. pose proof (covers_nil x). tauto.
  - inversion Hi as [|? ? Hv Hi']; subst.
    pose proof (valid_bounds maxunicode v Hv) as Bv.
    cbn [discard_each]. rewrite (discard_valid maxunicode l v Hv).
    destruct (discard_loop_spec l (lo v) (hi v) Hl Ho)
      as (l1 & stopped & Eq & Hv1 & Ho1 & _ & _ & Hc1); [lia|].
    rewrite Eq. cbn [fst].
    destruct (IH l1 Hi' Hv1 Ho1) as (l' & Eq' & Hv' & Ho' & Hc').
    exists l'. splits; auto.
    intros x. rewrite Hc', Hc1, covers_cons. unfold inside. tauto.
Qed.

(** C10.  [left - right], for an iterable [left] of valid values whose type
    has no subtraction and a subset [right], is the reflected method of
    [right], which is its forward subtraction: the value is that of
    [right - left], a copy of [right] from which the code points of [left]
    are discarded. *)
Theorem reflected_minus_discards_left_from_right : forall left right,
  Forall (valid_value maxunicode) left ->
  Forall (valid_value maxunicode) right ->
  reflected_minus maxunicode left right = sub maxunicode right (Iterable left) /\
  exists difference,
    reflected_minus maxunicode left right = Return (Object difference) /\
    ordered difference /\
    forall x, covers difference x <-> (covers right x /\ ~ covers left x).
Proof.
  intros X S HX HS. split; [reflexivity|].
  unfold reflected_minus, rsub, sub, copy.
  destruct (UnicodeSubset_items maxunicode S HS) as (obj & Eo & Oo & _ & Vo & Co).
  rewrite Eo. cbn [isub].
  destruct (iter_code_points_reverse X HX) as (Vx & Cx).
  destruct (discard_each_spec (iter_code_points X true) obj Vx Vo Oo)
    as (D & Ed & Vd & Od & Cd).
  rewrite Ed. exists D. splits; auto.
  intros x. rewrite Cd, Co, Cx. tauto.
Qed.

End Subtraction.

(** * The category table *)

Lemma lookup_store k k' v t :
  lookup k (store k' v t) = if String.eqb k k' then Some v else lookup k t.
Proof.
  induction t as [|[k0 v0] t IH]; simpl.
  - reflexivity.
  - destruct (String.eqb_spec k' k0) as [-> | N]; simpl.
    + destruct (String.eqb k k0); reflexivity.
    + destruct (String.eqb_spec k k0) as [-> | N'].
      * destruct (String.eqb_spec k0 k'); [congruence | reflexivity].
      * exact IH.
Qed.

Lemma py_range_nil a b : b <= a -> py_range a b = [].
Proof.
  intros H. unfold py_range. replace (Z.to_nat (b - a)) with 0%nat by lia. reflexivity.
Qed.

Lemma py_range_cons a b : a < b -> py_range a b = a :: py_range (a + 1) b.
Proof.
  intros H. unfold py_range.
  replace (Z.to_nat (b - a)) with (S (Z.to_nat (b - (a + 1)))) by lia.
  cbn [seq map]. f_equal; [lia|].
  rewrite <- seq_shift, map_map. apply map_ext. intros k. lia.
Qed.

Lemma py_range_last a b d : a < b -> last (py_range a b) d = b - 1.
Proof.
  intros H. unfold py_range.
  replace (Z.to_nat (b - a)) with (S (Z.to_nat (b - a - 1))) by lia.
  rewrite seq_S, map_app. cbn [map]. rewrite last_last. lia.
Qed.

Section CategoryTable.

Variable maxunicode : Z.

Lemma store_valid k v t :
  table_valid maxunicode t -> Forall (valid_value maxunicode) v -> table_valid maxunicode (store k v t).
Proof.
  unfold table_valid. intros Ht Hv. induction t as [|[k0 v0] t IH]; simpl.
  - constructor; [exact Hv | constructor].
  - inversion Ht; subst. destruct (String.eqb k k0); constructor; auto.
Qed.

Lemma lookup_valid k v t :
  table_valid maxunicode t -> lookup k t = Some v -> Forall (valid_value maxunicode) v.
Proof.
  unfold table_valid. intros Ht. induction t as [|[k0 v0] t IH]; simpl; [discriminate|].
  inversion Ht; subst. destruct (String.eqb k k0).
  - intros E. injection E as <-. assumption.
  - auto.
Qed.

Lemma append_item_valid t k a :
  table_valid maxunicode t -> valid_value maxunicode a -> table_valid maxunicode (append_item t k a).
Proof.
  intros Ht Ha. unfold append_item. destruct (lookup k t) as [v|] eqn:E.
  - apply store_valid; [exact Ht|]. apply Forall_app. split.
    + exact (lookup_valid k v t Ht E).
    + constructor; [exact Ha | constructor].
  - apply store_valid; [exact Ht|]. constructor; [exact Ha | constructor].
Qed.

Lemma append_code_points_valid c last_category start_cp cp :
  table_valid maxunicode c -> 0 <= start_cp -> start_cp < cp -> cp <= maxunicode + 1 ->
  table_valid maxunicode (append_code_points c last_category start_cp cp).
Proof.
  intros Hc H0 H1 H2. unfold append_code_points.
  destruct (Z.eqb_spec (cp - start_cp) 1).
  - apply append_item_valid; [exact Hc | simpl; lia].
  - destruct (Z.eqb_spec (cp - start_cp) 2).
    + apply append_item_valid; [apply append_item_valid|]; auto; simpl; lia.
    + apply append_item_valid; [exact Hc | simpl; lia].
Qed.

Lemma getitem_default d k :
  default_list d = true -> table_valid maxunicode (entries d) ->
  exists d' v,
    getitem d k = (d', Return v) /\
    default_list d' = true /\ table_valid maxunicode (entries d') /\
    Forall (valid_value maxunicode) v /\
    has_key k (entries d') /\
    forall k0 v0, lookup k0 (entries d) = Some v0 -> lookup k0 (entries d') = Some v0.
Proof.
  intros Hd Hv. unfold getitem, has_key. destruct (lookup k (entries d)) as [v|] eqn:E.
  - exists d, v. repeat split; auto.
    + exact (lookup_valid k v _ Hv E).
    + congruence.
  - rewrite Hd. eexists _, []. split; [reflexivity|]. cbn [default_list entries].
    repeat split; auto.
    + apply store_valid; [exact Hv | constructor].
    + rewrite lookup_store, String.eqb_refl. discriminate.
    + intros k0 v0 H0. rewrite lookup_store.
      destruct (String.eqb_spec k0 k) as [-> | N]; [congruence | exact H0].
Qed.

Lemma concatenation_default : forall keys d acc,
  default_list d = true -> table_valid maxunicode (entries d) ->
  Forall (valid_value maxunicode) acc ->
  exists d' v,
    concatenation d keys acc = (d', Return v) /\
    default_list d' = true /\ table_valid maxunicode (entries d') /\
    Forall (valid_value maxunicode) v /\
    (forall k, In k keys -> has_key k (entries d')) /\
    forall k0 v0, lookup k0 (entries d) = Some v0 -> lookup k0 (entries d') = Some v0.
Proof.
  induction keys as [|k keys IH]; intros d acc Hd Hv Hacc; cbn [concatenation].
  - exists d, acc. repeat split; auto. intros k [].
  - destruct (getitem_default d k Hd Hv) as (d1 & v1 & E1 & Hd1 & Hv1 & Hvv1 & Hk1 & Hp1).
    rewrite E1.
    destruct (IH d1 (acc ++ v1) Hd1 Hv1) as (d2 & v2 & E2 & Hd2 & Hv2 & Hvv2 & Hk2 & Hp2).
    { apply Forall_app. auto. }
    exists d2, v2. repeat split; auto.
    intros k0 [<- | Hin]; [|auto].
    unfold has_key in *. destruct (lookup k (entries d1)) as [w|] eqn:Ew; [|congruence].
    rewrite (Hp2 k w Ew). discriminate.
Qed.

Lemma add_general_categories_default : forall general d,
  default_list d = true -> table_valid maxunicode (entries d) ->
  exists d',
    add_general_categories d general = Return d' /\
    table_valid maxunicode (entries d') /\
    (forall k, has_key k (entries d) -> has_key k (entries d')) /\
    (forall name keys k,
        In (name, keys) general -> k = name \/ In k keys ->
        has_key k (entries d')) /\
    forall k0 v0,
      lookup k0 (entries d) = Some v0 -> ~ In k0 (map fst general) ->
      lookup k0 (entries d') = Some v0.
Proof.
  induction general as [|[name keys] general IH]; intros d Hd Hv;
    cbn [add_general_categories].
  - exists d. repeat split; auto. intros name keys k [].
  - destruct (concatenation_default keys d [] Hd Hv) as (d1 & v & E1 & Hd1 & Hv1 & Hvv & Hk1 & Hp1);
      [constructor|].
    rewrite E1.
    destruct (IH (setitem d1 name v)) as (d2 & E2 & Hv2 & Hm2 & Hk2 & Hp2).
    { exact Hd1. }
    { cbn [setitem entries]. apply store_valid; assumption. }
    assert (Hset : forall k, has_key k (entries d1) -> has_key k (entries (setitem d1 name v))).
    { intros k Hk. unfold has_key in *. cbn [setitem entries]. rewrite lookup_store.
      destruct (String.eqb k name); [discriminate | exact Hk]. }
    assert (Hname : has_key name (entries (setitem d1 name v))).
    { unfold has_key. cbn [setitem entries]. rewrite lookup_store, String.eqb_refl.
      discriminate. }
    exists d2. repeat split; auto.
    + intros k Hk. apply Hm2, Hset. unfold has_key in *.
      destruct (lookup k (entries d)) as [w|] eqn:Ew; [|congruence].
      rewrite (Hp1 k w Ew). discriminate.
    + intros name' keys' k [Heq | Hin] Hk.
      * injection Heq as <- <-. destruct Hk as [-> | Hk].
        -- apply Hm2. exact Hname.
        -- apply Hm2, Hset, Hk1. exact Hk.
      * exact (Hk2 name' keys' k Hin Hk).
    + intros k0 v0 H0 Hn. cbn [map fst In] in Hn. apply Hp2.
      * cbn [setitem entries]. rewrite lookup_store.
        destruct (String.eqb_spec k0 name) as [-> | N]; [tauto|]. apply Hp1. exact H0.
      * tauto.
Qed.

Lemma build_subsets_valid : forall t,
  table_valid maxunicode t ->
  exists t',
    build_subsets maxunicode t = Return t' /\
    forall k v, lookup k t = Some v ->
      exists l, lookup k t' = Some l /\
                UnicodeSubset maxunicode (Items (v, None)) = Return l.
Proof.
  induction t as [|[k0 v0] t IH]; intros Ht; cbn [build_subsets].
  - exists []. split; [reflexivity|]. intros k v E. discriminate.
  - inversion Ht as [|? ? H0 Ht']; subst. cbn [snd] in H0.
    destruct (UnicodeSubset_items maxunicode v0 H0) as (l0 & E0 & _).
    destruct (IH Ht') as (t' & E' & Hl).
    rewrite E0, E'. exists ((k0, l0) :: t'). split; [reflexivity|].
    intros k v E. cbn [lookup] in *. destruct (String.eqb k k0).
    + injection E as <-. exists l0. auto.
    + apply Hl. exact E.
Qed.

Section Scan.

Variable category : Z -> string.

Lemma scan_loop_valid : forall n a b c last_category start_cp,
  Z.to_nat (b - a) = n ->
  table_valid maxunicode c -> 0 <= start_cp -> start_cp < a -> b <= maxunicode + 1 ->
  exists c' last' start',
    scan_loop category (py_range a b) c last_category start_cp
    = (c', last', start') /\
    table_valid maxunicode c' /\ 0 <= start' /\ start' < Z.max a b.
Proof.
  induction n as [|n IH]; intros a b c last_category start_cp Hn Hc H0 H1 H2.
  - rewrite py_range_nil by lia.
    exists c, last_category, start_cp. simpl. repeat split; auto; lia.
  - rewrite py_range_cons by lia. cbn [scan_loop].
    destruct (negb (String.eqb (category a) last_category)).
    + destruct (IH (a + 1) b (append_code_points c last_category start_cp a)
                  (category a) a)
        as (c' & l' & s' & Eq & Hv & Hs0 & Hs1); try lia.
      { apply append_code_points_valid; auto; lia. }
      exists c', l', s'. repeat split; auto; lia.
    + destruct (IH (a + 1) b c last_category start_cp)
        as (c' & l' & s' & Eq & Hv & Hs0 & Hs1); auto; try lia.
      exists c', l', s'. repeat split; auto; lia.
Qed.

Lemma get_unicodedata_categories_valid :
  0 <= maxunicode -> category 0 = "Cc"%string ->
  table_valid maxunicode (get_unicodedata_categories maxunicode category).
Proof.
  intros HM H0. unfold get_unicodedata_categories.
  rewrite py_range_last by lia.
  rewrite py_range_cons by lia. cbn [scan_loop]. rewrite H0.
  change (negb ("Cc" =? "Cc")%string) with false. cbv iota.
  destruct (scan_loop_valid (Z.to_nat (maxunicode + 1 - (0 + 1))) (0 + 1)
              (maxunicode + 1) [] "Cc"%string 0)
    as (c' & l' & s' & Eq & Hv & Hs0 & Hs1); try lia.
  { constructor. }
  rewrite Eq. apply append_code_points_valid; auto; lia.
Qed.

(** C7, amended.  When the interpreter is narrower than UCS4, or when
    reading the file ends with one of the three exceptions of the [except]
    clause (an I/O error, a system error, a value error of the decoder),
    [build_unicode_categories] returns a table built from the scan of
    [get_unicodedata_categories]: it holds every two letter and general
    category name, each with an ordered list of valid proper atoms, and a
    name of the scan that is not a general category covers the code points
    that the scan gave it.  The first code point is a control character
    ([category 0 = "Cc"]). *)
Theorem build_unicode_categories_falls_back : forall file,
  0 <= maxunicode -> category 0 = "Cc"%string ->
  maxunicode < UCS4_MAXUNICODE \/
    file = LoadIOError \/ file = LoadSystemError \/ file = LoadValueError ->
  exists t,
    build_unicode_categories maxunicode category file = Return t /\
    (forall k, In k category_names ->
       exists l, lookup k t = Some l /\ ordered l /\ Forall proper l /\
                 Forall (valid_value maxunicode) l) /\
    (forall k v,
       lookup k (get_unicodedata_categories maxunicode category) = Some v ->
       ~ In k (map fst general_categories) ->
       exists l, lookup k t = Some l /\ ordered l /\
                 forall x, covers l x <-> covers v x).
Proof.
  intros file HM H0 Hfile.
  pose proof (get_unicodedata_categories_valid HM H0) as Hscan.
  set (scan := {| default_list := true;
                  entries := get_unicodedata_categories maxunicode category |}).
  assert (Hchoice :
    (if maxunicode <? UCS4_MAXUNICODE then scan
     else match file with
          | Loaded t => {| default_list := false; entries := t |}
          | _ => scan
          end) = scan).
  { destruct (Z.ltb_spec maxunicode UCS4_MAXUNICODE) as [L | L]; [reflexivity|].
    destruct Hfile as [H | [-> | [-> | ->]]]; [lia | reflexivity ..]. }
  unfold build_unicode_categories. fold scan. rewrite Hchoice.
  destruct (add_general_categories_default general_categories scan eq_refl Hscan)
    as (d & Ed & Hvd & Hmono & Hkeys & Hpres).
  rewrite Ed.
  destruct (build_subsets_valid (entries d) Hvd) as (t & Et & Hl).
  exists t. split; [exact Et|]. split.
  - intros k Hk.
    assert (Hhas : has_key k (entries d)).
    { unfold category_names in Hk. apply in_flat_map in Hk.
      destruct Hk as ([name keys] & Hin & Hk). cbn [fst snd] in Hk.
      apply (Hkeys name keys k Hin). destruct Hk as [<- | Hk]; auto. }
    unfold has_key in Hhas. destruct (lookup k (entries d)) as [v|] eqn:Ev; [|congruence].
    destruct (Hl k v Ev) as (l & El & Eu).
    destruct (UnicodeSubset_items maxunicode v (lookup_valid k v _ Hvd Ev))
      as (l' & Eu' & Ho & Hp & Hv & _).
    rewrite Eu in Eu'. injection Eu' as <-. exists l. auto.
  - intros k v Ev Hn.
    pose proof (Hpres k v Ev Hn) as Ev'.
    destruct (Hl k v Ev') as (l & El & Eu).
    destruct (UnicodeSubset_items maxunicode v (lookup_valid k v _ Hvd Ev'))
      as (l' & Eu' & Ho & _ & _ & Hc).
    rewrite Eu in Eu'. injection Eu' as <-. exists l. auto.
Qed.

End Scan.

End CategoryTable.

(** * Further properties *)

(** ** Iteration and membership *)

Lemma py_range_In a b x : In x (py_range a b) <-> a <= x < b.
Proof.
  unfold py_range. rewrite in_map_iff. split.
  - intros (k & <- & Hk). apply in_seq in Hk. lia.
  - intros H. exists (Z.to_nat (x - a)). split; [lia|]. apply in_seq. lia.
Qed.

Lemma iter_In l x : In x (__iter__ l) <-> covers l x.
Proof.
  unfold __iter__, covers. rewrite in_flat_map.
  split; intros (a & Ha & Hx); exists a; split; auto.
  - destruct a as [c | s e]; unfold inside; simpl in *.
    + destruct Hx as [<- | []]. lia.
    + apply py_range_In in Hx. lia.
  - destruct a as [c | s e]; unfold inside in Hx; simpl in *.
    + left. lia.
    + apply py_range_In. lia.
Qed.

Lemma contains_covers : forall l x,
  Forall nonempty l -> ascending l ->
  __contains__ l x = true <-> covers l x.
Proof.
  induction l as [|cp rest IH]; intros x Hne Hasc.
  - simpl. pose proof (covers_nil x). intuition discriminate.
  - inversion Hne as [|? ? Hcp Hrest]; subst. unfold nonempty in Hcp.
    pose proof (ascending_covers_above cp rest x Hrest Hasc) as Habove.
    assert (Hasc' : ascending rest) by (destruct Hasc; assumption).
    specialize (IH x Hrest Hasc').
    rewrite covers_cons. unfold inside.
    destruct cp as [c | s e]; simpl in *; rewrite ?Z.gtb_ltb.
    + destruct (Z.ltb_spec x c); [intuition (try discriminate; try lia)|].
      destruct (Z.eqb_spec c x); [intuition lia|].
      rewrite IH. intuition lia.
    + destruct (Z.ltb_spec x s); [intuition (try discriminate; try lia)|].
      destruct (Z.ltb_spec e x); [rewrite IH; intuition lia | intuition lia].
Qed.

(** X1. Membership agrees with iteration. *)
Theorem contains_iff_iterated : forall code_points code_point,
  Forall nonempty code_points -> ascending code_points ->
  __contains__ code_points code_point = true
  <-> In code_point (__iter__ code_points).
Proof.
  intros l x Hne Hasc. rewrite iter_In. apply contains_covers; assumption.
Qed.

Lemma py_range_down_rev_aux : forall n s,
  map (fun k => s + Z.of_nat n - 1 - Z.of_nat k) (seq 0 n)
  = rev (map (fun k => s + Z.of_nat k) (seq 0 n)).
Proof.
  induction n as [|n IH]; intros s; [reflexivity|].
  rewrite seq_S at 2. rewrite map_app, rev_app_distr. cbn [map rev app seq].
  f_equal; [lia|].
  rewrite <- seq_shift, map_map, <- IH. apply map_ext. intros k. lia.
Qed.

Lemma py_range_down_rev s e : py_range_down e (s - 1) = rev (py_range s (e + 1)).
Proof.
  unfold py_range_down, py_range.
  replace (Z.to_nat (e - (s - 1))) with (Z.to_nat (e + 1 - s)) by lia.
  destruct (Z.to_nat (e + 1 - s)) as [|n] eqn:En; [reflexivity|].
  rewrite <- py_range_down_rev_aux. apply map_ext. intros k. lia.
Qed.

Lemma flat_map_rev {A B} (f : A -> list B) l :
  rev (flat_map f l) = flat_map (fun a => rev (f a)) (rev l).
Proof.
  induction l as [|a l IH]; [reflexivity|].
  cbn [flat_map rev]. rewrite rev_app_distr, IH, flat_map_app. simpl.
  rewrite app_nil_r. reflexivity.
Qed.

(** X2. The descending iteration is the reverse of the ascending one. *)
Theorem reversed_is_reverse_of_iter : forall code_points,
  __reversed__ code_points = rev (__iter__ code_points).
Proof.
  intros l. unfold __reversed__, __iter__. rewrite flat_map_rev.
  apply flat_map_ext. intros [c | s e]; [reflexivity|].
  apply py_range_down_rev.
Qed.

Lemma py_range_increasing : forall n a,
  increasing (map (fun k => a + Z.of_nat k) (seq 0 n)).
Proof.
  induction n as [|n IH]; intros a; [exact I|].
  cbn [seq map]. rewrite <- seq_shift, map_map.
  specialize (IH (a + 1)).
  replace (map (fun x => a + Z.of_nat (S x)) (seq 0 n))
    with (map (fun k => a + 1 + Z.of_nat k) (seq 0 n))
    by (apply map_ext; intros k; lia).
  split; [|exact IH].
  destruct n; [exact I|]. cbn [seq map]. lia.
Qed.

Lemma increasing_app l1 l2 :
  increasing l1 -> increasing l2 ->
  (forall x y, In x l1 -> In y l2 -> x < y) ->
  increasing (l1 ++ l2).
Proof.
  induction l1 as [|x l1 IH]; intros H1 H2 H; [exact H2|].
  cbn [app]. destruct H1 as [Hx H1]. split.
  - destruct l1 as [|y l1]; cbn [app].
    + destruct l2 as [|y l2]; [exact I|]. apply H; left; reflexivity.
    + exact Hx.
  - apply IH; auto. intros a b Ha Hb. apply H; [right; exact Ha | exact Hb].
Qed.

(** X3. Iteration yields code points in increasing order. *)
Theorem iter_increasing : forall code_points,
  Forall nonempty code_points -> ascending code_points ->
  increasing (__iter__ code_points).
Proof.
  induction code_points as [|cp rest IH]; intros Hne Hasc; [exact I|].
  inversion Hne as [|? ? Hcp Hrest]; subst.
  change (__iter__ (cp :: rest))
    with (match cp with
          | Single c => [c]
          | Range s e => py_range s (e + 1)
          end ++ __iter__ rest).
  apply increasing_app.
  - destruct cp as [c | s e]; [simpl; auto | apply py_range_increasing].
  - apply IH; [exact Hrest | destruct Hasc; assumption].
  - intros x y Hx Hy. apply iter_In in Hy.
    pose proof (ascending_covers_above cp rest y Hrest Hasc Hy) as Hy'.
    destruct cp as [c | s e]; simpl in *.
    + destruct Hx as [<- | []]. lia.
    + apply py_range_In in Hx. lia.
Qed.

(** ** add and discard on ascending lists *)

Lemma ascending_tail a l : ascending (a :: l) -> ascending l.
Proof. simpl. tauto. Qed.

Lemma ascending_cons a r :
  ascending r -> Forall (fun b => hi a < lo b) r -> ascending (a :: r).
Proof.
  intros Ho Ha. simpl. split; [|exact Ho].
  destruct r as [|b r]; [exact I|]. inversion Ha; subst. assumption.
Qed.

Lemma ascending_above a l :
  Forall nonempty l -> ascending (a :: l) -> Forall (fun b => hi a < lo b) l.
Proof.
  revert a. induction l as [|b r IH]; intros a Hne Hasc; constructor.
  - simpl in Hasc. tauto.
  - inversion Hne; subst. destruct Hasc as [Hab Hr].
    assert (Hb : Forall (fun c => hi b < lo c) r) by (apply IH; assumption).
    eapply Forall_impl; [|exact Hb]. simpl. unfold nonempty in *. intros c Hc. lia.
Qed.

Section WeakOrdering.

Variable maxunicode : Z.

Lemma add_loop_ascending : forall l v,
  Forall (valid_value maxunicode) l -> ascending l -> valid_value maxunicode v ->
  Forall (valid_value maxunicode) (add_loop maxunicode (lo v) (hi v) v l) /\
  ascending (add_loop maxunicode (lo v) (hi v) v l) /\
  (forall z, z < lo v -> Forall (fun b => z < lo b) l ->
             Forall (fun b => z < lo b) (add_loop maxunicode (lo v) (hi v) v l)) /\
  (forall x, covers l x -> covers (add_loop maxunicode (lo v) (hi v) v l) x) /\
  (forall x, covers (add_loop maxunicode (lo v) (hi v) v l) x ->
             covers l x \/ inside v x).
Proof.
  induction l as [|cp rest IH]; intros v Hval Hasc Hv.
  - simpl. splits; auto.
    + intros x Hx. destruct (covers_nil x Hx).
    + intros x Hx. apply covers_cons in Hx. tauto.
  - inversion Hval as [|? ? Hcp Hrest]; subst.
    pose proof (valid_bounds maxunicode cp Hcp) as Bcp.
    pose proof (valid_bounds maxunicode v Hv) as Bv.
    pose proof (ascending_above cp rest (Forall_valid_nonempty maxunicode _ Hrest) Hasc)
      as Habove.
    pose proof (ascending_tail _ _ Hasc) as Hasc'.
    set (hl := match rest with [] => maxunicode + 1 | next :: _ => lo next end).
    assert (Hhl : hi cp < hl /\ hl <= maxunicode + 1).
    { unfold hl. destruct rest as [|nx r]; [lia|].
      inversion Hrest; subst. pose proof (valid_bounds maxunicode nx H1).
      destruct Hasc as [Hab _]. lia. }
    assert (Hhl' : Forall (fun b => hl <= lo b) rest).
    { unfold hl. destruct rest as [|nx r]; [constructor|].
      constructor; [lia|].
      inversion Hrest; subst.
      pose proof (ascending_above nx r (Forall_valid_nonempty maxunicode _ H2) Hasc') as H.
      pose proof (valid_bounds maxunicode nx H1).
      eapply Forall_impl; [|exact H]. simpl. intros; lia. }
    cbn [add_loop]. fold hl.
    destruct (lo v <? lo cp) eqn:E1.
    + apply Z.ltb_lt in E1.
      destruct ((lo v =? lo cp - 1) || (hi v >=? lo cp - 1)) eqn:E2.
      * apply orb_true_iff in E2. rewrite Z.eqb_eq, Z.geb_le in E2.
        splits.
        -- constructor; [simpl; lia | assumption].
        -- apply ascending_cons; [assumption|].
           eapply Forall_impl; [|exact Hhl']. simpl. intros; lia.
        -- intros z Hz Hall. inversion Hall; subst. constructor; [simpl; lia | assumption].
        -- intros x. rewrite !covers_cons. unfold inside. simpl. intuition lia.
        -- intros x. rewrite !covers_cons. unfold inside. simpl. intuition lia.
      * apply orb_false_iff in E2. destruct E2 as [E2 E3].
        rewrite Z.geb_leb in E3. apply Z.leb_gt in E3.
        splits.
        -- constructor; assumption.
        -- apply ascending_cons; [assumption|].
           constructor; [lia|]. eapply Forall_impl; [|exact Habove]. simpl. intros; lia.
        -- intros z Hz Hall. constructor; assumption.
        -- intros x. rewrite !covers_cons. tauto.
        -- intros x. rewrite !covers_cons. tauto.
    + apply Z.ltb_ge in E1. rewrite !Z.gtb_ltb.
      destruct (Z.ltb_spec (hi cp + 1) (lo v)) as [E2 | E2].
      * destruct (IH v Hrest Hasc' Hv) as (Hv' & Ha' & Hlb & Hc1 & Hc2).
        splits.
        -- constructor; assumption.
        -- apply ascending_cons; [assumption|]. apply Hlb; [lia | assumption].
        -- intros z Hz Hall. inversion Hall; subst. constructor; auto.
        -- intros x. rewrite !covers_cons. intros [H | H]; auto.
        -- intros x. rewrite !covers_cons. intros [H | H]; auto.
           destruct (Hc2 x H); auto.
      * destruct (Z.ltb_spec (lo cp) (hi cp)) as [E3 | E3].
        -- splits.
           ++ constructor; [simpl; lia | assumption].
           ++ apply ascending_cons; [assumption|].
              eapply Forall_impl; [|exact Hhl']. simpl. intros; lia.
           ++ intros z Hz Hall. inversion Hall; subst. constructor; [simpl; lia | assumption].
           ++ intros x. rewrite !covers_cons. unfold inside. simpl. intuition lia.
           ++ intros x. rewrite !covers_cons. unfold inside. simpl. intuition lia.
        -- destruct (Z.ltb_spec (lo cp) (hi v)) as [E4 | E4].
           ++ splits.
              ** constructor; [simpl; lia | assumption].
              ** apply ascending_cons; [assumption|].
                 eapply Forall_impl; [|exact Hhl']. simpl. intros; lia.
              ** intros z Hz Hall. inversion Hall; subst. constructor; [simpl; lia | assumption].
              ** intros x. rewrite !covers_cons. unfold inside. simpl. intuition lia.
              ** intros x. rewrite !covers_cons. unfold inside. simpl. intuition lia.
           ++ splits; auto.
Qed.

Lemma discard_loop_ascending : forall l sv ev,
  Forall (valid_value maxunicode) l -> ascending l -> sv <= ev ->
  exists l' stopped,
    discard_loop sv ev l = (l', stopped) /\
    Forall (valid_value maxunicode) l' /\
    ascending l' /\
    (forall z, Forall (fun b => z < lo b) l -> Forall (fun b => z < lo b) l') /\
    (stopped = true -> exists b, In b l /\ hi b < sv) /\
    forall x, covers l' x <-> (covers l x /\ ~ (sv <= x <= ev)).
Proof.
  induction l as [|cp rest IH]; intros sv ev Hv Ho Hse.
  - exists [], false. simpl. splits; auto.
    + discriminate.
    + intros x. pose proof (covers_nil x). tauto.
  - inversion Hv as [|? ? Hcp Hrest]; subst.
    pose proof (valid_bounds maxunicode cp Hcp) as Bcp.
    pose proof (ascending_above cp rest (Forall_valid_nonempty maxunicode _ Hrest) Ho) as Habove.
    destruct (IH sv ev Hrest (ascending_tail _ _ Ho) Hse)
      as (rest' & stopped & Eq & Hv' & Ho' & Hlb & Hstop & Hc).
    pose proof (Hlb (hi cp) Habove) as Habove'.
    assert (Hrest_above : forall x, covers rest x -> hi cp < x).
    { intros x. apply ascending_covers_above; auto.
      apply (Forall_valid_nonempty maxunicode). exact Hrest. }
    cbn [discard_loop]. rewrite Eq.
    destruct stopped.
    + exists (cp :: rest'), true. splits; auto.
      * apply ascending_cons; assumption.
      * intros z Hz. inversion Hz; subst. constructor; auto.
      * intros _. destruct (Hstop eq_refl) as (b & Hb & Hlt).
        exists b. split; [right; exact Hb | exact Hlt].
      * intros x. rewrite !covers_cons, Hc. unfold inside.
        destruct (Hstop eq_refl) as (b & Hb & Hlt).
        rewrite Forall_forall in Habove. specialize (Habove b Hb).
        rewrite Forall_forall in Hrest.
        pose proof (valid_bounds maxunicode b (Hrest b Hb)).
        intuition lia.
    + rewrite !Z.gtb_ltb, !Z.geb_leb.
      destruct (Z.ltb_spec (hi cp) sv) as [C1 | C1].
      { exists (cp :: rest'), true. splits; auto.
        - apply ascending_cons; assumption.
        - intros z Hz. inversion Hz; subst. constructor; auto.
        - intros _. exists cp. split; [left; reflexivity | exact C1].
        - intros x. rewrite !covers_cons, Hc. unfold inside. intuition lia. }
      destruct (Z.leb_spec (hi cp) ev) as [C2 | C2].
      { destruct (Z.leb_spec sv (lo cp)) as [C3 | C3].
        - exists rest', false. splits; auto.
          + intros z Hz. inversion Hz; subst. auto.
          + discriminate.
          + intros x. rewrite !covers_cons, Hc. unfold inside. intuition lia.
        - destruct (Z.ltb_spec 1 (sv - lo cp)) as [C4 | C4].
          + exists (Range (lo cp) (sv - 1) :: rest'), false. splits; auto.
            * constructor; [simpl; lia | assumption].
            * apply ascending_cons; [assumption|].
              eapply Forall_impl; [|exact Habove']. simpl. intros; lia.
            * intros z Hz. inversion Hz; subst. constructor; auto.
            * discriminate.
            * intros x. rewrite !covers_cons, Hc. unfold inside. simpl.
              specialize (Hrest_above x). intuition lia.
          + exists (Single (lo cp) :: rest'), false. splits; auto.
            * constructor; [simpl; lia | assumption].
            * apply ascending_cons; [assumption|].
              eapply Forall_impl; [|exact Habove']. simpl. intros; lia.
            * intros z Hz. inversion Hz; subst. constructor; auto.
            * discriminate.
            * intros x. rewrite !covers_cons, Hc. unfold inside. simpl.
              specialize (Hrest_above x). intuition lia. }
      destruct (Z.leb_spec (lo cp) ev) as [C5 | C5].
      { destruct (Z.leb_spec sv (lo cp)) as [C3 | C3].
        - destruct (Z.ltb_spec 1 (hi cp - ev)) as [C6 | C6].
          + exists (Range (ev + 1) (hi cp) :: rest'), false. splits; auto.
            * constructor; [simpl; lia | assumption].
            * apply ascending_cons; [assumption|].
              eapply Forall_impl; [|exact Habove']. simpl. intros; lia.
            * intros z Hz. inversion Hz; subst. constructor; auto. simpl. lia.
            * discriminate.
            * intros x. rewrite !covers_cons, Hc. unfold inside. simpl.
              specialize (Hrest_above x). intuition lia.
          + exists (Single (hi cp) :: rest'), false. splits; auto.
            * constructor; [simpl; lia | assumption].
            * apply ascending_cons; [assumption|].
              eapply Forall_impl; [|exact Habove']. simpl. intros; lia.
            * intros z Hz. inversion Hz; subst. constructor; auto. simpl. lia.
            * discriminate.
            * intros x. rewrite !covers_cons, Hc. unfold inside. simpl.
              specialize (Hrest_above x). intuition lia.
        - set (upper := if 1 <? hi cp - ev then Range (ev + 1) (hi cp) else Single (hi cp)).
          set (lower := if 1 <? sv - lo cp then Range (lo cp) (sv - 1) else Single (lo cp)).
          assert (Hu : lo upper = ev + 1 /\ hi upper = hi cp).
          { unfold upper. destruct (Z.ltb_spec 1 (hi cp - ev)); simpl; lia. }
          assert (Hl : lo lower = lo cp /\ hi lower = sv - 1).
          { unfold lower. destruct (Z.ltb_spec 1 (sv - lo cp)); simpl; lia. }
          assert (Vu : valid_value maxunicode upper).
          { unfold upper. destruct (Z.ltb_spec 1 (hi cp - ev)); simpl; lia. }
          assert (Vl : valid_value maxunicode lower).
          { unfold lower. destruct (Z.ltb_spec 1 (sv - lo cp)); simpl; lia. }
          exists (lower :: upper :: rest'), false. splits; auto.
          + apply ascending_cons; [apply ascending_cons; [assumption|]|].
            * eapply Forall_impl; [|exact Habove']. simpl. intros; lia.
            * constructor; [lia|].
              eapply Forall_impl; [|exact Habove']. simpl. intros; lia.
          + intros z Hz. inversion Hz; subst. constructor; [lia|].
            constructor; [lia | auto].
          + discriminate.
          + intros x. rewrite !covers_cons, Hc. unfold inside.
            specialize (Hrest_above x). intuition lia. }
      exists (cp :: rest'), false. splits; auto.
      * apply ascending_cons; assumption.
      * intros z Hz. inversion Hz; subst. constructor; auto.
      * discriminate.
      * intros x. rewrite !covers_cons, Hc. unfold inside. intuition lia.
Qed.

Lemma discard_loop_proper : forall l sv ev,
  Forall proper l -> Forall proper (fst (discard_loop sv ev l)).
Proof.
  induction l as [|cp rest IH]; intros sv ev Hp; [constructor|].
  inversion Hp as [|? ? Hcp Hrest]; subst. specialize (IH sv ev Hrest).
  cbn [discard_loop]. destruct (discard_loop sv ev rest) as [rest' stopped].
  cbn [fst] in IH. destruct stopped; [constructor; assumption|].
  rewrite !Z.gtb_ltb, !Z.geb_leb.
  destruct (Z.ltb_spec (hi cp) sv); [constructor; assumption|].
  destruct (Z.leb_spec (hi cp) ev).
  - destruct (Z.leb_spec sv (lo cp)); [assumption|].
    destruct (Z.ltb_spec 1 (sv - lo cp)); constructor; simpl; auto; lia.
  - destruct (Z.leb_spec (lo cp) ev); [|constructor; assumption].
    destruct (Z.leb_spec sv (lo cp)).
    + destruct (Z.ltb_spec 1 (hi cp - ev)); constructor; simpl; auto; lia.
    + cbn [fst]. constructor.
      * destruct (Z.ltb_spec 1 (sv - lo cp)); simpl; auto; lia.
      * constructor; [|assumption].
        destruct (Z.ltb_spec 1 (hi cp - ev)); simpl; auto; lia.
Qed.

Lemma add_valid_ascending l v :
  Forall (valid_value maxunicode) l -> ascending l -> valid_value maxunicode v ->
  exists l',
    add maxunicode l v = (l', None) /\
    Forall (valid_value maxunicode) l' /\ ascending l'.
Proof.
  intros Hl Ha Hv. rewrite (add_valid maxunicode l v Hv).
  destruct (add_loop_ascending l v Hl Ha Hv) as (H1 & H2 & _).
  eexists. split; [reflexivity|]. auto.
Qed.

Lemma discard_valid_ascending l v :
  Forall (valid_value maxunicode) l -> ascending l -> valid_value maxunicode v ->
  exists l',
    discard maxunicode l v = (l', None) /\
    Forall (valid_value maxunicode) l' /\ ascending l'.
Proof.
  intros Hl Ha Hv. rewrite (discard_valid maxunicode l v Hv).
  pose proof (valid_bounds maxunicode v Hv) as Bv.
  destruct (discard_loop_ascending l (lo v) (hi v) Hl Ha)
    as (l' & stopped & Eq & Hv' & Ha' & _); [lia|].
  exists l'. rewrite Eq. auto.
Qed.

(** X4. [add] of a valid value keeps an ascending list of valid atoms
    ascending and valid; it removes no code point and adds only code points
    of the value. *)
Theorem add_keeps_ascending : forall code_points value,
  Forall (valid_value maxunicode) code_points -> ascending code_points ->
  valid_value maxunicode value ->
  exists code_points',
    add maxunicode code_points value = (code_points', None) /\
    Forall (valid_value maxunicode) code_points' /\
    ascending code_points' /\
    (forall x, covers code_points x -> covers code_points' x) /\
    (forall x, covers code_points' x -> covers code_points x \/ inside value x).
Proof.
  intros l v Hl Ha Hv. rewrite (add_valid maxunicode l v Hv).
  destruct (add_loop_ascending l v Hl Ha Hv) as (H1 & H2 & _ & H3 & H4).
  eexists. split; [reflexivity|]. auto.
Qed.

(** X5. [discard] of a valid value removes exactly the code points of the
    value and keeps the list valid and ascending; an ordered list stays
    ordered and proper atoms stay proper. *)
Theorem discard_removes_exactly : forall code_points value,
  Forall (valid_value maxunicode) code_points -> ascending code_points ->
  valid_value maxunicode value ->
  exists code_points',
    discard maxunicode code_points value = (code_points', None) /\
    Forall (valid_value maxunicode) code_points' /\
    ascending code_points' /\
    (ordered code_points -> ordered code_points') /\
    (Forall proper code_points -> Forall proper code_points') /\
    forall x, covers code_points' x <-> (covers code_points x /\ ~ inside value x).
Proof.
  intros l v Hl Ha Hv. rewrite (discard_valid maxunicode l v Hv).
  pose proof (valid_bounds maxunicode v Hv) as Bv.
  destruct (discard_loop_ascending l (lo v) (hi v) Hl Ha)
    as (l' & stopped & Eq & Hv' & Ha' & _ & _ & Hc); [lia|].
  exists l'. rewrite Eq. cbn [fst]. splits; auto.
  - intros Ho.
    destruct (discard_loop_spec maxunicode l (lo v) (hi v) Hl Ho)
      as (l2 & st2 & Eq2 & _ & Ho2 & _); [lia|].
    rewrite Eq in Eq2. injection Eq2 as <- <-. exact Ho2.
  - intros Hp. pose proof (discard_loop_proper l (lo v) (hi v) Hp) as H.
    rewrite Eq in H. exact H.
Qed.

(** X6. Any sequence of valid calls of [add] and [discard] raises nothing and
    keeps the atoms valid and ascending: increasing and without overlap. *)
Theorem calls_keep_ascending : forall calls code_points,
  Forall (valid_value maxunicode) code_points -> ascending code_points ->
  Forall (call_valid maxunicode) calls ->
  exists code_points',
    run_calls maxunicode code_points calls = (code_points', None) /\
    Forall (valid_value maxunicode) code_points' /\
    ascending code_points'.
Proof.
  induction calls as [|c cs IH]; intros l Hl Ha Hcs.
  - exists l. simpl. auto.
  - inversion Hcs as [|? ? Hc Hcs']; subst. cbn [run_calls].
    destruct c as [v | v]; cbn [run_call]; simpl in Hc.
    + destruct (add_valid_ascending l v Hl Ha Hc) as (l1 & E1 & V1 & A1).
      rewrite E1. apply IH; assumption.
    + destruct (discard_valid_ascending l v Hl Ha Hc) as (l1 & E1 & V1 & A1).
      rewrite E1. apply IH; assumption.
Qed.

End WeakOrdering.

(** ** add followed by discard *)

Lemma ordered_middle before a b after :
  ordered (before ++ a :: b :: after) -> hi a + 1 < lo b.
Proof.
  induction before as [|c before IH]; intros H.
  - simpl in H. tauto.
  - apply IH. exact (ordered_tail _ _ H).
Qed.

Lemma discard_loop_above : forall after sv ev,
  sv <= ev -> Forall nonempty after -> Forall (fun a => ev < lo a) after ->
  discard_loop sv ev after = (after, false).
Proof.
  induction after as [|a after IH]; intros sv ev Hse Hne Hab; [reflexivity|].
  inversion Hne as [|? ? Ha Hne']; subst. inversion Hab as [|? ? Hev Hab']; subst.
  unfold nonempty in Ha. cbn [discard_loop]. rewrite IH by assumption.
  rewrite !Z.gtb_ltb, !Z.geb_leb.
  destruct (Z.ltb_spec (hi a) sv); [lia|].
  destruct (Z.leb_spec (hi a) ev); [lia|].
  destruct (Z.leb_spec (lo a) ev); [lia|]. reflexivity.
Qed.

Lemma discard_loop_restores : forall before v after,
  nonempty v -> Forall nonempty after ->
  Forall (fun a => hi v < lo a) after ->
  Forall (fun b => hi b < lo v) before ->
  fst (discard_loop (lo v) (hi v) (before ++ v :: after)) = before ++ after.
Proof.
  unfold nonempty at 1.
  induction before as [|b before IH]; intros v after Hv Hne Hab Hbe.
  - cbn [app discard_loop]. rewrite discard_loop_above by assumption.
    rewrite !Z.gtb_ltb, !Z.geb_leb.
    destruct (Z.ltb_spec (hi v) (lo v)); [lia|].
    destruct (Z.leb_spec (hi v) (hi v)); [|lia].
    destruct (Z.leb_spec (lo v) (lo v)); [|lia]. reflexivity.
  - inversion Hbe as [|? ? Hb Hbe']; subst.
    specialize (IH v after Hv Hne Hab Hbe').
    cbn [app discard_loop].
    destruct (discard_loop (lo v) (hi v) (before ++ v :: after)) as [r st].
    cbn [fst] in IH. subst r. destruct st; [reflexivity|].
    rewrite Z.gtb_ltb. destruct (Z.ltb_spec (hi b) (lo v)); [reflexivity | lia].
Qed.

Section Composition.

Variable maxunicode : Z.

(** X7. On an ordered list of valid atoms, adding a valid value that is apart
    from every atom and then discarding it gives the list back. *)
Theorem add_then_discard_restores : forall code_points value,
  Forall (valid_value maxunicode) code_points -> ordered code_points ->
  valid_value maxunicode value -> Forall (apart value) code_points ->
  run_calls maxunicode code_points [CallAdd value; CallDiscard value]
  = (code_points, None).
Proof.
  intros l v Hl Ho Hv Hap.
  pose proof (valid_nonempty maxunicode v Hv) as Nv.
  cbn [run_calls run_call]. rewrite (add_valid maxunicode l v Hv).
  destruct (add_loop_cases maxunicode l v Hl Ho Nv)
    as [(before & after & El & Eadd & Hb & Ha & _)
       | (before & cp & merged & after & El & _ & _ & Hnot & _)].
  - rewrite Eadd, (discard_valid maxunicode _ v Hv).
    rewrite discard_loop_restores.
    + subst l. reflexivity.
    + exact Nv.
    + apply (Forall_valid_nonempty maxunicode). subst l.
      apply Forall_app in Hl. tauto.
    + eapply Forall_impl; [|exact Ha]. simpl. intros; lia.
    + eapply Forall_impl; [|exact Hb]. simpl. intros; lia.
  - exfalso. apply Hnot. rewrite Forall_forall in Hap. apply Hap.
    subst l. apply in_or_app. right. left. reflexivity.
Qed.

(** X8. On an ordered list of valid atoms, [add] of a valid value that
    touches at most one atom yields exactly the union. *)
Theorem add_union_when_touching_one : forall code_points value,
  Forall (valid_value maxunicode) code_points -> ordered code_points ->
  valid_value maxunicode value ->
  (forall a b, In a code_points -> In b code_points ->
               ~ apart value a -> ~ apart value b -> a = b) ->
  forall x,
    covers (fst (add maxunicode code_points value)) x
    <-> (covers code_points x \/ inside value x).
Proof.
  intros l v Hl Ho Hv Hone x.
  pose proof (valid_nonempty maxunicode v Hv) as Nv.
  pose proof (valid_bounds maxunicode v Hv) as Bv.
  rewrite (add_valid maxunicode l v Hv). cbn [fst].
  destruct (add_loop_cases maxunicode l v Hl Ho Nv)
    as [(before & after & El & Eadd & _)
       | (before & cp & merged & after & El & Eadd & _ & Hnot & Hlo & Hhi)].
  - rewrite Eadd. subst l. rewrite !covers_app, covers_cons. tauto.
  - rewrite Eadd. subst l. rewrite !covers_app, !covers_cons.
    assert (Hcp : valid_value maxunicode cp).
    { rewrite Forall_forall in Hl. apply Hl. apply in_or_app. right. left. reflexivity. }
    pose proof (valid_bounds maxunicode cp Hcp) as Bcp.
    assert (Hclamp : hi v <= clamp_bound maxunicode after).
    { destruct after as [|nx after]; simpl; [lia|].
      pose proof (ordered_middle before cp nx after Ho) as Hgap.
      assert (Hnx : valid_value maxunicode nx).
      { rewrite Forall_forall in Hl. apply Hl. apply in_or_app. right. right. left.
        reflexivity. }
      pose proof (valid_bounds maxunicode nx Hnx) as Bnx.
      destruct (Z.le_gt_cases (hi v + 1) (lo nx - 1)) as [H | H]; [lia|].
      assert (Heq : cp = nx).
      { apply Hone.
        - apply in_or_app. right. left. reflexivity.
        - apply in_or_app. right. right. left. reflexivity.
        - exact Hnot.
        - unfold apart in *. lia. }
      subst nx. lia. }
    unfold apart in Hnot. unfold inside. rewrite Hlo, Hhi.
    intuition lia.
Qed.

(** X9. [UnicodeSubset(items)] for valid items raises nothing; its atoms are
    ordered, proper and valid and cover exactly the code points of the
    items. *)
Theorem UnicodeSubset_normalizes : forall items,
  Forall (valid_value maxunicode) items ->
  exists code_points,
    UnicodeSubset maxunicode (Items (items, None)) = Return code_points /\
    ordered code_points /\ Forall proper code_points /\
    Forall (valid_value maxunicode) code_points /\
    forall x, covers code_points x <-> covers items x.
Proof. intros items Hv. exact (UnicodeSubset_items maxunicode items Hv). Qed.

(** X10. A copy of a subset with valid, ordered and proper atoms has the same
    atoms. *)
Theorem copy_has_same_atoms : forall code_points,
  Forall (valid_value maxunicode) code_points -> ordered code_points ->
  Forall proper code_points ->
  copy maxunicode code_points = Return code_points.
Proof. intros l Hv Ho Hp. exact (copy_canonical maxunicode l Hv Ho Hp). Qed.

End Composition.

(** ** iter_code_points in descending order *)

Lemma iter_loop_descending : forall items ps pe,
  ps <= pe -> Forall nonempty items -> key_sorted hi true items ->
  Forall (fun a => hi a <= pe) items ->
  exists first r,
    iter_loop true (Some (ps, pe)) items = first :: r /\
    hi first = pe /\
    descending (first :: r) /\
    Forall proper (first :: r) /\
    forall x, covers (first :: r) x <-> (ps <= x <= pe \/ covers items x).
Proof.
  induction items as [|cp rest IH]; intros ps pe Hp Hne Hs Hub.
  - exists (pending_item ps pe), []. simpl. splits; auto.
    + apply pending_item_hi. assumption.
    + constructor; [apply pending_item_proper | constructor].
    + intros x. rewrite covers_cons, pending_item_inside by assumption.
      pose proof (covers_nil x). tauto.
  - inversion Hne as [|? ? Hcp Hrest]; subst.
    inversion Hub as [|? ? Hucp Hurest]; subst.
    destruct Hs as [Hcprest Hsrest]. unfold nonempty in Hcp.
    cbn [iter_loop].
    destruct (Z.leb_spec (ps - 1) (hi cp)) as [Hm | Hm].
    + destruct (IH (Z.min ps (lo cp)) pe)
        as (first & r & Eq & Hhi & Hd & Hpr & Hc); auto; try lia.
      exists first, r. splits; auto.
      intros x. rewrite Hc, covers_cons. unfold inside. intuition lia.
    + destruct (IH (lo cp) (hi cp))
        as (first & r & Eq & Hhi & Hd & Hpr & Hc); auto; try lia.
      exists (pending_item ps pe), (first :: r). rewrite Eq.
      splits; auto.
      * apply pending_item_hi. assumption.
      * split; [|exact Hd]. rewrite pending_item_lo. lia.
      * constructor; [apply pending_item_proper | assumption].
      * intros x. rewrite covers_cons, pending_item_inside by assumption.
        rewrite Hc, covers_cons. unfold inside. intuition lia.
Qed.

Lemma iter_code_points_ascending items :
  Forall nonempty items ->
  ordered (iter_code_points items false) /\
  Forall proper (iter_code_points items false) /\
  forall x, covers (iter_code_points items false) x <-> covers items x.
Proof.
  intros Hne. unfold iter_code_points.
  pose proof (sorted_key_sorted lo false items) as Hs.
  pose proof (sorted_Forall nonempty lo false items Hne) as Hn.
  assert (Hc : forall x, covers (sorted lo false items) x <-> covers items x).
  { intros x. apply covers_same_items. intros a. apply sorted_In. }
  destruct (sorted lo false items) as [|cp rest].
  - simpl. splits; auto.
  - inversion Hn as [|? ? Hcp Hrest]; subst. destruct Hs as [Hfirst Hs].
    cbn [iter_loop].
    destruct (iter_loop_forward rest (lo cp) (hi cp))
      as (first & r & Eq & _ & Ho & _ & Hpr & _ & Hcov); auto.
    rewrite Eq. splits; auto.
    intros x. rewrite Hcov, <- Hc, covers_cons. unfold inside. tauto.
Qed.

Lemma iter_code_points_descending items :
  Forall nonempty items ->
  descending (iter_code_points items true) /\
  Forall proper (iter_code_points items true) /\
  forall x, covers (iter_code_points items true) x <-> covers items x.
Proof.
  intros Hne. unfold iter_code_points.
  pose proof (sorted_key_sorted hi true items) as Hs.
  pose proof (sorted_Forall nonempty hi true items Hne) as Hn.
  assert (Hc : forall x, covers (sorted hi true items) x <-> covers items x).
  { intros x. apply covers_same_items. intros a. apply sorted_In. }
  destruct (sorted hi true items) as [|cp rest].
  - simpl. splits; auto.
  - inversion Hn as [|? ? Hcp Hrest]; subst. destruct Hs as [Hfirst Hs].
    cbn [iter_loop].
    destruct (iter_loop_descending rest (lo cp) (hi cp))
      as (first & r & Eq & _ & Hd & Hpr & Hcov); auto; try lia.
    rewrite Eq. splits; auto.
    intros x. rewrite Hcov, <- Hc, covers_cons. unfold inside. tauto.
Qed.

(** X12. With [reverse=True], [iter_code_points] yields the atoms of
    [reverse=False] in the opposite order. *)
Theorem iter_code_points_reverse_of_forward : forall items,
  Forall nonempty items ->
  iter_code_points items true = rev (iter_code_points items false) /\
  descending (iter_code_points items true) /\
  forall x, covers (iter_code_points items true) x <-> covers items x.
Proof.
  intros items Hne.
  destruct (iter_code_points_descending items Hne) as (Hd & Hp & Hc).
  destruct (iter_code_points_ascending items Hne) as (Ho' & Hp' & Hc').
  splits; auto.
  rewrite <- (rev_involutive (iter_code_points items true)). f_equal.
  apply canonical_unique; auto.
  - rewrite <- (app_nil_r (rev _)). apply descending_rev_ordered; simpl; auto.
    destruct (iter_code_points items true); exact I.
  - apply Forall_rev. exact Hp.
  - intros x. rewrite covers_rev, Hc, Hc'. tauto.
Qed.

(** ** The parser on a text without hyphens, backslashes and brackets *)

Lemma parse_loop_plain_text : forall rest s expand i char,
  Forall plain_char rest ->
  parse_loop s expand i rest false char = (map Single rest, None).
Proof.
  induction rest as [|c rest IH]; intros s expand i char Hp; [reflexivity|].
  inversion Hp as [|? ? Hc Hrest]; subst. destruct Hc as (H45 & H92 & Hbr).
  cbn [parse_loop map].
  destruct (Z.eqb_spec c 45); [contradiction|].
  rewrite Hbr. destruct (Z.eqb_spec c 92); [contradiction|].
  destruct (in_chars c metacharacters); rewrite IH by assumption; reflexivity.
Qed.

(** X13. A text without hyphens, backslashes and square brackets is parsed,
    with or without expansion, into its characters, one token each. *)
Theorem parse_plain_text : forall s expand_ranges,
  Forall plain_char s ->
  parse_character_group s expand_ranges = (map Single s, None).
Proof.
  intros s expand Hp. destruct s as [|c rest]; [reflexivity|].
  inversion Hp as [|? ? Hc Hrest]; subst. destruct Hc as (H45 & H92 & Hbr).
  unfold parse_character_group.
  destruct (Z.eqb_spec c 92); [contradiction|].
  rewrite Hbr. cbn [andb].
  rewrite parse_loop_plain_text by assumption.
  destruct expand; [reflexivity|].
  assert (Hhead : negb match rest with c1 :: _ => c1 =? 45 | [] => false end = true).
  { destruct rest as [|c1 rest']; [reflexivity|].
    inversion Hrest as [|? ? (N45 & _) _]; subst.
    apply negb_true_iff, Z.eqb_neq. exact N45. }
  rewrite Hhead, orb_true_r. reflexivity.
Qed.

(** ** The order of the complement *)

Section ComplementOrder.

Variable maxunicode : Z.

Lemma complement_end_ascending last :
  exists out,
    complement_end maxunicode last = (out, None) /\
    ascending out /\ Forall (fun b => last <= lo b) out.
Proof.
  unfold complement_end.
  destruct (Z.eqb_spec last maxunicode).
  - eexists. split; [reflexivity|]. split; [simpl; auto|].
    constructor; [simpl; lia | constructor].
  - destruct (Z.ltb_spec last maxunicode).
    + eexists. split; [reflexivity|]. split; [simpl; auto|].
      constructor; [simpl; lia | constructor].
    + eexists. split; [reflexivity|]. split; [exact I | constructor].
Qed.

Lemma complement_loop_ascending : forall l last,
  Forall nonempty l -> snd (complement_loop maxunicode last l) = None ->
  ascending (fst (complement_loop maxunicode last l)) /\
  Forall (fun b => last <= lo b) (fst (complement_loop maxunicode last l)).
Proof.
  induction l as [|a rest IH]; intros last Hne Hnone.
  - cbn [complement_loop]. destruct (complement_end_ascending last) as (out & Eq & H).
    rewrite Eq. exact H.
  - inversion Hne as [|? ? Ha Hrest]; subst. unfold nonempty in Ha.
    cbn [complement_loop] in *.
    destruct (last >? maxunicode).
    + destruct (complement_end_ascending last) as (out & Eq & H).
      rewrite Eq. exact H.
    + rewrite Z.gtb_ltb in *.
      destruct (Z.ltb_spec 2 (lo a - last)) as [D3 | D3].
      { cbn [yield fst snd] in *. destruct (IH (hi a + 1) Hrest Hnone) as [Hasc Hlb].
        split.
        - apply ascending_cons; [exact Hasc|].
          eapply Forall_impl; [|exact Hlb]. simpl. intros; lia.
        - constructor; [simpl; lia|].
          eapply Forall_impl; [|exact Hlb]. simpl. intros; lia. }
      destruct (Z.eqb_spec (lo a - last) 2) as [D2 | D2].
      { cbn [yield fst snd] in *. destruct (IH (hi a + 1) Hrest Hnone) as [Hasc Hlb].
        split.
        - apply ascending_cons; [apply ascending_cons; [exact Hasc|]|].
          + eapply Forall_impl; [|exact Hlb]. simpl. intros; lia.
          + constructor; [simpl; lia|].
            eapply Forall_impl; [|exact Hlb]. simpl. intros; lia.
        - constructor; [simpl; lia|]. constructor; [simpl; lia|].
          eapply Forall_impl; [|exact Hlb]. simpl. intros; lia. }
      destruct (Z.eqb_spec (lo a - last) 1) as [D1 | D1].
      { cbn [yield fst snd] in *. destruct (IH (hi a + 1) Hrest Hnone) as [Hasc Hlb].
        split.
        - apply ascending_cons; [exact Hasc|].
          eapply Forall_impl; [|exact Hlb]. simpl. intros; lia.
        - constructor; [simpl; lia|].
          eapply Forall_impl; [|exact Hlb]. simpl. intros; lia. }
      destruct (Z.eqb_spec (lo a - last) 0) as [D0 | D0]; [|discriminate].
      cbn [negb] in *. destruct (IH (hi a + 1) Hrest Hnone) as [Hasc Hlb].
      split; [exact Hasc|].
      eapply Forall_impl; [|exact Hlb]. simpl. intros; lia.
Qed.

(** X11. The complement of an ascending list of valid atoms raises nothing and
    yields valid atoms in ascending order that cover exactly the code points
    of [0, maxunicode] absent from the list. *)
Theorem complement_yields_absent_code_points : forall code_points,
  Forall (valid_value maxunicode) code_points -> ascending code_points ->
  exists items,
    complement maxunicode code_points = (items, None) /\
    Forall (valid_value maxunicode) items /\
    ascending items /\
    forall x, covers items x
              <-> (0 <= x <= maxunicode /\ ~ covers code_points x).
Proof.
  intros l Hv Ha.
  destruct (complement_covers maxunicode l Hv Ha) as (out & Eq & Hvo & Hc).
  exists out. splits; auto.
  pose proof (complement_loop_ascending l 0 (Forall_valid_nonempty maxunicode l Hv)) as H.
  unfold complement in Eq. rewrite Eq in H. apply H. reflexivity.
Qed.

End ComplementOrder.

(** ** The scan of the categories *)

Lemma table_get_store k k' v t :
  table_get k (store k' v t) = if String.eqb k k' then v else table_get k t.
Proof.
  unfold table_get. rewrite lookup_store. destruct (String.eqb k k'); reflexivity.
Qed.

Lemma table_get_append_item k k' a t :
  table_get k (append_item t k' a)
  = if String.eqb k k' then table_get k t ++ [a] else table_get k t.
Proof.
  unfold append_item. destruct (lookup k' t) as [v|] eqn:E;
    rewrite table_get_store; destruct (String.eqb_spec k k') as [-> | N];
    try reflexivity; unfold table_get; rewrite E; reflexivity.
Qed.

Lemma covers_append_item k k' a t x :
  covers (table_get k (append_item t k' a)) x
  <-> (covers (table_get k t) x \/ (k = k' /\ inside a x)).
Proof.
  rewrite table_get_append_item. destruct (String.eqb_spec k k') as [-> | N].
  - rewrite covers_app, covers_cons. pose proof (covers_nil x). tauto.
  - tauto.
Qed.

Lemma covers_append_code_points k t last_category start_cp cp x :
  covers (table_get k (append_code_points t last_category start_cp cp)) x
  <-> (covers (table_get k t) x
       \/ (k = last_category /\ start_cp <= x <= cp - 1)).
Proof.
  unfold append_code_points.
  destruct (Z.eqb_spec (cp - start_cp) 1).
  - rewrite covers_append_item. unfold inside. simpl.
    assert (A : start_cp <= x <= start_cp <-> start_cp <= x <= cp - 1) by lia.
    tauto.
  - destruct (Z.eqb_spec (cp - start_cp) 2).
    + rewrite !covers_append_item. unfold inside. simpl.
      assert (A : (start_cp <= x <= start_cp \/ start_cp + 1 <= x <= start_cp + 1)
                  <-> start_cp <= x <= cp - 1) by lia.
      tauto.
    + rewrite covers_append_item. unfold inside. simpl. tauto.
Qed.

Section ScanPartition.

Variable maxunicode : Z.
Variable category : Z -> string.

Lemma scan_loop_partition : forall n a b t last_category start_cp,
  Z.to_nat (b - a) = n -> 0 <= start_cp <= a ->
  (forall k x, covers (table_get k t) x <-> (0 <= x < start_cp /\ category x = k)) ->
  (forall x, start_cp <= x < a -> category x = last_category) ->
  exists t' last' start',
    scan_loop category (py_range a b) t last_category start_cp
    = (t', last', start') /\
    0 <= start' <= Z.max a b /\
    (forall k x, covers (table_get k t') x <-> (0 <= x < start' /\ category x = k)) /\
    (forall x, start' <= x < Z.max a b -> category x = last').
Proof.
  induction n as [|n IH]; intros a b t last_category start_cp Hn Hs Hc Hl.
  - rewrite py_range_nil by lia. exists t, last_category, start_cp.
    replace (Z.max a b) with a by lia. auto.
  - rewrite py_range_cons by lia. cbn [scan_loop].
    destruct (String.eqb_spec (category a) last_category) as [E | N]; cbn [negb].
    + destruct (IH (a + 1) b t last_category start_cp) as (t' & l' & s' & Eq & H1 & H2 & H3);
        auto; try lia.
      { intros x Hx. destruct (Z.eq_dec x a) as [-> | Na]; [exact E | apply Hl; lia]. }
      exists t', l', s'. replace (Z.max a b) with (Z.max (a + 1) b) by lia. auto.
    + destruct (IH (a + 1) b (append_code_points t last_category start_cp a)
                  (category a) a) as (t' & l' & s' & Eq & H1 & H2 & H3); auto; try lia.
      { intros k x. rewrite covers_append_code_points, Hc. split.
        - intros [H | [-> H]]; [intuition lia|]. split; [lia | apply Hl; lia].
        - intros [H <-]. destruct (Z.lt_ge_cases x start_cp); [left; split; [lia | reflexivity]|].
          right. split; [apply Hl; lia | lia]. }
      { intros x Hx. replace x with a by lia. reflexivity. }
      exists t', l', s'. replace (Z.max a b) with (Z.max (a + 1) b) by lia. auto.
Qed.

Lemma scan_partition :
  0 <= maxunicode ->
  forall k x,
    covers (table_get k (get_unicodedata_categories maxunicode category)) x
    <-> (0 <= x <= maxunicode /\ category x = k).
Proof.
  intros HM k x. unfold get_unicodedata_categories.
  rewrite py_range_last by lia.
  destruct (scan_loop_partition (Z.to_nat (maxunicode + 1 - 0)) 0 (maxunicode + 1)
              [] "Cc"%string 0) as (t' & l' & s' & Eq & H1 & H2 & H3); auto; try lia.
  { intros k0 x0. pose proof (covers_nil x0). unfold table_get. simpl. intuition lia. }
  rewrite Eq, covers_append_code_points, H2.
  replace (Z.max 0 (maxunicode + 1)) with (maxunicode + 1) in * by lia.
  split.
  - intros [H | [-> H]]; [intuition lia|]. split; [lia | apply H3; lia].
  - intros [H <-]. destruct (Z.lt_ge_cases x s'); [left; split; [lia | reflexivity]|].
    right. split; [apply H3; lia | lia].
Qed.

(** X15. The scan gives every code point of [0, maxunicode] to the list of its
    category and to no other list. *)
Theorem get_unicodedata_categories_partition :
  0 <= maxunicode ->
  forall k x,
    covers (table_get k (get_unicodedata_categories maxunicode category)) x
    <-> (0 <= x <= maxunicode /\ category x = k).
Proof. exact scan_partition. Qed.

End ScanPartition.

(** ** The values of the general categories *)

Lemma getitem_default_value d k :
  default_list d = true ->
  exists d',
    getitem d k = (d', Return (table_get k (entries d))) /\
    default_list d' = true /\
    (forall k0, table_get k0 (entries d') = table_get k0 (entries d)) /\
    (forall k0 v0, lookup k0 (entries d) = Some v0 -> lookup k0 (entries d') = Some v0).
Proof.
  intros Hd. unfold getitem, table_get. destruct (lookup k (entries d)) as [v|] eqn:E.
  - exists d. auto.
  - rewrite Hd. eexists. split; [reflexivity|]. cbn [default_list entries].
    splits; auto.
    + intros k0. rewrite lookup_store.
      destruct (String.eqb_spec k0 k) as [-> | N]; [rewrite E|]; reflexivity.
    + intros k0 v0 H0. rewrite lookup_store.
      destruct (String.eqb_spec k0 k) as [-> | N]; [congruence | exact H0].
Qed.

Lemma concatenation_value : forall keys d acc,
  default_list d = true ->
  exists d',
    concatenation d keys acc
    = (d', Return (acc ++ flat_map (fun k => table_get k (entries d)) keys)) /\
    default_list d' = true /\
    (forall k0, table_get k0 (entries d') = table_get k0 (entries d)) /\
    (forall k0 v0, lookup k0 (entries d) = Some v0 -> lookup k0 (entries d') = Some v0).
Proof.
  induction keys as [|k keys IH]; intros d acc Hd; cbn [concatenation flat_map].
  - exists d. rewrite app_nil_r. auto.
  - destruct (getitem_default_value d k Hd) as (d1 & E1 & Hd1 & Hg1 & Hp1).
    rewrite E1.
    destruct (IH d1 (acc ++ table_get k (entries d)) Hd1) as (d2 & E2 & Hd2 & Hg2 & Hp2).
    exists d2. rewrite E2. splits; auto.
    + rewrite <- app_assoc. do 4 f_equal.
      apply flat_map_ext. intros k0. apply Hg1.
    + intros k0. rewrite Hg2. apply Hg1.
Qed.

Lemma flat_map_ext_on {A B} (f g : A -> list B) l :
  (forall a, In a l -> f a = g a) -> flat_map f l = flat_map g l.
Proof.
  induction l as [|a l IH]; intros H; [reflexivity|].
  cbn [flat_map]. rewrite (H a) by (left; reflexivity).
  rewrite IH; [reflexivity|]. intros b Hb. apply H. right. exact Hb.
Qed.

Lemma add_general_categories_values : forall general d,
  default_list d = true ->
  NoDup (map fst general) ->
  (forall name keys k,
      In (name, keys) general -> In k keys -> ~ In k (map fst general)) ->
  exists d',
    add_general_categories d general = Return d' /\
    (forall name keys,
        In (name, keys) general ->
        lookup name (entries d')
        = Some (flat_map (fun k => table_get k (entries d)) keys)) /\
    (forall k0, ~ In k0 (map fst general) ->
                table_get k0 (entries d') = table_get k0 (entries d)) /\
    (forall k0 v0, lookup k0 (entries d) = Some v0 -> ~ In k0 (map fst general) ->
                   lookup k0 (entries d') = Some v0).
Proof.
  induction general as [|[name keys] general IH]; intros d Hd Hnd Hdis;
    cbn [add_general_categories].
  - exists d. splits; auto. intros name keys [].
  - destruct (concatenation_value keys d [] Hd) as (d1 & E1 & Hd1 & Hg1 & Hp1).
    rewrite E1. cbn [app].
    set (v := flat_map (fun k => table_get k (entries d)) keys).
    cbn [map fst] in Hnd. inversion Hnd as [|? ? Hname Hnd']; subst.
    destruct (IH (setitem d1 name v)) as (d2 & E2 & Hv2 & Hg2 & Hp2); auto.
    { intros n ks k Hin Hk Hn. apply (Hdis n ks k); [right; exact Hin | exact Hk |].
      cbn [map fst]. right. exact Hn. }
    assert (Hset : forall k0, k0 <> name ->
               table_get k0 (entries (setitem d1 name v)) = table_get k0 (entries d)).
    { intros k0 N. cbn [setitem entries]. rewrite table_get_store.
      destruct (String.eqb_spec k0 name); [contradiction | apply Hg1]. }
    exists d2. splits; auto.
    + intros n ks [Heq | Hin].
      * injection Heq as <- <-. apply Hp2; [|exact Hname].
        cbn [setitem entries]. rewrite lookup_store, String.eqb_refl. reflexivity.
      * rewrite (Hv2 n ks Hin). f_equal. apply flat_map_ext_on.
        intros k Hk. apply Hset. intros ->.
        apply (Hdis n ks name); [right; exact Hin | exact Hk | left; reflexivity].
    + intros k0 Hn. cbn [map fst In] in Hn. rewrite Hg2 by tauto.
      apply Hset. intros ->. tauto.
    + intros k0 v0 H0 Hn. cbn [map fst In] in Hn. apply Hp2; [|tauto].
      cbn [setitem entries]. rewrite lookup_store.
      destruct (String.eqb_spec k0 name) as [-> | N]; [tauto | apply Hp1; exact H0].
Qed.

Lemma general_categories_names :
  NoDup (map fst general_categories) /\
  forall name keys k,
    In (name, keys) general_categories -> In k keys ->
    ~ In k (map fst general_categories).
Proof.
  split.
  - cbn. repeat constructor; cbn; intuition discriminate.
  - intros name keys k Hin Hk Hn. cbn in Hin, Hn.
    repeat (destruct Hin as [Hin | Hin];
            [injection Hin as <- <-; cbn in Hk;
             repeat (destruct Hk as [<- | Hk]; [intuition discriminate|]);
             destruct Hk|]).
    destruct Hin.
Qed.

Lemma covers_flat_map_table_get keys t x :
  covers (flat_map (fun k => table_get k t) keys) x
  <-> exists k, In k keys /\ covers (table_get k t) x.
Proof.
  induction keys as [|k keys IH]; cbn [flat_map].
  - pose proof (covers_nil x). split; [tauto | intros (k & [] & _)].
  - rewrite covers_app, IH. split.
    + intros [H | (k0 & Hk0 & H)]; [exists k | exists k0]; cbn; auto.
    + intros (k0 & [<- | Hk0] & H); [left; exact H | right; exists k0; auto].
Qed.

Section GeneralCategories.

Variable maxunicode : Z.
Variable category : Z -> string.

(** X16. When the builder falls back to the scan, every general category
    covers exactly the code points whose category is one of its two letter
    categories, and every two letter category the code points of that
    category. *)
Theorem general_categories_cover_their_parts : forall file,
  0 <= maxunicode -> category 0 = "Cc"%string ->
  maxunicode < UCS4_MAXUNICODE \/
    file = LoadIOError \/ file = LoadSystemError \/ file = LoadValueError ->
  exists t,
    build_unicode_categories maxunicode category file = Return t /\
    (forall name keys,
       In (name, keys) general_categories ->
       exists l, lookup name t = Some l /\
                 forall x, covers l x
                           <-> (0 <= x <= maxunicode /\ In (category x) keys)) /\
    (forall name keys k,
       In (name, keys) general_categories -> In k keys ->
       exists l, lookup k t = Some l /\
                 forall x, covers l x
                           <-> (0 <= x <= maxunicode /\ category x = k)).
Proof.
  intros file HM H0 Hfile.
  pose proof (get_unicodedata_categories_valid maxunicode category HM H0) as Hscan.
  pose proof (scan_partition maxunicode category HM) as Hpart.
  set (scan := {| default_list := true;
                  entries := get_unicodedata_categories maxunicode category |}).
  assert (Hchoice :
    (if maxunicode <? UCS4_MAXUNICODE then scan
     else match file with
          | Loaded t => {| default_list := false; entries := t |}
          | _ => scan
          end) = scan).
  { destruct (Z.ltb_spec maxunicode UCS4_MAXUNICODE) as [L | L]; [reflexivity|].
    destruct Hfile as [H | [-> | [-> | ->]]]; [lia | reflexivity ..]. }
  unfold build_unicode_categories. fold scan. rewrite Hchoice.
  destruct general_categories_names as [Hnd Hdis].
  destruct (add_general_categories_default maxunicode general_categories scan eq_refl Hscan)
    as (d & Ed & Hvd & _ & Hkeys & _).
  destruct (add_general_categories_values general_categories scan eq_refl Hnd Hdis)
    as (d' & Ed' & Hval & Hget & _).
  rewrite Ed in Ed'. injection Ed' as <-. rewrite Ed.
  destruct (build_subsets_valid maxunicode (entries d) Hvd) as (t & Et & Hl).
  exists t. split; [exact Et|]. split.
  - intros name keys Hin.
    destruct (Hl name _ (Hval name keys Hin)) as (l & El & Eu).
    exists l. split; [exact El|].
    destruct (UnicodeSubset_items maxunicode _
                (lookup_valid maxunicode name _ _ Hvd (Hval name keys Hin)))
      as (l' & Eu' & _ & _ & _ & Hc).
    rewrite Eu in Eu'. injection Eu' as <-.
    intros x. rewrite Hc, covers_flat_map_table_get. cbn [entries scan]. split.
    + intros (k & Hk & Hx). apply Hpart in Hx. destruct Hx as [Hx <-]. auto.
    + intros [Hx Hk]. exists (category x). split; [exact Hk|]. apply Hpart. auto.
  - intros name keys k Hin Hk.
    pose proof (Hkeys name keys k Hin (or_intror Hk)) as Hhas.
    unfold has_key in Hhas.
    destruct (lookup k (entries d)) as [v|] eqn:Ev; [|congruence].
    assert (Hv : v = table_get k (entries scan)).
    { rewrite <- (Hget k (Hdis name keys k Hin Hk)). unfold table_get. rewrite Ev.
      reflexivity. }
    destruct (Hl k v Ev) as (l & El & Eu).
    exists l. split; [exact El|].
    destruct (UnicodeSubset_items maxunicode v (lookup_valid maxunicode k v _ Hvd Ev))
      as (l' & Eu' & _ & _ & _ & Hc).
    rewrite Eu in Eu'. injection Eu' as <-.
    intros x. rewrite Hc, Hv. cbn [entries scan]. apply Hpart.
Qed.

End GeneralCategories.

(** ** Union, intersection and difference *)

Section SetAlgebra.

Variable maxunicode : Z.

Lemma add_each_ascending : forall items l,
  Forall (valid_value maxunicode) items ->
  Forall (valid_value maxunicode) l -> ascending l ->
  exists l',
    add_each maxunicode l items = (l', None) /\
    Forall (valid_value maxunicode) l' /\ ascending l' /\
    (forall x, covers l x -> covers l' x) /\
    (forall x, covers l' x -> covers l x \/ covers items x).
Proof.
  induction items as [|v items IH]; intros l Hi Hl Ha.
  - exists l. simpl. splits; auto.
  - inversion Hi as [|? ? Hv Hi']; subst. cbn [add_each].
    rewrite (add_valid maxunicode l v Hv).
    destruct (add_loop_ascending maxunicode l v Hl Ha Hv) as (V1 & A1 & _ & C1 & C2).
    destruct (IH _ Hi' V1 A1) as (l' & Eq & V' & A' & C1' & C2').
    exists l'. splits; auto.
    intros x Hx. rewrite covers_cons.
    destruct (C2' x Hx) as [H | H]; [|tauto].
    destruct (C2 x H); tauto.
Qed.

Lemma discard_each_ascending : forall items l,
  Forall (valid_value maxunicode) items ->
  Forall (valid_value maxunicode) l -> ascending l ->
  exists l',
    discard_each maxunicode l items = (l', None) /\
    Forall (valid_value maxunicode) l' /\ ascending l' /\
    (ordered l -> ordered l') /\
    forall x, covers l' x <-> (covers l x /\ ~ covers items x).
Proof.
  induction items as [|v items IH]; intros l Hi Hl Ha.
  - exists l. simpl. splits; auto.
    intros x. pose proof (covers_nil x). tauto.
  - inversion Hi as [|? ? Hv Hi']; subst.
    pose proof (valid_bounds maxunicode v Hv) as Bv.
    cbn [discard_each]. rewrite (discard_valid maxunicode l v Hv).
    destruct (discard_loop_ascending maxunicode l (lo v) (hi v) Hl Ha)
      as (l1 & stopped & Eq & Hv1 & Ha1 & _ & _ & Hc1); [lia|].
    rewrite Eq. cbn [fst].
    destruct (IH l1 Hi' Hv1 Ha1) as (l' & Eq' & Hv' & Ha' & Ho' & Hc').
    exists l'. splits; auto.
    + intros Ho. apply Ho'.
      destruct (discard_loop_spec maxunicode l (lo v) (hi v) Hl Ho)
        as (l2 & st2 & Eq2 & _ & Ho2 & _); [lia|].
      rewrite Eq in Eq2. injection Eq2 as <- <-. exact Ho2.
    + intros x. rewrite Hc', Hc1, covers_cons. unfold inside. tauto.
Qed.

Lemma iter_code_points_reverse_valid items :
  Forall (valid_value maxunicode) items ->
  Forall (valid_value maxunicode) (iter_code_points items true) /\
  forall x, covers (iter_code_points items true) x <-> covers items x.
Proof. apply iter_code_points_reverse. Qed.

(** X17. [difference_update] with valid items removes exactly their code
    points from an ascending list of valid atoms and keeps it valid and
    ascending, and ordered if it was. *)
Theorem difference_update_removes_items : forall code_points items,
  Forall (valid_value maxunicode) code_points -> ascending code_points ->
  Forall (valid_value maxunicode) items ->
  exists code_points',
    difference_update maxunicode code_points (Items (items, None)) = (code_points', None) /\
    Forall (valid_value maxunicode) code_points' /\
    ascending code_points' /\
    (ordered code_points -> ordered code_points') /\
    forall x, covers code_points' x
              <-> (covers code_points x /\ ~ covers items x).
Proof.
  intros l items Hl Ha Hi. unfold difference_update.
  destruct (iter_code_points_reverse_valid items Hi) as (Vi & Ci).
  destruct (discard_each_ascending _ l Vi Hl Ha) as (l' & Eq & V' & A' & O' & C').
  exists l'. splits; auto.
  intros x. rewrite C', Ci. tauto.
Qed.

(** X18. The difference of two subsets of valid atoms covers the code points
    of the first that the second does not cover, with ordered atoms. *)
Theorem sub_of_subsets : forall self other,
  Forall (valid_value maxunicode) self ->
  Forall (valid_value maxunicode) other ->
  exists difference,
    sub maxunicode self (Subset other) = Return (Object difference) /\
    ordered difference /\
    Forall (valid_value maxunicode) difference /\
    forall x, covers difference x <-> (covers self x /\ ~ covers other x).
Proof.
  intros S T HS HT. unfold sub, copy.
  destruct (UnicodeSubset_items maxunicode S HS) as (obj & Eo & Oo & _ & Vo & Co).
  rewrite Eo. cbn [isub].
  destruct (discard_each_ascending (rev T) obj (Forall_rev HT) Vo (ordered_ascending _ Oo))
    as (D & Ed & Vd & _ & Od & Cd).
  rewrite Ed. exists D. splits; auto.
  intros x. rewrite Cd, Co, covers_rev. tauto.
Qed.

Lemma sub_covers self other :
  Forall (valid_value maxunicode) self ->
  match other with
  | IterableSubset l => Forall (valid_value maxunicode) l
  | IterableItems l => Forall (valid_value maxunicode) l
  end ->
  exists difference,
    sub maxunicode self (operand_of other) = Return (Object difference) /\
    Forall (valid_value maxunicode) difference /\
    forall x, covers difference x
              <-> (covers self x
                   /\ ~ covers match other with
                                | IterableSubset l => l
                                | IterableItems l => l
                                end x).
Proof.
  intros HS HT. unfold sub, copy.
  destruct (UnicodeSubset_items maxunicode self HS) as (obj & Eo & Oo & _ & Vo & Co).
  rewrite Eo. destruct other as [T | X]; cbn [operand_of isub].
  - destruct (discard_each_ascending (rev T) obj (Forall_rev HT) Vo (ordered_ascending _ Oo))
      as (D & Ed & Vd & _ & _ & Cd).
    rewrite Ed. exists D. splits; auto.
    intros x. rewrite Cd, Co, covers_rev. tauto.
  - destruct (iter_code_points_reverse_valid X HT) as (Vx & Cx).
    destruct (discard_each_ascending _ obj Vx Vo (ordered_ascending _ Oo))
      as (D & Ed & Vd & _ & _ & Cd).
    rewrite Ed. exists D. splits; auto.
    intros x. rewrite Cd, Co, Cx. tauto.
Qed.

Lemma iter_singles_valid l :
  Forall (valid_value maxunicode) l ->
  Forall (valid_value maxunicode) (map Single (__iter__ l)).
Proof.
  intros Hl. rewrite Forall_forall. intros a Ha. apply in_map_iff in Ha.
  destruct Ha as (x & <- & Hx). apply iter_In in Hx.
  pose proof (covers_valid maxunicode l x Hl Hx). simpl. lia.
Qed.

Lemma iter_singles_covers l x : covers (map Single (__iter__ l)) x <-> covers l x.
Proof.
  split.
  - intros (a & Ha & Hx). apply in_map_iff in Ha. destruct Ha as (y & <- & Hy).
    unfold inside in Hx. simpl in Hx. replace x with y by lia.
    apply iter_In. exact Hy.
  - intros Hx. apply iter_In in Hx. exists (Single x).
    split; [apply in_map; exact Hx|]. unfold inside. simpl. lia.
Qed.

(** X19. [self &= other] keeps exactly the code points of [self] that [other]
    covers. *)
Theorem iand_keeps_common_code_points : forall self other,
  Forall (valid_value maxunicode) self -> ascending self ->
  match other with
  | IterableSubset l => Forall (valid_value maxunicode) l
  | IterableItems l => Forall (valid_value maxunicode) l
  end ->
  exists self',
    __iand__ maxunicode self other = Return (Object self') /\
    Forall (valid_value maxunicode) self' /\
    ascending self' /\
    forall x, covers self' x
              <-> (covers self x
                   /\ covers match other with
                             | IterableSubset l => l
                             | IterableItems l => l
                             end x).
Proof.
  intros S other HS HA HT. unfold __iand__.
  destruct (sub_covers S other HS HT) as (D & Ed & Vd & Cd).
  rewrite Ed.
  destruct (discard_each_ascending _ S (iter_singles_valid D Vd) HS HA)
    as (S' & Es & Vs & As & _ & Cs).
  rewrite Es. exists S'. splits; auto.
  intros x. rewrite Cs, iter_singles_covers, Cd.
  destruct (covers_dec match other with
                       | IterableSubset l => l
                       | IterableItems l => l
                       end x); tauto.
Qed.

(** X20. [self |= other] on an ascending list of valid atoms raises nothing,
    keeps the list valid and ascending, removes no code point and adds only
    code points of [other]. *)
Theorem ior_keeps_and_adds_only_other : forall self other,
  Forall (valid_value maxunicode) self -> ascending self ->
  match other with
  | IterableSubset l => Forall (valid_value maxunicode) l
  | IterableItems l => Forall (valid_value maxunicode) l
  end ->
  exists self',
    __ior__ maxunicode self (operand_of other) = Return (Object self') /\
    Forall (valid_value maxunicode) self' /\
    ascending self' /\
    (forall x, covers self x -> covers self' x) /\
    (forall x, covers self' x ->
               covers self x
               \/ covers match other with
                         | IterableSubset l => l
                         | IterableItems l => l
                         end x).
Proof.
  intros S other HS HA HT. unfold __ior__.
  destruct other as [T | X]; cbn [operand_of].
  - destruct (add_each_ascending (rev T) S (Forall_rev HT) HS HA)
      as (S' & Es & Vs & As & C1 & C2).
    rewrite Es. exists S'. splits; auto.
    intros x Hx. destruct (C2 x Hx) as [H | H]; [auto|].
    right. apply covers_rev. exact H.
  - destruct (iter_code_points_reverse_valid X HT) as (Vx & Cx).
    destruct (add_each_ascending _ S Vx HS HA) as (S' & Es & Vs & As & C1 & C2).
    rewrite Es. exists S'. splits; auto.
    intros x Hx. destruct (C2 x Hx) as [H | H]; [auto|].
    right. apply Cx. exact H.
Qed.

End SetAlgebra.

(** ** The parser with and without expansion of ranges *)

Lemma same_tokens_yield c gt gf escaped char :
  same_tokens gt gf false c ->
  same_tokens (yield (Single c) gt) (yield (Single c) gf) escaped char.
Proof.
  intros (Hs & Hf & H1 & H2). unfold same_tokens, yield. cbn [fst snd].
  splits; auto.
  - constructor; [exact I | exact Hf].
  - intros x. rewrite !covers_cons. intros [H | H]; auto.
  - intros x. rewrite !covers_cons. unfold inside. simpl.
    intros [H | H]; [auto|]. destruct (H2 x H) as [H' | [_ ->]]; [auto|].
    left. left. lia.
Qed.

Lemma same_tokens_escaped gt gf char char' :
  same_tokens gt gf true char -> same_tokens gt gf false char'.
Proof.
  intros (Hs & Hf & H1 & H2). unfold same_tokens. splits; auto.
  intros x Hx. destruct (H2 x Hx) as [H | [H _]]; [auto | discriminate].
Qed.

Lemma covers_expanded_range a b x :
  covers (map Single (py_range a b)) x <-> a <= x < b.
Proof.
  rewrite <- py_range_In. split.
  - intros (t & Ht & Hx). apply in_map_iff in Ht. destruct Ht as (y & <- & Hy).
    unfold inside in Hx. simpl in Hx. replace x with y by lia. exact Hy.
  - intros Hx. exists (Single x). split; [apply in_map; exact Hx|].
    unfold inside. simpl. lia.
Qed.

Lemma same_tokens_range char end_char gt gf :
  char <= end_char ->
  same_tokens gt gf false char ->
  same_tokens
    (yield_all (map Single (py_range (char + 1) (end_char + 1))) gt)
    (yield (Range char end_char) gf) false char.
Proof.
  intros Hle (Hs & Hf & H1 & H2). unfold same_tokens, yield, yield_all.
  cbn [fst snd]. splits; auto.
  - apply Forall_app. split; [|exact Hf].
    rewrite Forall_forall. intros a Ha. apply in_map_iff in Ha.
    destruct Ha as (y & <- & _). exact I.
  - intros x. rewrite covers_app, covers_cons, covers_expanded_range.
    unfold inside. simpl. intros [H | H]; [left; lia | auto].
  - intros x. rewrite covers_app, covers_cons, covers_expanded_range.
    unfold inside. simpl. intros [H | H].
    + destruct (Z.eq_dec x char); [auto | left; left; lia].
    + destruct (H2 x H); auto.
Qed.

Lemma same_tokens_error e escaped char :
  same_tokens ([], Some e) ([], Some e) escaped char.
Proof. unfold same_tokens. cbn. splits; auto. Qed.

Lemma same_tokens_end g escaped char :
  Forall is_single (fst g) -> same_tokens g g escaped char.
Proof. intros H. unfold same_tokens. splits; auto. Qed.

Lemma parse_loop_same_tokens : forall n rest,
  (length rest <= n)%nat ->
  forall s i escaped char,
    same_tokens (parse_loop s true i rest escaped char)
                (parse_loop s false i rest escaped char) escaped char.
Proof.
  induction n as [|n IH]; intros rest Hlen s i escaped char.
  - destruct rest; [|simpl in Hlen; lia]. cbn [parse_loop].
    apply same_tokens_end. destruct escaped; repeat constructor.
  - destruct rest as [|c rest1].
    { cbn [parse_loop]. apply same_tokens_end. destruct escaped; repeat constructor. }
    simpl in Hlen.
    assert (IH1 : forall i e ch, same_tokens (parse_loop s true i rest1 e ch)
                                             (parse_loop s false i rest1 e ch) e ch)
      by (intros; apply IH; lia).
    cbn [parse_loop].
    destruct (c =? 45).
    { destruct escaped; cbn [orb].
      { apply same_tokens_yield, IH1. }
      destruct (i =? len s - 1).
      { apply same_tokens_yield, IH1. }
      destruct rest1 as [|c1 rest2].
      { apply same_tokens_end. constructor. }
      simpl in Hlen.
      destruct ((c1 =? 92) && (i + 1 <? len s - 1)
                && match rest2 with
                   | [] => false
                   | c2 :: _ => in_chars c2 CHARACTER_GROUP_ESCAPED
                   end).
      - destruct rest2 as [|end_char rest3].
        { apply same_tokens_end. constructor. }
        simpl in Hlen. rewrite Z.gtb_ltb.
        destruct (Z.ltb_spec end_char char).
        + apply same_tokens_error.
        + apply same_tokens_range; [lia|]. apply IH. lia.
      - rewrite Z.gtb_ltb. destruct (Z.ltb_spec c1 char).
        + apply same_tokens_error.
        + apply same_tokens_range; [lia|]. apply IH. lia. }
    destruct (in_chars c metacharacters).
    { apply same_tokens_yield, IH1. }
    destruct (in_chars c brackets).
    { destruct (negb escaped && (len s >? 1)).
      - apply same_tokens_error.
      - apply same_tokens_yield, IH1. }
    destruct (c =? 92).
    { destruct escaped.
      - apply same_tokens_yield, IH1.
      - apply (same_tokens_escaped _ _ char char), IH1. }
    destruct escaped.
    + apply same_tokens_yield, same_tokens_yield, IH1.
    + apply same_tokens_yield, IH1.
Qed.

Lemma parse_loop_deferred_start s c0 rest1 :
  len s = 2 + len rest1 -> 1 < len s - 1 ->
  snd (parse_loop s false 1 (45 :: rest1) false c0) = None ->
  covers (fst (parse_loop s false 1 (45 :: rest1) false c0)) c0.
Proof.
  intros Hlen Hlast. cbn [parse_loop]. change (45 =? 45) with true. cbv iota.
  cbn [orb]. destruct (Z.eqb_spec 1 (len s - 1)); [lia|].
  destruct rest1 as [|c1 rest2].
  { change (len []) with 0 in Hlen. lia. }
  destruct ((c1 =? 92) && (1 + 1 <? len s - 1)
            && match rest2 with
               | [] => false
               | c2 :: _ => in_chars c2 CHARACTER_GROUP_ESCAPED
               end) eqn:E.
  - destruct rest2 as [|end_char rest3].
    { rewrite andb_false_r in E. discriminate. }
    rewrite Z.gtb_ltb. destruct (Z.ltb_spec end_char c0); [discriminate|].
    intros _. cbn [yield fst]. apply covers_cons. left. unfold inside. simpl. lia.
  - rewrite Z.gtb_ltb. destruct (Z.ltb_spec c1 c0); [discriminate|].
    intros _. cbn [yield fst]. apply covers_cons. left. unfold inside. simpl. lia.
Qed.

(** X14. With [expand_ranges] the parser ends with the same exception, if
    any, as without it, and yields only integers; when no exception is
    raised the integers are exactly the code points of the tokens yielded
    without expansion. *)
Theorem parse_expanded_same_code_points : forall s,
  snd (parse_character_group s true) = snd (parse_character_group s false) /\
  Forall is_single (fst (parse_character_group s true)) /\
  (snd (parse_character_group s false) = None ->
   forall x, covers (fst (parse_character_group s true)) x
             <-> covers (fst (parse_character_group s false)) x).
Proof.
  intros s. destruct s as [|c0 rest].
  { cbn. splits; auto. intros _ x. tauto. }
  unfold parse_character_group.
  pose proof (parse_loop_same_tokens (length rest) rest (Nat.le_refl _) (c0 :: rest) 1)
    as Hloop.
  destruct (c0 =? 92).
  { destruct (Hloop true c0) as (Hs & Hf & H1 & H2). splits; auto.
    intros _ x. split; [apply H1|]. intros Hx.
    destruct (H2 x Hx) as [H | [H _]]; [exact H | discriminate]. }
  destruct (in_chars c0 brackets && (len (c0 :: rest) >? 1)).
  { cbn. splits; auto. intros _ x. tauto. }
  destruct ((len (c0 :: rest) - 1 <=? 1)
            || negb match rest with c1 :: _ => c1 =? 45 | [] => false end) eqn:G.
  - destruct (same_tokens_yield c0 _ _ true c0 (Hloop false c0)) as (Hs & Hf & H1 & H2).
    splits; auto. intros _ x. split; [apply H1|]. intros Hx.
    destruct (H2 x Hx) as [H | [H _]]; [exact H | discriminate].
  - destruct (Hloop false c0) as (Hs & Hf & H1 & H2).
    apply orb_false_iff in G. destruct G as [G1 G2].
    apply Z.leb_gt in G1.
    destruct rest as [|c1 rest1]; [discriminate|].
    apply negb_false_iff, Z.eqb_eq in G2. subst c1.
    unfold yield. cbn [fst snd]. splits; auto.
    + constructor; [exact I | exact Hf].
    + intros Hnone x. rewrite covers_cons. unfold inside. cbn [lo hi]. split.
      * intros [H | H]; [|apply H1; exact H].
        replace x with c0 by lia.
        apply parse_loop_deferred_start; auto.
        rewrite !len_cons. lia.
      * intros Hx. destruct (H2 x Hx) as [H | [_ ->]]; [auto | left; lia].
Qed.

(** ** Size and comparison *)

Lemma len_iter_length l : __len__ l = Z.of_nat (length (__iter__ l)).
Proof.
  unfold __len__.
  assert (H : forall (xs : list Z) k,
            fold_left (fun k _ => k + 1) xs k = k + Z.of_nat (length xs)).
  { induction xs as [|x xs IH]; intros k; simpl length.
    - simpl. lia.
    - cbn [fold_left]. rewrite IH. lia. }
  rewrite H. lia.
Qed.

Lemma iter_NoDup : forall l,
  Forall nonempty l -> ascending l -> NoDup (__iter__ l).
Proof.
  induction l as [|cp rest IH]; intros Hne Hasc; [constructor|].
  inversion Hne as [|? ? Hcp Hrest]; subst.
  assert (Hasc' : ascending rest) by (destruct Hasc; assumption).
  specialize (IH Hrest Hasc').
  assert (Habove : forall y, In y (__iter__ rest) -> hi cp < y).
  { intros y Hy. apply iter_In in Hy.
    exact (ascending_covers_above cp rest y Hrest Hasc Hy). }
  destruct cp as [c | s e].
  - change (NoDup (c :: __iter__ rest)). constructor; [|exact IH].
    intros Hc. apply Habove in Hc. simpl in Hc. lia.
  - change (NoDup (py_range s (e + 1) ++ __iter__ rest)).
    cbn [hi] in Habove. unfold nonempty in Hcp. cbn [lo hi] in Hcp.
    assert (G : forall m a,
              (forall y, In y (__iter__ rest) -> a + Z.of_nat m - 1 < y) ->
              NoDup (map (fun k => a + Z.of_nat k) (seq 0 m) ++ __iter__ rest)).
    { induction m as [|m IHm]; intros a Ha; [exact IH|].
      cbn [seq map app]. rewrite <- seq_shift, map_map.
      replace (map (fun x => a + Z.of_nat (S x)) (seq 0 m))
        with (map (fun k => a + 1 + Z.of_nat k) (seq 0 m))
        by (apply map_ext; intros k; lia).
      constructor.
      - rewrite Nat2Z.inj_0, Z.add_0_r. intros Hin. apply in_app_or in Hin.
        destruct Hin as [Hin | Hin].
        + apply in_map_iff in Hin. destruct Hin as (k & Hk & _). lia.
        + apply Ha in Hin. lia.
      - apply IHm. intros y Hy. apply Ha in Hy. lia. }
    unfold py_range. apply G. intros y Hy. apply Habove in Hy. lia.
Qed.

Lemma len_same_code_points l1 l2 :
  Forall nonempty l1 -> ascending l1 -> Forall nonempty l2 -> ascending l2 ->
  (forall x, covers l1 x <-> covers l2 x) -> __len__ l1 = __len__ l2.
Proof.
  intros N1 A1 N2 A2 H. rewrite !len_iter_length. f_equal.
  apply Permutation_length, NoDup_Permutation; try (apply iter_NoDup; assumption).
  intros x. rewrite !iter_In. apply H.
Qed.

Lemma len_one_more l1 l2 v :
  Forall nonempty l1 -> ascending l1 -> Forall nonempty l2 -> ascending l2 ->
  ~ covers l2 v ->
  (forall x, covers l1 x <-> (covers l2 x \/ x = v)) ->
  __len__ l1 = __len__ l2 + 1.
Proof.
  intros N1 A1 N2 A2 Hv H. rewrite !len_iter_length.
  assert (E : length (__iter__ l1) = length (v :: __iter__ l2)).
  { apply Permutation_length, NoDup_Permutation.
    - apply iter_NoDup; assumption.
    - constructor; [rewrite iter_In; exact Hv | apply iter_NoDup; assumption].
    - intros x. cbn [In]. rewrite !iter_In, H. intuition congruence. }
  rewrite E. cbn [length]. lia.
Qed.

Lemma list_eq_spec : forall l1 l2, list_eq l1 l2 = true <-> l1 = l2.
Proof.
  induction l1 as [|a l1 IH]; intros [|b l2]; simpl;
    try (split; [discriminate | discriminate]); [tauto|].
  rewrite andb_true_iff, IH. split.
  - intros [Hab ->]. f_equal.
    destruct a, b; simpl in Hab; try discriminate.
    + apply Z.eqb_eq in Hab. congruence.
    + apply andb_true_iff in Hab. destruct Hab as [H1 H2].
      apply Z.eqb_eq in H1, H2. congruence.
  - intros E. injection E as -> ->. split; [|reflexivity].
    destruct b; simpl; rewrite ?Z.eqb_refl; reflexivity.
Qed.

Section SymmetricDifference.

Variable maxunicode : Z.

Lemma add_loop_single_covers : forall l v,
  Forall (valid_value maxunicode) l -> ascending l -> 0 <= v <= maxunicode ->
  covers (add_loop maxunicode v v (Single v) l) v.
Proof.
  induction l as [|cp rest IH]; intros v Hval Hasc Hv.
  - simpl. apply covers_cons. left. unfold inside. simpl. lia.
  - inversion Hval as [|? ? Hcp Hrest]; subst.
    pose proof (valid_bounds maxunicode cp Hcp) as Bcp.
    assert (Hasc' : ascending rest) by (destruct Hasc; assumption).
    assert (Hnext : match rest with
                    | [] => True
                    | next :: _ => hi cp < lo next /\ lo next <= hi next
                                   /\ hi next <= maxunicode
                    end).
    { destruct rest as [|next r]; [exact I|].
      inversion Hrest as [|? ? Hn _]; subst.
      pose proof (valid_bounds maxunicode next Hn) as Bn. destruct Hasc as [Hlt _]. lia. }
    cbn [add_loop].
    set (hl := match rest with [] => maxunicode + 1 | next :: _ => lo next end).
    assert (Hhl : hi cp < hl /\
                  (v < hl \/ covers rest v \/ v > hi cp + 1)).
    { subst hl. destruct rest as [|next r]; [lia|].
      split; [lia|].
      destruct (Z.lt_ge_cases v (lo next)) as [H | H]; [left; exact H|].
      destruct (Z.le_gt_cases v (hi cp + 1)) as [H' | H']; [|lia].
      right. left. apply covers_cons. left. unfold inside. lia. }
    destruct Hhl as [Hhl1 Hhl2].
    rewrite !Z.gtb_ltb, Z.geb_leb.
    destruct (Z.ltb_spec v (lo cp)).
    + destruct (Z.eqb_spec v (lo cp - 1)); cbn [orb];
        [|destruct (Z.leb_spec (lo cp - 1) v)];
        apply covers_cons; left; unfold inside; cbn [lo hi]; lia.
    + destruct (Z.ltb_spec (hi cp + 1) v).
      * apply covers_cons. right. apply IH; assumption.
      * destruct (Z.ltb_spec (lo cp) (hi cp)).
        -- destruct Hhl2 as [Hq | [Hq | Hq]]; [| |lia].
           ++ apply covers_cons. left. unfold inside. cbn [lo hi]. lia.
           ++ apply covers_cons. right. exact Hq.
        -- destruct (Z.ltb_spec (lo cp) v).
           ++ destruct Hhl2 as [Hq | [Hq | Hq]]; [| |lia].
              ** apply covers_cons. left. unfold inside. cbn [lo hi]. lia.
              ** apply covers_cons. right. exact Hq.
           ++ apply covers_cons. left. unfold inside. lia.
Qed.

Lemma add_single_spec l v :
  Forall (valid_value maxunicode) l -> ascending l -> 0 <= v <= maxunicode ->
  exists l',
    add maxunicode l (Single v) = (l', None) /\
    Forall (valid_value maxunicode) l' /\ ascending l' /\
    forall x, covers l' x <-> (covers l x \/ x = v).
Proof.
  intros Hl Ha Hv.
  assert (Hval : valid_value maxunicode (Single v)) by exact Hv.
  rewrite (add_valid maxunicode l (Single v) Hval).
  destruct (add_loop_ascending maxunicode l (Single v) Hl Ha Hval)
    as (V1 & A1 & _ & C1 & C2).
  eexists. split; [reflexivity|]. splits; auto.
  intros x. split.
  - intros Hx. destruct (C2 x Hx) as [H | H]; [left; exact H|].
    right. unfold inside in H. simpl in H. lia.
  - intros [Hx | ->]; [apply C1; exact Hx|].
    apply add_loop_single_covers; assumption.
Qed.

Lemma discard_single_spec l v :
  Forall (valid_value maxunicode) l -> ascending l -> 0 <= v <= maxunicode ->
  exists l',
    discard maxunicode l (Single v) = (l', None) /\
    Forall (valid_value maxunicode) l' /\ ascending l' /\
    forall x, covers l' x <-> (covers l x /\ x <> v).
Proof.
  intros Hl Ha Hv.
  assert (Hval : valid_value maxunicode (Single v)) by exact Hv.
  rewrite (discard_valid maxunicode l (Single v) Hval).
  destruct (discard_loop_ascending maxunicode l v v Hl Ha)
    as (l' & stopped & Eq & Hv' & Ha' & _ & _ & Hc); [lia|].
  exists l'. cbn [lo hi]. rewrite Eq. cbn [fst]. splits; auto.
  intros x. rewrite Hc. intuition lia.
Qed.

Lemma toggle_each_spec : forall vs self,
  Forall (valid_value maxunicode) self -> ascending self ->
  Forall (fun v => 0 <= v <= maxunicode) vs -> NoDup vs ->
  exists self',
    toggle_each maxunicode self vs = (self', None) /\
    Forall (valid_value maxunicode) self' /\ ascending self' /\
    forall x, covers self' x
              <-> ((covers self x /\ ~ In x vs)
                   \/ (~ covers self x /\ In x vs)).
Proof.
  induction vs as [|v vs IH]; intros self Hs Ha Hvs Hnd.
  - exists self. simpl. splits; auto. intros x. tauto.
  - inversion Hvs as [|? ? Hv Hvs']; subst.
    inversion Hnd as [|? ? Hnotin Hnd']; subst.
    cbn [toggle_each].
    pose proof (contains_covers self v
                  (Forall_valid_nonempty maxunicode self Hs) Ha) as Hin.
    assert (Hstep : exists self1,
              (if __contains__ self v then discard maxunicode self (Single v)
               else add maxunicode self (Single v)) = (self1, None) /\
              Forall (valid_value maxunicode) self1 /\ ascending self1 /\
              forall x, covers self1 x
                        <-> ((covers self x /\ x <> v)
                             \/ (~ covers self v /\ x = v))).
    { destruct (__contains__ self v).
      - destruct (discard_single_spec self v Hs Ha Hv) as (l1 & E1 & V1 & A1 & C1).
        exists l1. splits; auto. intros x. rewrite C1.
        assert (covers self v) by (apply Hin; reflexivity). tauto.
      - destruct (add_single_spec self v Hs Ha Hv) as (l1 & E1 & V1 & A1 & C1).
        exists l1. splits; auto. intros x. rewrite C1.
        assert (Hn : ~ covers self v)
          by (intros H; apply Hin in H; discriminate).
        destruct (Z.eq_dec x v) as [-> | Hne]; [tauto|]. tauto. }
    destruct Hstep as (self1 & E1 & V1 & A1 & C1). rewrite E1.
    destruct (IH self1 V1 A1 Hvs' Hnd') as (self' & E' & V' & A' & C').
    exists self'. splits; auto.
    intros x. rewrite C', C1. cbn [In].
    destruct (Z.eq_dec x v) as [-> | Hne].
    + destruct (covers_dec self v); tauto.
    + assert (v <> x) by congruence. tauto.
Qed.

End SymmetricDifference.

Lemma len_disjoint_union l1 l2 l3 :
  Forall nonempty l1 -> ascending l1 -> Forall nonempty l2 -> ascending l2 ->
  Forall nonempty l3 -> ascending l3 ->
  (forall x, covers l1 x -> ~ covers l2 x) ->
  (forall x, covers l3 x <-> (covers l1 x \/ covers l2 x)) ->
  __len__ l3 = __len__ l1 + __len__ l2.
Proof.
  intros N1 A1 N2 A2 N3 A3 Hd H. rewrite !len_iter_length.
  rewrite <- Nat2Z.inj_add, <- length_app. f_equal.
  apply Permutation_length, NoDup_Permutation.
  - apply iter_NoDup; assumption.
  - apply NoDup_app; try (apply iter_NoDup; assumption).
    intros x. rewrite !iter_In. apply Hd.
  - intros x. rewrite in_app_iff, !iter_In. apply H.
Qed.

Lemma len_whole_range m : 0 <= m + 1 -> __len__ [Range 0 m] = m + 1.
Proof.
  intros Hm. rewrite len_iter_length. unfold __iter__. cbn [flat_map].
  rewrite app_nil_r. unfold py_range. rewrite length_map, length_seq. lia.
Qed.

Section SizeAndComparison.

Variable maxunicode : Z.

(** X21. [self ^= other] with another subset, or a list of valid values,
    leaves in [self] exactly the code points that one of the two covers and
    the other does not. *)
Theorem ixor_is_symmetric_difference : forall self other,
  Forall (valid_value maxunicode) self -> ascending self ->
  match other with
  | IterableSubset l => Forall (valid_value maxunicode) l /\ ascending l
  | IterableItems l => Forall (valid_value maxunicode) l
  end ->
  exists self',
    __ixor__ maxunicode self (Another (operand_of other))
    = Return (Object self') /\
    Forall (valid_value maxunicode) self' /\
    ascending self' /\
    forall x, covers self' x
              <-> ((covers self x
                    /\ ~ covers match other with
                                | IterableSubset l => l
                                | IterableItems l => l
                                end x)
                   \/ (~ covers self x
                       /\ covers match other with
                                 | IterableSubset l => l
                                 | IterableItems l => l
                                 end x)).
Proof.
  intros self other Hs Ha Ho.
  assert (G : forall l, Forall (valid_value maxunicode) l -> ascending l ->
            exists self',
              toggle_each maxunicode self (__iter__ l) = (self', None) /\
              Forall (valid_value maxunicode) self' /\ ascending self' /\
              forall x, covers self' x
                        <-> ((covers self x /\ ~ covers l x)
                             \/ (~ covers self x /\ covers l x))).
  { intros l Hl Hal.
    destruct (toggle_each_spec maxunicode (__iter__ l) self Hs Ha)
      as (self' & E & V & A & C).
    - apply Forall_forall. intros v Hv. apply iter_In in Hv.
      exact (covers_valid maxunicode l v Hl Hv).
    - apply iter_NoDup; [apply Forall_valid_nonempty with maxunicode|]; assumption.
    - exists self'. splits; auto. intros x. rewrite C, !iter_In. tauto. }
  destruct other as [l | items]; cbn [operand_of __ixor__].
  - destruct Ho as [Hl Hal].
    destruct (G l Hl Hal) as (self' & E & V & A & C).
    exists self'. rewrite E. splits; auto.
  - destruct (UnicodeSubset_items maxunicode items Ho)
      as (l & El & Ol & _ & Vl & Cl).
    rewrite El.
    destruct (G l Vl (ordered_ascending l Ol)) as (self' & E & V & A & C).
    exists self'. rewrite E. splits; auto.
    intros x. rewrite C, Cl. tauto.
Qed.

(** X22. Two subsets built from lists of valid values compare equal exactly
    when the two lists cover the same code points. *)
Theorem eq_of_built_subsets : forall items1 items2,
  Forall (valid_value maxunicode) items1 ->
  Forall (valid_value maxunicode) items2 ->
  exists self other,
    UnicodeSubset maxunicode (Items (items1, None)) = Return self /\
    UnicodeSubset maxunicode (Items (items2, None)) = Return other /\
    (__eq__ self other = true
     <-> forall x, covers items1 x <-> covers items2 x).
Proof.
  intros items1 items2 H1 H2.
  destruct (UnicodeSubset_items maxunicode items1 H1)
    as (l1 & E1 & O1 & P1 & _ & C1).
  destruct (UnicodeSubset_items maxunicode items2 H2)
    as (l2 & E2 & O2 & P2 & _ & C2).
  exists l1, l2. splits; auto.
  unfold __eq__. rewrite list_eq_spec. split.
  - intros <- x. rewrite <- C1, <- C2. tauto.
  - intros H. apply canonical_unique; auto.
    intros x. rewrite C1, C2. apply H.
Qed.

(** X23. On valid atoms in ascending order, adding a code point that the
    subset does not contain makes [len] one more and adding one it contains
    leaves [len] as it is; discarding a code point it contains makes [len]
    one less and discarding one it does not contain leaves it. *)
Theorem len_follows_add_and_discard : forall code_points value,
  Forall (valid_value maxunicode) code_points -> ascending code_points ->
  0 <= value <= maxunicode ->
  exists added discarded,
    add maxunicode code_points (Single value) = (added, None) /\
    discard maxunicode code_points (Single value) = (discarded, None) /\
    __len__ added
    = __len__ code_points
      + (if __contains__ code_points value then 0 else 1) /\
    __len__ discarded
    = __len__ code_points
      - (if __contains__ code_points value then 1 else 0).
Proof.
  intros l v Hl Ha Hv.
  pose proof (Forall_valid_nonempty maxunicode l Hl) as Nl.
  destruct (add_single_spec maxunicode l v Hl Ha Hv) as (la & Ea & Va & Aa & Ca).
  destruct (discard_single_spec maxunicode l v Hl Ha Hv)
    as (ld & Ed & Vd & Ad & Cd).
  pose proof (Forall_valid_nonempty maxunicode la Va) as Na.
  pose proof (Forall_valid_nonempty maxunicode ld Vd) as Nd.
  exists la, ld. splits; auto.
  - pose proof (contains_covers l v Nl Ha) as Hin.
    destruct (__contains__ l v).
    + rewrite Z.add_0_r. apply len_same_code_points; auto.
      assert (covers l v) by (apply Hin; reflexivity).
      intros x. rewrite Ca. intuition congruence.
    + apply len_one_more with v; auto.
      intros H. apply Hin in H. discriminate.
  - pose proof (contains_covers l v Nl Ha) as Hin.
    destruct (__contains__ l v).
    + assert (Hc : covers l v) by (apply Hin; reflexivity).
      assert (E : __len__ l = __len__ ld + 1).
      { apply len_one_more with v; auto.
        - rewrite Cd. tauto.
        - intros x. rewrite Cd.
          destruct (Z.eq_dec x v) as [-> | Hne]; tauto. }
      lia.
    + rewrite Z.sub_0_r. apply len_same_code_points; auto.
      assert (Hn : ~ covers l v) by (intros H; apply Hin in H; discriminate).
      intros x. rewrite Cd. split; [tauto|]. intros Hx. split; [exact Hx|].
      intros ->. exact (Hn Hx).
Qed.

(** X24. A subset of valid atoms in ascending order and the subset built
    from its complement have [maxunicode + 1] code points together. *)
Theorem len_with_complement : forall code_points,
  0 <= maxunicode ->
  Forall (valid_value maxunicode) code_points -> ascending code_points ->
  exists rest,
    UnicodeSubset maxunicode (Items (complement maxunicode code_points))
    = Return rest /\
    __len__ code_points + __len__ rest = maxunicode + 1.
Proof.
  intros l Hm Hl Ha.
  destruct (complement_covers maxunicode l Hl Ha) as (out & Eq & Vo & Co).
  rewrite Eq.
  destruct (UnicodeSubset_items maxunicode out Vo) as (c & Ec & Oc & _ & Vc & Cc).
  exists c. split; [exact Ec|].
  rewrite <- (len_whole_range maxunicode) by lia. symmetry.
  apply len_disjoint_union.
  - apply Forall_valid_nonempty with maxunicode. exact Hl.
  - exact Ha.
  - apply Forall_valid_nonempty with maxunicode. exact Vc.
  - apply ordered_ascending. exact Oc.
  - repeat constructor. unfold nonempty. simpl. lia.
  - simpl. auto.
  - intros x Hx. rewrite Cc, Co. tauto.
  - intros x. rewrite Cc, Co, covers_cons. unfold inside. cbn [lo hi].
    pose proof (covers_nil x). pose proof (covers_valid maxunicode l x Hl).
    destruct (covers_dec l x); intuition lia.
Qed.

End SizeAndComparison.

(** ** A subset built from a string *)

Section SubsetOfText.

Variable maxunicode : Z.

Lemma parse_loop_tokens_valid : forall n rest,
  (length rest <= n)%nat ->
  92 <= maxunicode ->
  Forall (fun c => 0 <= c <= maxunicode) rest ->
  forall s i escaped char,
    0 <= char <= maxunicode ->
    Forall (valid_value maxunicode)
           (fst (parse_loop s false i rest escaped char)).
Proof.
  induction n as [|n IH]; intros rest Hlen Hm Hrest s i escaped char Hchar.
  - destruct rest; [|simpl in Hlen; lia]. cbn [parse_loop].
    destruct escaped; repeat constructor; simpl; lia.
  - destruct rest as [|c rest1].
    { cbn [parse_loop]. destruct escaped; repeat constructor; simpl; lia. }
    simpl in Hlen. inversion Hrest as [|? ? Hc Hrest1]; subst.
    assert (IH1 : forall i e ch, 0 <= ch <= maxunicode ->
              Forall (valid_value maxunicode)
                     (fst (parse_loop s false i rest1 e ch)))
      by (intros; apply IH; auto; lia).
    assert (Y : forall a g, valid_value maxunicode a ->
              Forall (valid_value maxunicode) (fst g) ->
              Forall (valid_value maxunicode) (fst (yield a g)))
      by (intros a g Ha Hg; cbn [yield fst]; constructor; assumption).
    assert (V92 : valid_value maxunicode (Single 92)) by (simpl; lia).
    assert (Vc : valid_value maxunicode (Single c)) by (simpl; lia).
    cbn [parse_loop].
    destruct (c =? 45).
    { destruct escaped; cbn [orb].
      { apply Y; auto. }
      destruct (i =? len s - 1).
      { apply Y; auto. }
      destruct rest1 as [|c1 rest2].
      { constructor. }
      simpl in Hlen. inversion Hrest1 as [|? ? Hc1 Hrest2]; subst.
      destruct ((c1 =? 92) && (i + 1 <? len s - 1)
                && match rest2 with
                   | [] => false
                   | c2 :: _ => in_chars c2 CHARACTER_GROUP_ESCAPED
                   end).
      - destruct rest2 as [|end_char rest3].
        { constructor. }
        simpl in Hlen. inversion Hrest2 as [|? ? He Hrest3]; subst.
        rewrite Z.gtb_ltb.
        destruct (Z.ltb_spec end_char char).
        + constructor.
        + apply Y; [simpl; lia|]. apply IH; auto. lia.
      - rewrite Z.gtb_ltb. destruct (Z.ltb_spec c1 char).
        + constructor.
        + apply Y; [simpl; lia|]. apply IH; auto. lia. }
    destruct (in_chars c metacharacters).
    { apply Y; auto. }
    destruct (in_chars c brackets).
    { destruct (negb escaped && (len s >? 1)).
      - constructor.
      - apply Y; auto. }
    destruct (c =? 92).
    { destruct escaped.
      - apply Y; [exact V92 | apply IH1; lia].
      - apply IH1. exact Hchar. }
    destruct escaped.
    + apply Y; auto.
    + apply Y; auto.
Qed.

Lemma parse_tokens_valid s :
  92 <= maxunicode ->
  Forall (fun c => 0 <= c <= maxunicode) s ->
  Forall (valid_value maxunicode) (fst (parse_character_group s false)).
Proof.
  intros Hm Hs. unfold parse_character_group.
  destruct s as [|char rest]; [constructor|].
  inversion Hs as [|? ? Hc Hrest]; subst.
  assert (L : forall i e, Forall (valid_value maxunicode)
                                 (fst (parse_loop (char :: rest) false i rest e char)))
    by (intros; apply (parse_loop_tokens_valid (length rest)); auto).
  assert (Y : Forall (valid_value maxunicode)
                (fst (yield (Single char)
                        (parse_loop (char :: rest) false 1 rest false char))))
    by (cbn [yield fst]; constructor; [simpl; lia | apply L]).
  destruct (char =? 92); [apply L|].
  destruct (in_chars char brackets && (len (char :: rest) >? 1)); [constructor|].
  destruct ((len (char :: rest) - 1 <=? 1)
            || negb match rest with c1 :: _ => c1 =? 45 | [] => false end);
    [exact Y | apply L].
Qed.

(** X25. [UnicodeSubset(s)] for a string of valid code points either raises
    the exception of the parser, or builds valid, ordered and proper atoms
    that cover exactly the code points of the parsed tokens. *)
Theorem UnicodeSubset_of_text : forall s,
  92 <= maxunicode ->
  Forall (fun c => 0 <= c <= maxunicode) s ->
  match snd (parse_character_group s false) with
  | Some e => UnicodeSubset maxunicode (Text s) = Raise e
  | None =>
      exists code_points,
        UnicodeSubset maxunicode (Text s) = Return code_points /\
        ordered code_points /\ Forall proper code_points /\
        Forall (valid_value maxunicode) code_points /\
        forall x, covers code_points x
                  <-> covers (fst (parse_character_group s false)) x
  end.
Proof.
  intros s Hm Hs. pose proof (parse_tokens_valid s Hm Hs) as Hv.
  destruct (parse_character_group s false) as [tokens [e|]] eqn:Ep;
    cbn [fst snd] in *.
  - unfold UnicodeSubset, update. rewrite Ep. reflexivity.
  - destruct (UnicodeSubset_items maxunicode tokens Hv)
      as (l & El & Ol & Pl & Vl & Cl).
    exists l. splits; auto.
    unfold UnicodeSubset, update in *. rewrite Ep. exact El.
Qed.

End SubsetOfText.

(** * Scenarios on concrete inputs *)

(** C5. The tokens of the parser scenarios, without expansion of ranges:
    "a-z", "-az", "a\-z", "[", and the two grammar errors, "a[b" at the
    position of the bracket and "z-a". *)
Theorem parse_character_group_scenarios :
  parse_character_group (code_points_of "a-z") false
    = ([Range 97 122], None) /\
  parse_character_group (code_points_of "-az") false
    = ([Single 45; Single 97; Single 122], None) /\
  parse_character_group (code_points_of "a\-z") false
    = ([Single 97; Single 45; Single 122], None) /\
  parse_character_group (code_points_of "[") false
    = ([Single 91], None) /\
  parse_character_group (code_points_of "a[b") false
    = ([Single 97], Some (XMLSchemaRegexError (BadCharacter 91 1))) /\
  parse_character_group (code_points_of "z-a") false
    = ([], Some (XMLSchemaRegexError
                   (BadCharacterRange 122 97 0 (code_points_of "z-a")))).
Proof. repeat split; reflexivity. Qed.

(** An invalid couple on the subset [[5, 50]]: given as the tuple [(5, 3)]
    it ends [add] and [discard] with the [TypeError] of the message
    formatting, given as the list [[5, 3]] with the value error; an invalid
    integer ends them with the value error.  The atoms are left as they
    were. *)
Lemma invalid_couple_scenarios :
  add UCS4_MAXUNICODE [Single 5; Single 50] (Range 5 3)
    = ([Single 5; Single 50], Some (TypeError NotAllArgumentsConverted)) /\
  discard UCS4_MAXUNICODE [Single 5; Single 50] (Range 0 2000000)
    = ([Single 5; Single 50], Some (TypeError NotAllArgumentsConverted)) /\
  add_list UCS4_MAXUNICODE [Single 5; Single 50] 5 3
    = ([Single 5; Single 50],
       Some (XMLSchemaValueError (NotCodePointRange (Range 5 3)))) /\
  discard_list UCS4_MAXUNICODE [Single 5; Single 50] 0 2000000
    = ([Single 5; Single 50],
       Some (XMLSchemaValueError (NotCodePointRange (Range 0 2000000)))) /\
  add UCS4_MAXUNICODE [Single 5; Single 50] (Single (-1))
    = ([Single 5; Single 50],
       Some (XMLSchemaValueError (NotCodePoint (Single (-1))))) /\
  message_format NotAllArgumentsConverted
    = "not all arguments converted during string formatting"%string.
Proof. repeat split; reflexivity. Qed.

(** C1. Three valid calls of [add] on an empty subset leave two adjacent
    atoms, and a range added over two atoms is cut before the second one. *)
Theorem add_leaves_adjacent_atoms :
  run_calls UCS4_MAXUNICODE []
    [CallAdd (Single 5); CallAdd (Single 7); CallAdd (Single 6)]
    = ([Range 5 6; Single 7], None) /\
  ~ ordered [Range 5 6; Single 7] /\
  run_calls UCS4_MAXUNICODE []
    [CallAdd (Single 5); CallAdd (Single 50); CallAdd (Range 0 100)]
    = ([Range 0 49; Single 50], None) /\
  ~ ordered [Range 0 49; Single 50] /\
  ~ covers [Range 0 49; Single 50] 60.
Proof.
  splits; try reflexivity.
  - simpl. lia.
  - simpl. lia.
  - intros (a & [<- | [<- | []]] & H); unfold inside in H; simpl in H; lia.
Qed.

(** C3 as stated fails on a two code point range: the second complement
    yields its two code points as integers. *)
Lemma involution_fails_on_two_wide_range :
  Forall (valid_value UCS4_MAXUNICODE) [Range 97 98] /\
  ordered [Range 97 98] /\
  ~ involution_as_stated UCS4_MAXUNICODE [Range 97 98].
Proof.
  splits.
  - constructor; [simpl; unfold UCS4_MAXUNICODE; lia | constructor].
  - simpl. auto.
  - intros (once & E1 & E2). vm_compute in E1. injection E1 as <-.
    vm_compute in E2. discriminate.
Qed.

Lemma complement_involution_witness :
  exists once,
    UnicodeSubset UCS4_MAXUNICODE
      (Items (complement UCS4_MAXUNICODE [Single 45; Range 97 98]))
      = Return once /\
    UnicodeSubset UCS4_MAXUNICODE (Items (complement UCS4_MAXUNICODE once))
      = Return [Single 45; Range 97 98].
Proof.
  apply (complement_involution UCS4_MAXUNICODE [Single 45; Range 97 98]).
  - repeat constructor; simpl; unfold UCS4_MAXUNICODE; lia.
  - simpl. lia.
  - repeat constructor; simpl; lia.
Defined.

(** C4 as stated fails when [last] passes [maxunicode] before an atom out of
    order: the rule raises there, the code has left the loop. *)
Lemma complement_leaves_loop_after_maxunicode :
  snd (walk_as_stated UCS4_MAXUNICODE 0 [Single 1114111; Single 5])
    = Some (XMLSchemaValueError CodePointsUnordered) /\
  complement UCS4_MAXUNICODE [Single 1114111; Single 5]
    = ([Range 0 1114110], None).
Proof. split; reflexivity. Qed.

Lemma add_clamps_merge_or_inserts_sorted_witness :
  snd (add UCS4_MAXUNICODE [Single 5; Single 50] (Range 0 100)) = None /\
  fst (add UCS4_MAXUNICODE [Single 5; Single 50] (Range 0 100))
    = [Range 0 49; Single 50].
Proof.
  pose proof (add_clamps_merge_or_inserts_sorted UCS4_MAXUNICODE
                [Single 5; Single 50] (Range 0 100)) as H.
  destruct H as [H _].
  - repeat constructor; simpl; unfold UCS4_MAXUNICODE; lia.
  - simpl. lia.
  - simpl. unfold UCS4_MAXUNICODE. lia.
  - split; [exact H | reflexivity].
Defined.

Lemma iter_code_points_forward_witness :
  ordered (iter_code_points [Single 5; Range 1 3; Single 4] false).
Proof.
  apply (iter_code_points_forward [Single 5; Range 1 3; Single 4]).
  repeat constructor; unfold nonempty; simpl; lia.
Defined.

(** C6 as stated fails on a range that starts at the backslash: the text is
    a backslash, a hyphen and the end character, which the parser reads as
    an escaped hyphen and a character; on the two code point range of the
    backslash and the closing bracket the parser raises. *)
Lemma round_trip_fails_on_backslash_range :
  Forall (valid_value UCS4_MAXUNICODE) [Range 92 100] /\
  ordered [Range 92 100] /\
  unicode [Range 92 100] = code_points_of "\-d" /\
  UnicodeSubset UCS4_MAXUNICODE (Text (unicode [Range 92 100]))
    = Return [Single 45; Single 100] /\
  UnicodeSubset UCS4_MAXUNICODE (Text (unicode [Range 92 100]))
    <> Return [Range 92 100] /\
  UnicodeSubset UCS4_MAXUNICODE (Text (unicode [Range 92 93]))
    = Raise (XMLSchemaRegexError (BadCharacter 93 2)).
Proof.
  splits; try reflexivity.
  - constructor; [simpl; unfold UCS4_MAXUNICODE; lia | constructor].
  - simpl. auto.
  - vm_compute. discriminate.
Qed.

Lemma unicode_round_trip_witness :
  UnicodeSubset UCS4_MAXUNICODE
    (Text (unicode [Single 45; Range 91 92; Range 94 100; Single 124;
                    Range 200 201]))
  = Return [Single 45; Range 91 92; Range 94 100; Single 124; Range 200 201].
Proof.
  apply (unicode_round_trip UCS4_MAXUNICODE).
  - repeat constructor; simpl; unfold UCS4_MAXUNICODE; lia.
  - simpl. lia.
  - repeat constructor; simpl; lia.
  - repeat constructor; simpl; lia.
Defined.

(** C7 as stated fails on a decoded mapping without the two letter names:
    the lookup of the first one raises. *)
Lemma build_unicode_categories_raises_key_error :
  build_unicode_categories UCS4_MAXUNICODE (fun _ => "Cc"%string) (Loaded [])
  = Raise (KeyError "Cc").
Proof. reflexivity. Qed.

Lemma build_unicode_categories_falls_back_witness :
  exists t,
    build_unicode_categories UCS4_MAXUNICODE
      (fun cp => if cp <? 32 then "Cc"%string else "Cn"%string) LoadValueError
    = Return t /\
    forall k, In k category_names -> exists l, lookup k t = Some l.
Proof.
  destruct (build_unicode_categories_falls_back UCS4_MAXUNICODE
              (fun cp => if cp <? 32 then "Cc"%string else "Cn"%string) LoadValueError)
    as (t & Et & Hk & _).
  - unfold UCS4_MAXUNICODE. lia.
  - reflexivity.
  - right. right. right. reflexivity.
  - exists t. split; [exact Et|]. intros k Hin.
    destruct (Hk k Hin) as (l & El & _). exists l. exact El.
Defined.

Lemma reflected_minus_discards_left_from_right_witness :
  reflected_minus UCS4_MAXUNICODE [Single 1; Single 2; Single 3] [Single 2]
  = sub UCS4_MAXUNICODE [Single 2] (Iterable [Single 1; Single 2; Single 3]) /\
  reflected_minus UCS4_MAXUNICODE [Single 1; Single 2; Single 3] [Single 2]
  = Return (Object []).
Proof.
  split; [|reflexivity].
  apply (reflected_minus_discards_left_from_right UCS4_MAXUNICODE
           [Single 1; Single 2; Single 3] [Single 2]);
    repeat constructor; simpl; unfold UCS4_MAXUNICODE; lia.
Defined.

(** * Instances of the further properties *)

Lemma contains_iff_iterated_witness :
  __contains__ [Single 5; Range 7 9] 8 = true
  <-> In 8 (__iter__ [Single 5; Range 7 9]).
Proof.
  apply (contains_iff_iterated [Single 5; Range 7 9] 8).
  - repeat constructor; unfold nonempty; simpl; lia.
  - simpl. lia.
Defined.

Lemma iter_increasing_witness : increasing (__iter__ [Single 5; Range 7 9]).
Proof.
  apply (iter_increasing [Single 5; Range 7 9]).
  - repeat constructor; unfold nonempty; simpl; lia.
  - simpl. lia.
Defined.

Lemma add_keeps_ascending_witness :
  exists code_points',
    add UCS4_MAXUNICODE [Range 5 6; Single 7] (Range 0 100)
    = (code_points', None) /\
    Forall (valid_value UCS4_MAXUNICODE) code_points' /\
    ascending code_points' /\
    (forall x, covers [Range 5 6; Single 7] x -> covers code_points' x) /\
    (forall x, covers code_points' x ->
               covers [Range 5 6; Single 7] x \/ inside (Range 0 100) x).
Proof.
  apply (add_keeps_ascending UCS4_MAXUNICODE [Range 5 6; Single 7] (Range 0 100)).
  - repeat constructor; simpl; unfold UCS4_MAXUNICODE; lia.
  - simpl. lia.
  - simpl. unfold UCS4_MAXUNICODE. lia.
Defined.

Lemma discard_removes_exactly_witness :
  exists code_points',
    discard UCS4_MAXUNICODE [Range 97 102] (Range 99 100)
    = (code_points', None) /\
    Forall (valid_value UCS4_MAXUNICODE) code_points' /\
    ascending code_points' /\
    (ordered [Range 97 102] -> ordered code_points') /\
    (Forall proper [Range 97 102] -> Forall proper code_points') /\
    forall x, covers code_points' x
              <-> (covers [Range 97 102] x /\ ~ inside (Range 99 100) x).
Proof.
  apply (discard_removes_exactly UCS4_MAXUNICODE [Range 97 102] (Range 99 100)).
  - repeat constructor; simpl; unfold UCS4_MAXUNICODE; lia.
  - simpl. auto.
  - simpl. unfold UCS4_MAXUNICODE. lia.
Defined.

Lemma calls_keep_ascending_witness :
  exists code_points',
    run_calls UCS4_MAXUNICODE []
      [CallAdd (Single 5); CallAdd (Single 7); CallAdd (Single 6);
       CallDiscard (Range 0 5)]
    = (code_points', None) /\
    Forall (valid_value UCS4_MAXUNICODE) code_points' /\
    ascending code_points'.
Proof.
  apply (calls_keep_ascending UCS4_MAXUNICODE
           [CallAdd (Single 5); CallAdd (Single 7); CallAdd (Single 6);
            CallDiscard (Range 0 5)] []).
  - constructor.
  - exact I.
  - repeat constructor; simpl; unfold UCS4_MAXUNICODE; lia.
Defined.

Lemma add_then_discard_restores_witness :
  run_calls UCS4_MAXUNICODE [Single 5; Single 50]
    [CallAdd (Range 10 20); CallDiscard (Range 10 20)]
  = ([Single 5; Single 50], None).
Proof.
  apply (add_then_discard_restores UCS4_MAXUNICODE [Single 5; Single 50]
           (Range 10 20)).
  - repeat constructor; simpl; unfold UCS4_MAXUNICODE; lia.
  - simpl. lia.
  - simpl. unfold UCS4_MAXUNICODE. lia.
  - repeat constructor; unfold apart; simpl; lia.
Defined.

Lemma add_union_when_touching_one_witness :
  covers (fst (add UCS4_MAXUNICODE [Single 5; Single 50] (Range 0 10))) 8
  <-> (covers [Single 5; Single 50] 8 \/ inside (Range 0 10) 8).
Proof.
  apply (add_union_when_touching_one UCS4_MAXUNICODE [Single 5; Single 50]
           (Range 0 10)).
  - repeat constructor; simpl; unfold UCS4_MAXUNICODE; lia.
  - simpl. lia.
  - simpl. unfold UCS4_MAXUNICODE. lia.
  - intros a b [<- | [<- | []]] [<- | [<- | []]] Ha Hb; try reflexivity;
      exfalso; [apply Hb | apply Ha]; unfold apart; simpl; lia.
Defined.

Lemma UnicodeSubset_normalizes_witness :
  exists code_points,
    UnicodeSubset UCS4_MAXUNICODE (Items ([Single 98; Range 90 97], None))
    = Return code_points /\
    ordered code_points /\ Forall proper code_points /\
    Forall (valid_value UCS4_MAXUNICODE) code_points /\
    forall x, covers code_points x <-> covers [Single 98; Range 90 97] x.
Proof.
  apply (UnicodeSubset_normalizes UCS4_MAXUNICODE [Single 98; Range 90 97]).
  repeat constructor; simpl; unfold UCS4_MAXUNICODE; lia.
Defined.

Lemma copy_has_same_atoms_witness :
  copy UCS4_MAXUNICODE [Single 45; Range 97 98]
  = Return [Single 45; Range 97 98].
Proof.
  apply (copy_has_same_atoms UCS4_MAXUNICODE [Single 45; Range 97 98]).
  - repeat constructor; simpl; unfold UCS4_MAXUNICODE; lia.
  - simpl. lia.
  - repeat constructor; simpl; lia.
Defined.

Lemma complement_yields_absent_code_points_witness :
  exists items,
    complement UCS4_MAXUNICODE [Range 5 6; Single 7] = (items, None) /\
    Forall (valid_value UCS4_MAXUNICODE) items /\
    ascending items /\
    forall x, covers items x
              <-> (0 <= x <= UCS4_MAXUNICODE /\ ~ covers [Range 5 6; Single 7] x).
Proof.
  apply (complement_yields_absent_code_points UCS4_MAXUNICODE
           [Range 5 6; Single 7]).
  - repeat constructor; simpl; unfold UCS4_MAXUNICODE; lia.
  - simpl. lia.
Defined.

Lemma iter_code_points_reverse_of_forward_witness :
  iter_code_points [Single 5; Range 1 3; Single 4] true
  = rev (iter_code_points [Single 5; Range 1 3; Single 4] false).
Proof.
  apply (iter_code_points_reverse_of_forward [Single 5; Range 1 3; Single 4]).
  repeat constructor; unfold nonempty; simpl; lia.
Defined.

Lemma parse_plain_text_witness :
  parse_character_group (code_points_of "a|b") false
  = (map Single (code_points_of "a|b"), None).
Proof.
  apply (parse_plain_text (code_points_of "a|b") false).
  repeat constructor; try (cbn; lia).
Defined.

Lemma get_unicodedata_categories_partition_witness :
  covers
    (table_get "Cc"
       (get_unicodedata_categories UCS4_MAXUNICODE
          (fun cp => if cp <? 32 then "Cc"%string else "Cn"%string))) 5
  <-> (0 <= 5 <= UCS4_MAXUNICODE
       /\ (fun cp => if cp <? 32 then "Cc"%string else "Cn"%string) 5
          = "Cc"%string).
Proof.
  apply (get_unicodedata_categories_partition UCS4_MAXUNICODE
           (fun cp => if cp <? 32 then "Cc"%string else "Cn"%string)).
  unfold UCS4_MAXUNICODE. lia.
Defined.

Lemma general_categories_cover_their_parts_witness :
  exists t,
    build_unicode_categories UCS4_MAXUNICODE
      (fun cp => if cp <? 32 then "Cc"%string else "Cn"%string) LoadIOError
    = Return t /\
    exists l, lookup "C" t = Some l /\ covers l 5.
Proof.
  destruct (general_categories_cover_their_parts UCS4_MAXUNICODE
              (fun cp => if cp <? 32 then "Cc"%string else "Cn"%string)
              LoadIOError)
    as (t & Et & Hgeneral & _).
  - unfold UCS4_MAXUNICODE. lia.
  - reflexivity.
  - right. left. reflexivity.
  - exists t. split; [exact Et|].
    destruct (Hgeneral "C"%string ["Cc"; "Cf"; "Cs"; "Co"; "Cn"]%string)
      as (l & El & Hl); [left; reflexivity|].
    exists l. split; [exact El|]. apply Hl.
    split; [unfold UCS4_MAXUNICODE; lia | left; reflexivity].
Defined.

Lemma difference_update_removes_items_witness :
  exists code_points',
    difference_update UCS4_MAXUNICODE [Range 97 102]
      (Items ([Single 100; Single 99], None))
    = (code_points', None) /\
    Forall (valid_value UCS4_MAXUNICODE) code_points' /\
    ascending code_points' /\
    (ordered [Range 97 102] -> ordered code_points') /\
    forall x, covers code_points' x
              <-> (covers [Range 97 102] x /\ ~ covers [Single 100; Single 99] x).
Proof.
  apply (difference_update_removes_items UCS4_MAXUNICODE [Range 97 102]
           [Single 100; Single 99]).
  - repeat constructor; simpl; unfold UCS4_MAXUNICODE; lia.
  - simpl. auto.
  - repeat constructor; simpl; unfold UCS4_MAXUNICODE; lia.
Defined.

Lemma sub_of_subsets_witness :
  exists difference,
    sub UCS4_MAXUNICODE [Range 97 102] (Subset [Range 99 100])
    = Return (Object difference) /\
    ordered difference /\
    Forall (valid_value UCS4_MAXUNICODE) difference /\
    forall x, covers difference x
              <-> (covers [Range 97 102] x /\ ~ covers [Range 99 100] x).
Proof.
  apply (sub_of_subsets UCS4_MAXUNICODE [Range 97 102] [Range 99 100]);
    repeat constructor; simpl; unfold UCS4_MAXUNICODE; lia.
Defined.

Lemma iand_keeps_common_code_points_witness :
  exists self',
    __iand__ UCS4_MAXUNICODE [Range 97 102] (IterableSubset [Range 99 110])
    = Return (Object self') /\
    Forall (valid_value UCS4_MAXUNICODE) self' /\
    ascending self' /\
    forall x, covers self' x
              <-> (covers [Range 97 102] x /\ covers [Range 99 110] x).
Proof.
  apply (iand_keeps_common_code_points UCS4_MAXUNICODE [Range 97 102]
           (IterableSubset [Range 99 110])).
  - repeat constructor; simpl; unfold UCS4_MAXUNICODE; lia.
  - simpl. auto.
  - repeat constructor; simpl; unfold UCS4_MAXUNICODE; lia.
Defined.

Lemma ior_keeps_and_adds_only_other_witness :
  exists self',
    __ior__ UCS4_MAXUNICODE [Single 5; Single 50]
      (operand_of (IterableItems [Range 0 100]))
    = Return (Object self') /\
    Forall (valid_value UCS4_MAXUNICODE) self' /\
    ascending self' /\
    (forall x, covers [Single 5; Single 50] x -> covers self' x) /\
    (forall x, covers self' x ->
               covers [Single 5; Single 50] x \/ covers [Range 0 100] x).
Proof.
  apply (ior_keeps_and_adds_only_other UCS4_MAXUNICODE [Single 5; Single 50]
           (IterableItems [Range 0 100])).
  - repeat constructor; simpl; unfold UCS4_MAXUNICODE; lia.
  - simpl. lia.
  - repeat constructor; simpl; unfold UCS4_MAXUNICODE; lia.
Defined.

Lemma ixor_is_symmetric_difference_witness :
  exists self',
    __ixor__ UCS4_MAXUNICODE [Range 97 102]
      (Another (operand_of (IterableItems [Range 100 110])))
    = Return (Object self') /\
    Forall (valid_value UCS4_MAXUNICODE) self' /\
    ascending self' /\
    forall x, covers self' x
              <-> ((covers [Range 97 102] x /\ ~ covers [Range 100 110] x)
                   \/ (~ covers [Range 97 102] x /\ covers [Range 100 110] x)).
Proof.
  apply (ixor_is_symmetric_difference UCS4_MAXUNICODE [Range 97 102]
           (IterableItems [Range 100 110])).
  - repeat constructor; simpl; unfold UCS4_MAXUNICODE; lia.
  - simpl. auto.
  - repeat constructor; simpl; unfold UCS4_MAXUNICODE; lia.
Defined.

Lemma eq_of_built_subsets_witness :
  exists self other,
    UnicodeSubset UCS4_MAXUNICODE (Items ([Single 98; Single 97], None))
    = Return self /\
    UnicodeSubset UCS4_MAXUNICODE (Items ([Range 97 98], None))
    = Return other /\
    (__eq__ self other = true
     <-> forall x, covers [Single 98; Single 97] x <-> covers [Range 97 98] x).
Proof.
  apply (eq_of_built_subsets UCS4_MAXUNICODE [Single 98; Single 97]
           [Range 97 98]);
    repeat constructor; simpl; unfold UCS4_MAXUNICODE; lia.
Defined.

Lemma len_follows_add_and_discard_witness :
  exists added discarded,
    add UCS4_MAXUNICODE [Range 97 102] (Single 103) = (added, None) /\
    discard UCS4_MAXUNICODE [Range 97 102] (Single 103) = (discarded, None) /\
    __len__ added
    = __len__ [Range 97 102]
      + (if __contains__ [Range 97 102] 103 then 0 else 1) /\
    __len__ discarded
    = __len__ [Range 97 102]
      - (if __contains__ [Range 97 102] 103 then 1 else 0).
Proof.
  apply (len_follows_add_and_discard UCS4_MAXUNICODE [Range 97 102] 103).
  - repeat constructor; simpl; unfold UCS4_MAXUNICODE; lia.
  - simpl. auto.
  - unfold UCS4_MAXUNICODE. lia.
Defined.

Lemma len_with_complement_witness :
  exists rest,
    UnicodeSubset UCS4_MAXUNICODE
      (Items (complement UCS4_MAXUNICODE [Range 97 102]))
    = Return rest /\
    __len__ [Range 97 102] + __len__ rest = UCS4_MAXUNICODE + 1.
Proof.
  apply (len_with_complement UCS4_MAXUNICODE [Range 97 102]).
  - unfold UCS4_MAXUNICODE. lia.
  - repeat constructor; simpl; unfold UCS4_MAXUNICODE; lia.
  - simpl. auto.
Defined.

Lemma UnicodeSubset_of_text_witness :
  match snd (parse_character_group (code_points_of "a-cx") false) with
  | Some e => UnicodeSubset UCS4_MAXUNICODE (Text (code_points_of "a-cx")) = Raise e
  | None =>
      exists code_points,
        UnicodeSubset UCS4_MAXUNICODE (Text (code_points_of "a-cx"))
        = Return code_points /\
        ordered code_points /\ Forall proper code_points /\
        Forall (valid_value UCS4_MAXUNICODE) code_points /\
        forall x, covers code_points x
                  <-> covers (fst (parse_character_group
                                     (code_points_of "a-cx") false)) x
  end.
Proof.
  apply (UnicodeSubset_of_text UCS4_MAXUNICODE (code_points_of "a-cx")).
  - unfold UCS4_MAXUNICODE. lia.
  - repeat constructor; cbn; unfold UCS4_MAXUNICODE; lia.
Defined.
